(** * xyflow system: geometry, node store, drag and connection solvers

    A shallow embedding of the functions of [dist/esm] that the specification
    talks about, and the properties the specification states about them.

    Number model.  A JavaScript [number] is modelled as a real number: the
    arithmetic is exact, and [NaN] and the infinities are not values of the
    model.  Where the source produces or tests for them, the model says so
    explicitly: an absent ([undefined]) number is [None], the [NaN] that
    results from arithmetic on an absent number is [None], and the start
    value [Infinity] of a running minimum is [None].  A division by zero has
    no meaning in the model; the statements below that divide either assume
    the divisor is not zero or hold whatever the quotient is.

    Maps.  A JavaScript [Map] iterates in insertion order and several of the
    functions below iterate, so a [Map] is an association list. *)

From Stdlib Require Import Reals Lra Lia List String Bool ZArith.
Import ListNotations.

Local Open Scope R_scope.

(* ================================================================= *)
(** * Numbers *)

(** Comparisons of the source, as booleans. *)
Definition Rltb (a b : R) : bool := if Rlt_dec a b then true else false.
Definition Rleb (a b : R) : bool := if Rle_dec a b then true else false.
Definition Reqb (a b : R) : bool := if Req_dec_T a b then true else false.

(** [Math.round]: the nearest integer, halves rounded up. *)
Definition Math_round (v : R) : R := IZR (Int_part (v + / 2)).

(** A number that may be [NaN] ([None]). *)
Definition num := option R.

(** [a !== b] on numbers: [NaN] differs from everything, itself included. *)
Definition num_neq (a b : num) : bool :=
  match a, b with
  | Some u, Some v => negb (Reqb u v)
  | _, _ => true
  end.

(** Truthiness of an optional number: absent and [0] are falsy. *)
Definition truthy_num (w : option R) : bool :=
  match w with
  | Some v => negb (Reqb v 0)
  | None => false
  end.

(** Truthiness of an optional string: absent and the empty string are falsy. *)
Definition truthy_str (s : option string) : bool :=
  match s with
  | Some v => negb (String.eqb v EmptyString)
  | None => false
  end.

(** [a ?? d] *)
Definition nullish {A : Type} (a : option A) (d : A) : A :=
  match a with
  | Some v => v
  | None => d
  end.

(** [a ?? b] where [b] may be absent too *)
Definition nullish_opt {A : Type} (a b : option A) : option A :=
  match a with
  | Some v => Some v
  | None => b
  end.

(* ================================================================= *)
(** * Maps in insertion order *)

Definition JSMap (V : Type) : Type := list (string * V).

Fixpoint map_get {V : Type} (m : JSMap V) (k : string) : option V :=
  match m with
  | [] => None
  | (k', v) :: rest => if String.eqb k' k then Some v else map_get rest k
  end.

(** [Map.prototype.set]: an existing key keeps its place. *)
Fixpoint map_set {V : Type} (m : JSMap V) (k : string) (v : V) : JSMap V :=
  match m with
  | [] => [(k, v)]
  | (k', v') :: rest =>
      if String.eqb k' k then (k', v) :: rest else (k', v') :: map_set rest k v
  end.

Definition map_values {V : Type} (m : JSMap V) : list V := List.map snd m.
Definition map_keys {V : Type} (m : JSMap V) : list string := List.map fst m.
Definition map_size {V : Type} (m : JSMap V) : nat := List.length m.

(* ================================================================= *)
(** * Geometry primitives *)

Record XYPosition : Type := mkXY { x : R; y : R }.

Record Rect : Type := mkRect
  { rect_x : R; rect_y : R; rect_width : R; rect_height : R }.

Record Box : Type := mkBox { box_x : R; box_y : R; box_x2 : R; box_y2 : R }.

(** [[tx, ty, tScale]] *)
Definition Transform : Type := (R * R * R)%type.

Record Viewport : Type := mkViewport { vp_x : R; vp_y : R; vp_zoom : R }.

(** [[[minX, minY], [maxX, maxY]]] *)
Definition CoordinateExtent : Type := ((R * R) * (R * R))%type.

Definition NodeOrigin : Type := (R * R)%type.

(** [const clamp = (val, min = 0, max = 1) => Math.min(Math.max(val, min), max)] *)
Definition clamp (val min max : R) : R := Rmin (Rmax val min) max.

Definition clampPosition (position : XYPosition) (extent : CoordinateExtent)
  : XYPosition :=
  {| x := clamp (x position) (fst (fst extent)) (fst (snd extent));
     y := clamp (y position) (snd (fst extent)) (snd (snd extent)) |}.

Definition calcAutoPanVelocity (value min max : R) : R :=
  if Rltb value min then clamp (Rabs (value - min)) 1 min / min
  else if Rltb max value then - clamp (Rabs (value - max)) 1 min / min
  else 0.

(** [calcAutoPan(pos, bounds, speed = 15, distance = 40)] *)
Definition calcAutoPan (pos : XYPosition) (bounds : Rect) (speed distance : R)
  : R * R :=
  let xMovement :=
    calcAutoPanVelocity (x pos) distance (rect_width bounds - distance) * speed in
  let yMovement :=
    calcAutoPanVelocity (y pos) distance (rect_height bounds - distance) * speed in
  (xMovement, yMovement).

Definition default_autoPanSpeed : R := 15.
Definition default_autoPanDistance : R := 40.

Definition getBoundsOfBoxes (box1 box2 : Box) : Box :=
  {| box_x := Rmin (box_x box1) (box_x box2);
     box_y := Rmin (box_y box1) (box_y box2);
     box_x2 := Rmax (box_x2 box1) (box_x2 box2);
     box_y2 := Rmax (box_y2 box1) (box_y2 box2) |}.

Definition rectToBox (r : Rect) : Box :=
  {| box_x := rect_x r;
     box_y := rect_y r;
     box_x2 := rect_x r + rect_width r;
     box_y2 := rect_y r + rect_height r |}.

Definition boxToRect (b : Box) : Rect :=
  {| rect_x := box_x b;
     rect_y := box_y b;
     rect_width := box_x2 b - box_x b;
     rect_height := box_y2 b - box_y b |}.

Definition snapPosition (position : XYPosition) (snapGrid : R * R) : XYPosition :=
  {| x := fst snapGrid * Math_round (x position / fst snapGrid);
     y := snd snapGrid * Math_round (y position / snd snapGrid) |}.

(** [pointToRendererPoint({x, y}, [tx, ty, tScale], snapToGrid = false, snapGrid = [1, 1])] *)
Definition pointToRendererPoint (p : XYPosition) (t : Transform)
    (snapToGrid : bool) (snapGrid : R * R) : XYPosition :=
  let '(tx, ty, tScale) := t in
  let position := {| x := (x p - tx) / tScale; y := (y p - ty) / tScale |} in
  if snapToGrid then snapPosition position snapGrid else position.

Definition rendererPointToPoint (p : XYPosition) (t : Transform) : XYPosition :=
  let '(tx, ty, tScale) := t in
  {| x := x p * tScale + tx; y := y p * tScale + ty |}.

Definition getViewportForBounds (bounds : Rect)
    (width height minZoom maxZoom padding : R) : Viewport :=
  let xZoom := width / (rect_width bounds * (1 + padding)) in
  let yZoom := height / (rect_height bounds * (1 + padding)) in
  let zoom := Rmin xZoom yZoom in
  let clampedZoom := clamp zoom minZoom maxZoom in
  let boundsCenterX := rect_x bounds + rect_width bounds / 2 in
  let boundsCenterY := rect_y bounds + rect_height bounds / 2 in
  let vx := width / 2 - boundsCenterX * clampedZoom in
  let vy := height / 2 - boundsCenterY * clampedZoom in
  {| vp_x := vx; vp_y := vy; vp_zoom := clampedZoom |}.

(* ================================================================= *)
(** * Nodes *)

(** [node.extent]: ['parent'] or a coordinate extent. *)
Inductive NodeExtent : Type :=
| ExtentParent : NodeExtent
| ExtentCoordinate : CoordinateExtent -> NodeExtent.

(** [measured: { width?, height? }] *)
Record Measured : Type := mkMeasured
  { m_width : option R; m_height : option R }.

(** The node as the user supplies it.  Optional flags of which the source only
    tests the truthiness are booleans; [draggable] is tested against
    [undefined] and keeps its three values. *)
Record NodeBase : Type := mkNodeBase
  { id : string;
    position : XYPosition;
    parentId : option string;
    extent : option NodeExtent;
    expandParent : bool;
    origin : option NodeOrigin;
    width : option R;
    height : option R;
    initialWidth : option R;
    initialHeight : option R;
    user_measured : option Measured;
    selected : bool;
    draggable : option bool;
    hidden : bool;
    zIndex : option R }.

(** [internals: { positionAbsolute, z, userNode, ... }].  The source compares
    [userNode] by reference only; the model keeps the identity of the user's
    object, a number. *)
Record Internals : Type := mkInternals
  { positionAbsolute : XYPosition;
    z : option R;
    userNode : nat }.

(** The node of the lookup: [{ ...userNode, measured, internals }]. *)
Record InternalNode : Type := mkInternalNode
  { base : NodeBase;
    measured : Measured;
    internals : Internals }.

Definition NodeLookup : Type := JSMap InternalNode.

(** [x.width ?? y.width ?? z ?? 0] of [getNodeDimensions], [nodeToRect] and
    [nodeToBox], for a user node ([measured] optional). *)
Definition user_width (n : NodeBase) : R :=
  nullish
    (nullish_opt
       (nullish_opt
          (match user_measured n with Some m => m_width m | None => None end)
          (width n))
       (initialWidth n))
    0.

Definition user_height (n : NodeBase) : R :=
  nullish
    (nullish_opt
       (nullish_opt
          (match user_measured n with Some m => m_height m | None => None end)
          (height n))
       (initialHeight n))
    0.

(** The same for a node of the lookup. *)
Definition internal_width (n : InternalNode) : R :=
  nullish
    (nullish_opt (nullish_opt (m_width (measured n)) (width (base n)))
       (initialWidth (base n)))
    0.

Definition internal_height (n : InternalNode) : R :=
  nullish
    (nullish_opt (nullish_opt (m_height (measured n)) (height (base n)))
       (initialHeight (base n)))
    0.

(** [getNodePositionWithOrigin(node, nodeOrigin = [0, 0])] on a user node *)
Definition getNodePositionWithOrigin (node : NodeBase) (nodeOrigin : NodeOrigin)
  : XYPosition :=
  let o := nullish (origin node) nodeOrigin in
  let offsetX := user_width node * fst o in
  let offsetY := user_height node * snd o in
  {| x := x (position node) - offsetX; y := y (position node) - offsetY |}.

(** [getNodePositionWithOrigin] on a node of the lookup, whose [measured] is
    the one of the internal node. *)
Definition getInternalNodePositionWithOrigin (node : InternalNode)
    (nodeOrigin : NodeOrigin) : XYPosition :=
  let o := nullish (origin (base node)) nodeOrigin in
  let offsetX := internal_width node * fst o in
  let offsetY := internal_height node * snd o in
  {| x := x (position (base node)) - offsetX;
     y := y (position (base node)) - offsetY |}.

Definition isCoordinateExtent (e : option NodeExtent) : bool :=
  match e with
  | Some (ExtentCoordinate _) => true
  | _ => false
  end.

(** [clampNodeExtent(node, extent)] *)
Definition clampNodeExtent (node : InternalNode) (e : option NodeExtent)
  : option NodeExtent :=
  match e with
  | None => None
  | Some ExtentParent => Some ExtentParent
  | Some (ExtentCoordinate c) =>
      Some (ExtentCoordinate
              (fst c,
               (fst (snd c) - nullish (m_width (measured node)) 0,
                snd (snd c) - nullish (m_height (measured node)) 0)))
  end.

(** A position whose coordinates may be [NaN]. *)
Record NumPosition : Type := mkNumXY { nx : num; ny : num }.

Record NodePositionResult : Type := mkNodePositionResult
  { res_position : NumPosition;
    res_positionAbsolute : XYPosition }.

(** [a + w * o] where [w] may be absent, which makes the result [NaN] *)
Definition plus_scaled (a : R) (w : option R) (o : R) : num :=
  match w with
  | Some v => Some (a + v * o)
  | None => None
  end.

(** [calculateNodePosition({ nodeId, nextPosition, nodeLookup, nodeOrigin,
    nodeExtent, onError })].

    The result is [None] where the source throws (no node of that id in the
    lookup).  The calls of [onError] are returned as the list of their error
    codes. *)
Definition calculateNodePosition (nodeId : string) (nextPosition : XYPosition)
    (nodeLookup : NodeLookup) (nodeOrigin : NodeOrigin)
    (nodeExtent : option CoordinateExtent)
  : option (NodePositionResult * list string) :=
  match map_get nodeLookup nodeId with
  | None => None
  | Some node =>
      let parentNode :=
        if truthy_str (parentId (base node))
        then map_get nodeLookup (nullish (parentId (base node)) EmptyString)
        else None in
      let parentXY :=
        match parentNode with
        | Some p => positionAbsolute (internals p)
        | None => {| x := 0; y := 0 |}
        end in
      let parentX := x parentXY in
      let parentY := y parentXY in
      let o := nullish (origin (base node)) nodeOrigin in
      let currentExtent :=
        clampNodeExtent node
          (nullish_opt (extent (base node))
             (option_map ExtentCoordinate nodeExtent)) in
      let '(currentExtent, errors) :=
        match extent (base node), expandParent (base node) with
        | Some ExtentParent, false =>
            match parentNode with
            | None => (currentExtent, ["005"%string])
            | Some p =>
                let nodeWidth := m_width (measured node) in
                let nodeHeight := m_height (measured node) in
                let parentWidth := m_width (measured p) in
                let parentHeight := m_height (measured p) in
                if truthy_num nodeWidth && truthy_num nodeHeight
                   && truthy_num parentWidth && truthy_num parentHeight
                then
                  (Some (ExtentCoordinate
                           ((parentX, parentY),
                            (parentX + nullish parentWidth 0 - nullish nodeWidth 0,
                             parentY + nullish parentHeight 0
                             - nullish nodeHeight 0))),
                   [])
                else (currentExtent, [])
            end
        | ext, _ =>
            match parentNode, ext with
            | Some _, Some (ExtentCoordinate c) =>
                (Some (ExtentCoordinate
                         ((fst (fst c) + parentX, snd (fst c) + parentY),
                          (fst (snd c) + parentX, snd (snd c) + parentY))),
                 [])
            | _, _ => (currentExtent, [])
            end
        end in
      let posAbs :=
        match currentExtent with
        | Some (ExtentCoordinate c) => clampPosition nextPosition c
        | _ => nextPosition
        end in
      Some
        ({| res_position :=
              {| nx := plus_scaled (x posAbs - parentX)
                         (m_width (measured node)) (fst o);
                 ny := plus_scaled (y posAbs - parentY)
                         (m_height (measured node)) (snd o) |};
            res_positionAbsolute := posAbs |},
         errors)
  end.

(* ================================================================= *)
(** * Bounds of a set of nodes *)

(** A drag item, built by [getDragItems] at the start of a drag.  Its
    [measured] sizes are numbers ([measured.width ?? 0]); its [position] is
    overwritten with the [position] result of [calculateNodePosition] on
    every move, which may be [NaN]. *)
Record NodeDragItem : Type := mkNodeDragItem
  { di_id : string;
    di_position : NumPosition;
    di_distance : XYPosition;
    di_extent : option NodeExtent;
    di_parentId : option string;
    di_origin : option NodeOrigin;
    di_expandParent : bool;
    di_positionAbsolute : XYPosition;
    di_width : R;
    di_height : R }.

(** [nodeToBox] is applied to nodes of the lookup and to drag items, which
    both carry [internals.positionAbsolute]. *)
Class Boxed (N : Type) : Type := { nodeToBox : N -> Box }.

#[export] Instance Boxed_InternalNode : Boxed InternalNode :=
  {| nodeToBox := fun node =>
       let p := positionAbsolute (internals node) in
       {| box_x := x p;
          box_y := y p;
          box_x2 := x p + internal_width node;
          box_y2 := y p + internal_height node |} |}.

#[export] Instance Boxed_NodeDragItem : Boxed NodeDragItem :=
  {| nodeToBox := fun item =>
       let p := di_positionAbsolute item in
       {| box_x := x p;
          box_y := y p;
          box_x2 := x p + di_width item;
          box_y2 := y p + di_height item |} |}.

(** [getInternalNodesBounds(nodeLookup)], as its callers here use it: without
    a filter.  The source folds [getBoundsOfBoxes] from the box
    [{x: Infinity, y: Infinity, x2: -Infinity, y2: -Infinity}], which the first
    node's box replaces; the fold of the model starts at the first node. *)
Definition getInternalNodesBounds {N : Type} `{Boxed N} (nodeLookup : JSMap N)
  : Rect :=
  match map_values nodeLookup with
  | [] => {| rect_x := 0; rect_y := 0; rect_width := 0; rect_height := 0 |}
  | first :: rest =>
      boxToRect
        (fold_left (fun b node => getBoundsOfBoxes b (nodeToBox node)) rest
           (nodeToBox first))
  end.

(* ================================================================= *)
(** * Node graph store *)

(** [options] of [adoptUserNodes] and [updateChildPosition]; every field is
    optional. *)
Record StoreOptions : Type := mkStoreOptions
  { opt_nodeOrigin : option NodeOrigin;
    opt_elevateNodesOnSelect : option bool;
    opt_checkEquality : option bool }.

(** [options?.elevateNodesOnSelect ? 1000 : 0] *)
Definition selectedNodeZ_of (options : option StoreOptions) : R :=
  match options with
  | Some o =>
      match opt_elevateNodesOnSelect o with
      | Some true => 1000
      | _ => 0
      end
  | None => 0
  end.

(** [{ ...defaultOptions, ...options }.nodeOrigin] *)
Definition nodeOrigin_of (options : option StoreOptions) : NodeOrigin :=
  match options with
  | Some o => nullish (opt_nodeOrigin o) (0, 0)
  | None => (0, 0)
  end.

(** [{ ...adoptUserNodesDefaultOptions, ...options }.checkEquality] *)
Definition checkEquality_of (options : option StoreOptions) : bool :=
  match options with
  | Some o => nullish (opt_checkEquality o) true
  | None => true
  end.

(** [calculateZ(node, selectedNodeZ)]; [isNumeric(node.zIndex)] is that the
    index is present. *)
Definition calculateZ (node : NodeBase) (selectedNodeZ : R) : R :=
  nullish (zIndex node) 0 + (if selected node then selectedNodeZ else 0).

Record XYZ : Type := mkXYZ { xyz_x : R; xyz_y : R; xyz_z : R }.

(** [calculateChildXYZ(childNode, parentNode, nodeOrigin, selectedNodeZ)] *)
Definition calculateChildXYZ (childNode parentNode : InternalNode)
    (nodeOrigin : NodeOrigin) (selectedNodeZ : R) : XYZ :=
  let pos := getInternalNodePositionWithOrigin childNode nodeOrigin in
  let childZ := calculateZ (base childNode) selectedNodeZ in
  let parentZ := nullish (z (internals parentNode)) 0 in
  {| xyz_x := x (positionAbsolute (internals parentNode)) + x pos;
     xyz_y := y (positionAbsolute (internals parentNode)) + y pos;
     xyz_z := if Rltb childZ parentZ then parentZ else childZ |}.

(** The parent index: for each parent id, the ids of its children.  (The
    source maps each child id to the child object itself, the one of the node
    lookup.) *)
Definition ParentLookup : Type := JSMap (list string).

Definition add_child (children : list string) (c : string) : list string :=
  if existsb (String.eqb c) children then children else children ++ [c].

Record Store : Type := mkStore
  { nodeLookup : NodeLookup;
    parentLookup : ParentLookup;
    warnings : list string }.

(** [updateChildPosition(node, nodeLookup, parentLookup, options)], for a
    [node] that is the object stored in [nodeLookup] under its id: the
    assignment to [node.internals] is an update of the lookup. *)
Definition updateChildPosition (node : InternalNode) (s : Store)
    (options : option StoreOptions) : Store :=
  let pid := nullish (parentId (base node)) EmptyString in
  match
    match parentId (base node) with
    | Some k => map_get (nodeLookup s) k
    | None => None
    end
  with
  | None =>
      {| nodeLookup := nodeLookup s;
         parentLookup := parentLookup s;
         warnings := warnings s ++ [pid] |}
  | Some parentNode =>
      let childNodes := map_get (parentLookup s) pid in
      let parentLookup' :=
        match childNodes with
        | Some cs => map_set (parentLookup s) pid (add_child cs (id (base node)))
        | None => map_set (parentLookup s) pid [id (base node)]
        end in
      let selectedNodeZ := selectedNodeZ_of options in
      let xyz :=
        calculateChildXYZ node parentNode (nodeOrigin_of options) selectedNodeZ in
      let currPosition := positionAbsolute (internals node) in
      let positionChanged :=
        negb (Reqb (xyz_x xyz) (x currPosition))
        || negb (Reqb (xyz_y xyz) (y currPosition)) in
      let node' :=
        if positionChanged || num_neq (Some (xyz_z xyz)) (z (internals node))
        then
          {| base := base node;
             measured := measured node;
             internals :=
               {| positionAbsolute :=
                    if positionChanged
                    then {| x := xyz_x xyz; y := xyz_y xyz |}
                    else currPosition;
                  z := Some (xyz_z xyz);
                  userNode := userNode (internals node) |} |}
        else node in
      {| nodeLookup := map_set (nodeLookup s) (id (base node)) node';
         parentLookup := parentLookup';
         warnings := warnings s |}
  end.

(** The internal node [adoptUserNodes] builds for a user node that it does
    not take over from the previous lookup.  ([options.defaults] is empty.) *)
Definition freshInternalNode (ref : nat) (usr : NodeBase)
    (options : option StoreOptions) : InternalNode :=
  {| base := usr;
     measured :=
       {| m_width :=
            match user_measured usr with Some m => m_width m | None => None end;
          m_height :=
            match user_measured usr with Some m => m_height m | None => None end |};
     internals :=
       {| positionAbsolute :=
            getNodePositionWithOrigin usr (nodeOrigin_of options);
          z := Some (calculateZ usr (selectedNodeZ_of options));
          userNode := ref |} |}.

(** One turn of the loop of [adoptUserNodes]; the user node comes with the
    identity of its object. *)
Definition adoptUserNode (tmpLookup : NodeLookup) (options : option StoreOptions)
    (s : Store) (u : nat * NodeBase) : Store :=
  let '(ref, usr) := u in
  let internalNode :=
    match map_get tmpLookup (id usr) with
    | Some old =>
        if checkEquality_of options && Nat.eqb ref (userNode (internals old))
        then old
        else freshInternalNode ref usr options
    | None => freshInternalNode ref usr options
    end in
  let s1 :=
    {| nodeLookup := map_set (nodeLookup s) (id usr) internalNode;
       parentLookup := parentLookup s;
       warnings := warnings s |} in
  if truthy_str (parentId usr)
  then updateChildPosition internalNode s1 options
  else s1.

(** [adoptUserNodes(nodes, nodeLookup, parentLookup, options)] *)
Definition adoptUserNodes (nodes : list (nat * NodeBase)) (s : Store)
    (options : option StoreOptions) : Store :=
  fold_left (adoptUserNode (nodeLookup s) options) nodes
    {| nodeLookup := []; parentLookup := []; warnings := warnings s |}.

(* ================================================================= *)
(** * Edges *)

(** A handle id of an edge or connection: absent, [null] or a string. *)
Inductive HandleRef : Type :=
| HUndefined : HandleRef
| HNull : HandleRef
| HString : string -> HandleRef.

(** An edge, or a connection when it has no [id]. *)
Record Edge : Type := mkEdge
  { edge_id : option string;
    source : string;
    target : string;
    sourceHandle : HandleRef;
    targetHandle : HandleRef }.

Definition HandleRef_strict_eq (a b : HandleRef) : bool :=
  match a, b with
  | HUndefined, HUndefined => true
  | HNull, HNull => true
  | HString s, HString t => String.eqb s t
  | _, _ => false
  end.

Definition HandleRef_falsy (a : HandleRef) : bool :=
  match a with
  | HUndefined => true
  | HNull => true
  | HString s => String.eqb s EmptyString
  end.

(** [h || ''] *)
Definition HandleRef_or_empty (a : HandleRef) : string :=
  match a with
  | HString s => s
  | _ => EmptyString
  end.

Definition getEdgeId (e : Edge) : string :=
  ("xy-edge__" ++ source e ++ HandleRef_or_empty (sourceHandle e) ++ "-"
   ++ target e ++ HandleRef_or_empty (targetHandle e))%string.

(** The test [connectionExists] applies to each element *)
Definition sameConnection (edge el : Edge) : bool :=
  String.eqb (source el) (source edge)
  && String.eqb (target el) (target edge)
  && (HandleRef_strict_eq (sourceHandle el) (sourceHandle edge)
      || (HandleRef_falsy (sourceHandle el) && HandleRef_falsy (sourceHandle edge)))
  && (HandleRef_strict_eq (targetHandle el) (targetHandle edge)
      || (HandleRef_falsy (targetHandle el) && HandleRef_falsy (targetHandle edge))).

Definition connectionExists (edge : Edge) (edges : list Edge) : bool :=
  existsb (sameConnection edge) edges.

(** [if (h === null) delete h] *)
Definition deleteNull (a : HandleRef) : HandleRef :=
  match a with
  | HNull => HUndefined
  | other => other
  end.

(** [isEdgeBase]: the keys [id], [source] and [target] are present; the
    latter two always are in the model. *)
Definition isEdgeBase (e : Edge) : bool :=
  match edge_id e with
  | Some _ => true
  | None => false
  end.

(** [addEdge(edgeParams, edges)] *)
Definition addEdge (edgeParams : Edge) (edges : list Edge) : list Edge :=
  if String.eqb (source edgeParams) EmptyString
     || String.eqb (target edgeParams) EmptyString
  then edges
  else
    let edge :=
      if isEdgeBase edgeParams then edgeParams
      else
        {| edge_id := Some (getEdgeId edgeParams);
           source := source edgeParams;
           target := target edgeParams;
           sourceHandle := sourceHandle edgeParams;
           targetHandle := targetHandle edgeParams |} in
    if connectionExists edge edges then edges
    else
      edges
        ++ [ {| edge_id := edge_id edge;
                source := source edge;
                target := target edge;
                sourceHandle := deleteNull (sourceHandle edge);
                targetHandle := deleteNull (targetHandle edge) |} ].

(* ================================================================= *)
(** * Drag: [updateNodes] of [XYDrag] *)

(** What [updateNodes] reads from [getStoreItems()]. *)
Record DragStoreItems : Type := mkDragStoreItems
  { ds_nodeLookup : NodeLookup;
    ds_nodeExtent : CoordinateExtent;
    ds_snapGrid : R * R;
    ds_snapToGrid : bool;
    ds_nodeOrigin : NodeOrigin }.

(** The box of the dragged nodes: [{0, 0, 0, 0}] unless several nodes are
    dragged.  ([nodeExtent] is an array and so always truthy.) *)
Definition dragNodesBox (dragItems : JSMap NodeDragItem) : Box :=
  if Nat.ltb 1 (map_size dragItems)
  then rectToBox (getInternalNodesBounds dragItems)
  else {| box_x := 0; box_y := 0; box_x2 := 0; box_y2 := 0 |}.

(** [adjustedNodeExtent] of one turn of the loop *)
Definition adjustedNodeExtent (nodeExtent : CoordinateExtent)
    (dragItems : JSMap NodeDragItem) (nodesBox : Box) (dragItem : NodeDragItem)
  : CoordinateExtent :=
  match di_extent dragItem with
  | None =>
      if Nat.ltb 1 (map_size dragItems) then
        let pa := di_positionAbsolute dragItem in
        let x1 := x pa - box_x nodesBox + fst (fst nodeExtent) in
        let x2 := x pa + di_width dragItem - box_x2 nodesBox + fst (snd nodeExtent) in
        let y1 := y pa - box_y nodesBox + snd (fst nodeExtent) in
        let y2 := y pa + di_height dragItem - box_y2 nodesBox + snd (snd nodeExtent) in
        ((x1, y1), (x2, y2))
      else nodeExtent
  | Some _ => nodeExtent
  end.

(** [nextPosition] of one turn of the loop *)
Definition dragNextPosition (st : DragStoreItems) (p : XYPosition)
    (dragItem : NodeDragItem) : XYPosition :=
  let nextPosition :=
    {| x := x p - x (di_distance dragItem); y := y p - y (di_distance dragItem) |} in
  if ds_snapToGrid st then snapPosition nextPosition (ds_snapGrid st)
  else nextPosition.

(** The state the loop of [updateNodes] carries: the drag items updated so
    far, [hasChange] and the reported errors. *)
Record DragLoop : Type := mkDragLoop
  { dl_items : JSMap NodeDragItem;
    dl_hasChange : bool;
    dl_errors : list string }.

(** The body of the loop for the entry [[id, dragItem]]: the drag item as the
    turn leaves it, whether its position changed, and the reported errors;
    [None] where [calculateNodePosition] throws. *)
Definition updateNodes_item (st : DragStoreItems) (p : XYPosition)
    (dragItems : JSMap NodeDragItem) (nodesBox : Box)
    (entry : string * NodeDragItem)
  : option (NodeDragItem * bool * list string) :=
  let '(key, dragItem) := entry in
  let nextPosition := dragNextPosition st p dragItem in
  let adjusted := adjustedNodeExtent (ds_nodeExtent st) dragItems nodesBox dragItem in
  match
    calculateNodePosition key nextPosition (ds_nodeLookup st)
      (ds_nodeOrigin st) (Some adjusted)
  with
  | None => None
  | Some (r, errs) =>
      let changed :=
        num_neq (nx (di_position dragItem)) (nx (res_position r))
        || num_neq (ny (di_position dragItem)) (ny (res_position r)) in
      Some
        ({| di_id := di_id dragItem;
            di_position := res_position r;
            di_distance := di_distance dragItem;
            di_extent := di_extent dragItem;
            di_parentId := di_parentId dragItem;
            di_origin := di_origin dragItem;
            di_expandParent := di_expandParent dragItem;
            di_positionAbsolute := res_positionAbsolute r;
            di_width := di_width dragItem;
            di_height := di_height dragItem |},
         changed, errs)
  end.

(** One turn of the loop. *)
Definition updateNodes_step (st : DragStoreItems) (p : XYPosition)
    (dragItems : JSMap NodeDragItem) (nodesBox : Box)
    (acc : option DragLoop) (entry : string * NodeDragItem) : option DragLoop :=
  match acc with
  | None => None
  | Some l =>
      match updateNodes_item st p dragItems nodesBox entry with
      | None => None
      | Some (dragItem', changed, errs) =>
          Some {| dl_items := dl_items l ++ [(fst entry, dragItem')];
                  dl_hasChange := dl_hasChange l || changed;
                  dl_errors := dl_errors l ++ errs |}
      end
  end.

Record UpdateNodesResult : Type := mkUpdateNodesResult
  { un_dragItems : JSMap NodeDragItem;
    un_errors : list string;
    (** the argument of the call [updateNodePositions(dragItems, true)], if
        it is made *)
    un_updateNodePositions : option (JSMap NodeDragItem) }.

(** [updateNodes({ x, y }, dragEvent)] on the drag items of the gesture: the
    drag items after the call, and its effects on the store.  (The event
    handlers [onDrag], [onNodeDrag] and [onSelectionDrag], which the source
    calls after [updateNodePositions], are not part of the model.) *)
Definition updateNodes (st : DragStoreItems) (p : XYPosition)
    (dragItems : JSMap NodeDragItem) : option UpdateNodesResult :=
  let nodesBox := dragNodesBox dragItems in
  match
    fold_left (updateNodes_step st p dragItems nodesBox) dragItems
      (Some {| dl_items := []; dl_hasChange := false; dl_errors := [] |})
  with
  | None => None
  | Some l =>
      Some {| un_dragItems := dl_items l;
              un_errors := dl_errors l;
              un_updateNodePositions :=
                if dl_hasChange l then Some (dl_items l) else None |}
  end.

(* ================================================================= *)
(** * Connection handles *)

Inductive HandleType : Type := source_type | target_type.

Definition HandleType_eqb (a b : HandleType) : bool :=
  match a, b with
  | source_type, source_type => true
  | target_type, target_type => true
  | _, _ => false
  end.

Definition HandleType_to_string (t : HandleType) : string :=
  match t with
  | source_type => "source"
  | target_type => "target"
  end.

(** A handle of the handle lookup, with its absolute position. *)
Record Handle : Type := mkHandle
  { h_id : option string;
    h_type : HandleType;
    h_nodeId : string;
    h_x : R;
    h_y : R;
    h_width : R;
    h_height : R }.

(** The state of the loop of [getClosestHandle]: [closestHandles] and
    [minDistance], which starts as [Infinity] ([None]). *)
Definition ClosestLoop : Type := (list Handle * option R)%type.

Definition handleDistance (pos : XYPosition) (handle : Handle) : R :=
  sqrt ((h_x handle - x pos) ^ 2 + (h_y handle - y pos) ^ 2).

Definition getClosestHandle_step (pos : XYPosition) (connectionRadius : R)
    (st : ClosestLoop) (handle : Handle) : ClosestLoop :=
  let '(closestHandles, minDistance) := st in
  let distance := handleDistance pos handle in
  if Rleb distance connectionRadius then
    let closestHandles' :=
      match minDistance with
      | None => [handle]
      | Some m =>
          if Rltb distance m then [handle]
          else if Reqb distance m then closestHandles ++ [handle]
          else closestHandles
      end in
    (closestHandles', Some distance)
  else st.

(** [getClosestHandle(pos, connectionRadius, handleLookup)]; [None] is
    [null]. *)
Definition getClosestHandle (pos : XYPosition) (connectionRadius : R)
    (handleLookup : JSMap Handle) : option Handle :=
  let closestHandles :=
    fst (fold_left (getClosestHandle_step pos connectionRadius)
           (map_values handleLookup) ([], None)) in
  match closestHandles with
  | [] => None
  | [h] => Some h
  | h :: _ =>
      match find (fun c => HandleType_eqb (h_type c) target_type) closestHandles with
      | Some t => Some t
      | None => Some h
      end
  end.

(** [getHandleType(edgeUpdaterType, handleDomNode)] and [isValidHandle] look
    at the DOM: an element is its class list and its [data-nodeid] and
    [data-handleid] attributes; the document answers [elementFromPoint] and
    [querySelector]. *)
Record Element : Type := mkElement
  { classList : list string;
    data_nodeid : option string;
    data_handleid : option string }.

Record Document : Type := mkDocument
  { elementFromPoint : R -> R -> option Element;
    querySelector : string -> option Element }.

Definition classList_contains (e : Element) (c : string) : bool :=
  existsb (String.eqb c) (classList e).

Definition getHandleType (edgeUpdaterType : option HandleType)
    (handleDomNode : option Element) : option HandleType :=
  match edgeUpdaterType with
  | Some t => Some t
  | None =>
      match handleDomNode with
      | Some e =>
          if classList_contains e "target" then Some target_type
          else if classList_contains e "source" then Some source_type
          else None
      | None => None
      end
  end.

Inductive ConnectionMode : Type := Strict | Loose.

(** A connection; a handle id is a string or [null]. *)
Record Connection : Type := mkConnection
  { c_source : string;
    c_sourceHandle : option string;
    c_target : string;
    c_targetHandle : option string }.

Definition opt_string_eqb (a b : option string) : bool :=
  match a, b with
  | Some s, Some t => String.eqb s t
  | None, None => true
  | _, _ => false
  end.

(** A value in a template string; [null] prints as [null]. *)
Definition opt_to_string (a : option string) : string :=
  match a with
  | Some s => s
  | None => "null"
  end.

Definition dquote : string := String (Ascii.ascii_of_nat 34) EmptyString.

(** The selector [isValidHandle] queries for the closest handle. *)
Definition handleSelector (lib flowId : string) (handle : Handle) : string :=
  ("." ++ lib ++ "-flow__handle[data-id=" ++ dquote ++ flowId ++ "-"
   ++ h_nodeId handle ++ "-" ++ opt_to_string (h_id handle) ++ "-"
   ++ HandleType_to_string (h_type handle) ++ dquote ++ "]")%string.

Record ValidHandleParams : Type := mkValidHandleParams
  { vh_handle : option Handle;
    vh_connectionMode : ConnectionMode;
    vh_fromNodeId : string;
    vh_fromHandleId : option string;
    vh_fromType : HandleType;
    vh_doc : Document;
    vh_lib : string;
    vh_flowId : string;
    vh_isValidConnection : Connection -> bool;
    vh_handleLookup : option (JSMap Handle) }.

Record ValidHandleResult : Type := mkValidHandleResult
  { r_handleDomNode : option Element;
    r_isValid : bool;
    r_connection : option Connection;
    r_toHandle : option Handle }.

(** [isValidHandle(event, { handle, connectionMode, ... })]; the event is the
    position [getEventPosition] reads from it. *)
Definition isValidHandle (event : XYPosition) (p : ValidHandleParams)
  : ValidHandleResult :=
  let isTarget := HandleType_eqb (vh_fromType p) target_type in
  let handleDomNode :=
    match vh_handle p with
    | Some h => querySelector (vh_doc p) (handleSelector (vh_lib p) (vh_flowId p) h)
    | None => None
    end in
  let handleBelow := elementFromPoint (vh_doc p) (x event) (y event) in
  let handleToCheck :=
    match handleBelow with
    | Some e =>
        if classList_contains e (vh_lib p ++ "-flow__handle")%string
        then handleBelow
        else handleDomNode
    | None => handleDomNode
    end in
  let result :=
    {| r_handleDomNode := handleToCheck;
       r_isValid := false;
       r_connection := None;
       r_toHandle := None |} in
  match handleToCheck with
  | None => result
  | Some e =>
      let handleType := getHandleType None handleToCheck in
      let handleNodeId := data_nodeid e in
      let handleId := data_handleid e in
      let connectable := classList_contains e "connectable" in
      let connectableEnd := classList_contains e "connectableend" in
      if negb (truthy_str handleNodeId) then result
      else
        let nodeId := nullish handleNodeId EmptyString in
        let connection :=
          {| c_source := if isTarget then nodeId else vh_fromNodeId p;
             c_sourceHandle := if isTarget then handleId else vh_fromHandleId p;
             c_target := if isTarget then vh_fromNodeId p else nodeId;
             c_targetHandle := if isTarget then vh_fromHandleId p else handleId |} in
        let isConnectable := connectable && connectableEnd in
        let isValid :=
          isConnectable
          && match vh_connectionMode p with
             | Strict =>
                 match handleType with
                 | Some source_type => isTarget
                 | Some target_type => negb isTarget
                 | None => false
                 end
             | Loose =>
                 negb (String.eqb nodeId (vh_fromNodeId p))
                 || negb (opt_string_eqb handleId (vh_fromHandleId p))
             end in
        let toHandle :=
          match vh_handleLookup p with
          | Some l =>
              map_get l
                (nodeId ++ "-"
                 ++ opt_to_string (option_map HandleType_to_string handleType)
                 ++ "-" ++ opt_to_string handleId)%string
          | None => None
          end in
        {| r_handleDomNode := handleToCheck;
           r_isValid := isValid && vh_isValidConnection p connection;
           r_connection := Some connection;
           r_toHandle := toHandle |}
  end.

(* ================================================================= *)
(** * [fitView] *)

Record FitViewParams : Type := mkFitViewParams
  { fv_nodes : NodeLookup;
    fv_width : R;
    fv_height : R;
    fv_minZoom : R;
    fv_maxZoom : R }.

Record FitViewOptions : Type := mkFitViewOptions
  { fo_minZoom : option R;
    fo_maxZoom : option R;
    fo_padding : option R;
    fo_duration : option R }.

(** A call [panZoom.setViewport(viewport, { duration })] *)
Definition SetViewportCall : Type := (Viewport * option R)%type.

(** [fitView(params, options)]: the value its promise resolves to and the
    calls it makes on [panZoom], in order. *)
Definition fitView (params : FitViewParams) (options : option FitViewOptions)
  : bool * list SetViewportCall :=
  if Nat.eqb (map_size (fv_nodes params)) 0 then (false, [])
  else
    let bounds := getInternalNodesBounds (fv_nodes params) in
    let opt {A : Type} (f : FitViewOptions -> option A) : option A :=
      match options with
      | Some o => f o
      | None => None
      end in
    let viewport :=
      getViewportForBounds bounds (fv_width params) (fv_height params)
        (nullish (opt fo_minZoom) (fv_minZoom params))
        (nullish (opt fo_maxZoom) (fv_maxZoom params))
        (nullish (opt fo_padding) (1 / 10)) in
    (true, [(viewport, opt fo_duration)]).

(* ================================================================= *)
(** * Notions and examples of the statements *)

(** The centre of a rectangle. *)
Definition rectCenter (r : Rect) : XYPosition :=
  {| x := rect_x r + rect_width r / 2; y := rect_y r + rect_height r / 2 |}.

Definition viewportTransform (v : Viewport) : Transform :=
  (vp_x v, vp_y v, vp_zoom v).

(** Bounds of 200 by 100 at (10, 20). *)
Definition example_bounds : Rect :=
  {| rect_x := 10; rect_y := 20; rect_width := 200; rect_height := 100 |}.

(** The number of edges of a list whose connection is that of [c], in the
    sense of [connectionExists]. *)
Definition countConnection (c : Edge) (edges : list Edge) : nat :=
  List.length (filter (sameConnection c) edges).

(** The edge [addEdge] tests and appends for [edgeParams]. *)
Definition edgeOfParams (edgeParams : Edge) : Edge :=
  if isEdgeBase edgeParams then edgeParams
  else
    {| edge_id := Some (getEdgeId edgeParams);
       source := source edgeParams;
       target := target edgeParams;
       sourceHandle := sourceHandle edgeParams;
       targetHandle := targetHandle edgeParams |}.

Definition withoutNullHandles (edge : Edge) : Edge :=
  {| edge_id := edge_id edge;
     source := source edge;
     target := target edge;
     sourceHandle := deleteNull (sourceHandle edge);
     targetHandle := deleteNull (targetHandle edge) |}.

(** Two edges of the same connection from [a] to [b]. *)
Definition edge_e1 : Edge :=
  {| edge_id := Some "e1"%string; source := "a"; target := "b";
     sourceHandle := HUndefined; targetHandle := HUndefined |}.

Definition edge_e2 : Edge :=
  {| edge_id := Some "e2"%string; source := "a"; target := "b";
     sourceHandle := HUndefined; targetHandle := HUndefined |}.

(** A connection from [a] to [b] with [null] handles. *)
Definition edge_a_b : Edge :=
  {| edge_id := None;
     source := "a";
     target := "b";
     sourceHandle := HNull;
     targetHandle := HNull |}.

(** The absolute position [pa] of [node] lies in the interior rectangle of
    [parent]: between the parent's absolute top-left corner and its
    bottom-right corner less the node's own size (sizes as measured, an
    absent one counting as 0). *)
Definition withinParentInterior (pa : XYPosition) (node parent : InternalNode)
  : Prop :=
  let pp := positionAbsolute (internals parent) in
  x pp <= x pa
       <= x pp + nullish (m_width (measured parent)) 0
          - nullish (m_width (measured node)) 0
  /\ y pp <= y pa
          <= y pp + nullish (m_height (measured parent)) 0
             - nullish (m_height (measured node)) 0.

(** A node of a lookup, for the examples: its id, declared position, parent,
    extent, measured size and absolute position. *)
Definition exampleNode (i : string) (pos : XYPosition) (parent : option string)
    (e : option NodeExtent) (m : Measured) (abs : XYPosition) : InternalNode :=
  {| base :=
       {| id := i; position := pos; parentId := parent; extent := e;
          expandParent := false; origin := None;
          width := None; height := None;
          initialWidth := None; initialHeight := None;
          user_measured := Some m;
          selected := false; draggable := None; hidden := false;
          zIndex := None |};
     measured := m;
     internals := {| positionAbsolute := abs; z := Some 0; userNode := 0%nat |} |}.

Definition origin_xy : XYPosition := {| x := 0; y := 0 |}.

Definition size_100 : Measured := {| m_width := Some 100; m_height := Some 100 |}.

(** A parent of 100 by 100 at the origin. *)
Definition parent_100 : InternalNode :=
  exampleNode "p" origin_xy None None size_100 origin_xy.

(** Children of [parent_100] with a parent extent: one that fits, one that
    has not been measured yet, and one wider than the parent. *)
Definition child_fitting : InternalNode :=
  exampleNode "c" {| x := 10; y := 10 |} (Some "p"%string) (Some ExtentParent)
    {| m_width := Some 20; m_height := Some 30 |} {| x := 10; y := 10 |}.

Definition child_unmeasured : InternalNode :=
  exampleNode "c" {| x := 10; y := 10 |} (Some "p"%string) (Some ExtentParent)
    {| m_width := None; m_height := None |} {| x := 10; y := 10 |}.

Definition child_wide : InternalNode :=
  exampleNode "c" {| x := 0; y := 10 |} (Some "p"%string) (Some ExtentParent)
    {| m_width := Some 200; m_height := Some 50 |} {| x := 0; y := 10 |}.

Definition lookup_of (child : InternalNode) : NodeLookup :=
  [("p"%string, parent_100); ("c"%string, child)].

(** A node's own z: its declared index, or 0, and the boost if selected. *)
Definition ownZ (options : option StoreOptions) (n : NodeBase) : R :=
  calculateZ n (selectedNodeZ_of options).

(** [adoptUserNodes] takes the internal node of [u] over from the previous
    lookup [tmpLookup] instead of building it. *)
Definition takenOver (tmpLookup : NodeLookup) (options : option StoreOptions)
    (u : nat * NodeBase) : bool :=
  match map_get tmpLookup (id (snd u)) with
  | Some old => checkEquality_of options && Nat.eqb (fst u) (userNode (internals old))
  | None => false
  end.

Definition node_ids (nodes : list (nat * NodeBase)) : list string :=
  List.map (fun u => id (snd u)) nodes.

(** The resolved z of the node [k] of a store. *)
Definition resolvedZ (s : Store) (k : string) : option R :=
  match map_get (nodeLookup s) k with
  | Some n => z (internals n)
  | None => None
  end.

(** A user node for the examples. *)
Definition exampleUserNode (i : string) (parent : option string)
    (zi : option R) (sel : bool) : NodeBase :=
  {| id := i; position := origin_xy; parentId := parent; extent := None;
     expandParent := false; origin := None;
     width := None; height := None;
     initialWidth := None; initialHeight := None;
     user_measured := None;
     selected := sel; draggable := None; hidden := false;
     zIndex := zi |}.

Definition emptyStore : Store :=
  {| nodeLookup := []; parentLookup := []; warnings := [] |}.

Definition elevateOnSelect : option StoreOptions :=
  Some {| opt_nodeOrigin := None;
          opt_elevateNodesOnSelect := Some true;
          opt_checkEquality := None |}.

(** A parent with z index 5 and two children: one selected, without an
    index, and one not selected, with index 2000. *)
Definition z_parent : NodeBase := exampleUserNode "p" None (Some 5) false.
Definition z_selected : NodeBase := exampleUserNode "c" (Some "p"%string) None true.
Definition z_sibling : NodeBase :=
  exampleUserNode "u" (Some "p"%string) (Some 2000) false.

Definition z_nodes : list (nat * NodeBase) :=
  [(0%nat, z_parent); (1%nat, z_selected); (2%nat, z_sibling)].

(** The structural rule of [isValidHandle] for a gesture from
    [fromNodeId]/[fromHandleId] of type [fromType] that ends on the handle
    element [e]. *)
Definition structuralRule (mode : ConnectionMode) (fromType : HandleType)
    (fromNodeId : string) (fromHandleId : option string) (e : Element) : Prop :=
  match mode with
  | Strict =>
      (fromType = source_type /\ getHandleType None (Some e) = Some target_type)
      \/ (fromType = target_type /\ getHandleType None (Some e) = Some source_type)
  | Loose =>
      data_nodeid e <> Some fromNodeId \/ data_handleid e <> fromHandleId
  end.

(** The connection [isValidHandle] proposes for the handle element [e] of the
    node [nodeId]. *)
Definition proposedConnection (fromType : HandleType) (fromNodeId : string)
    (fromHandleId : option string) (nodeId : string) (e : Element) : Connection :=
  match fromType with
  | target_type =>
      {| c_source := nodeId; c_sourceHandle := data_handleid e;
         c_target := fromNodeId; c_targetHandle := fromHandleId |}
  | source_type =>
      {| c_source := fromNodeId; c_sourceHandle := fromHandleId;
         c_target := nodeId; c_targetHandle := data_handleid e |}
  end.

(** A handle element of the node [nodeId] without a handle id. *)
Definition handleElement (nodeId : string) (classes : list string) : Element :=
  {| classList := "react-flow__handle"%string :: classes;
     data_nodeid := Some nodeId;
     data_handleid := None |}.

(** A gesture that started on the source handle without id of node [1], with
    the pointer over the handle element [e], and a user predicate that
    accepts everything. *)
Definition gestureOver (mode : ConnectionMode) (e : Element) : ValidHandleParams :=
  {| vh_handle := None;
     vh_connectionMode := mode;
     vh_fromNodeId := "1";
     vh_fromHandleId := None;
     vh_fromType := source_type;
     vh_doc := {| elementFromPoint := fun _ _ => Some e;
                  querySelector := fun _ => None |};
     vh_lib := "react";
     vh_flowId := "flow";
     vh_isValidConnection := fun _ => true;
     vh_handleLookup := None |}.

Definition target_of_node_1 : Element :=
  handleElement "1"
    ["target"%string; "connectable"%string; "connectableend"%string].

Definition target_of_node_2 : Element :=
  handleElement "2"
    ["target"%string; "connectable"%string; "connectableend"%string].

Definition closed_target_of_node_2 : Element :=
  handleElement "2" ["target"%string; "connectable"%string].

(** A handle of the examples: on the horizontal line through the origin. *)
Definition handleAt (i : string) (t : HandleType) (hx : R) : Handle :=
  {| h_id := Some i; h_type := t; h_nodeId := "n"; h_x := hx; h_y := 0;
     h_width := 0; h_height := 0 |}.

Definition near_handle : Handle := handleAt "a" target_type 1.
Definition far_handle : Handle := handleAt "b" source_type 5.
Definition middle_handle : Handle := handleAt "c" source_type 3.
Definition near_source_handle : Handle := handleAt "d" source_type 1.

(** The handle lookup of a node whose handles are, in this order, 1, 5 and 3
    away from the origin. *)
Definition handles_1_5_3 : JSMap Handle :=
  [("n-target-a"%string, near_handle);
   ("n-source-b"%string, far_handle);
   ("n-source-c"%string, middle_handle)].

(** A target and a source 1 away, with a handle 5 away between them. *)
Definition handles_1_5_1 : JSMap Handle :=
  [("n-target-a"%string, near_handle);
   ("n-source-b"%string, far_handle);
   ("n-source-d"%string, near_source_handle)].

(** The loop keeps a handle once it has one, and has none only while
    [minDistance] is still [Infinity]. *)
Definition closestLoopInv (st : ClosestLoop) : Prop :=
  fst st = [] -> snd st = None.

(** A position within an extent, bounds included. *)
Definition insideExtent (q : XYPosition) (e : CoordinateExtent) : Prop :=
  fst (fst e) <= x q <= fst (snd e) /\ snd (fst e) <= y q <= snd (snd e).

Definition translateBox (b : Box) (dx dy : R) : Box :=
  {| box_x := box_x b + dx; box_y := box_y b + dy;
     box_x2 := box_x2 b + dx; box_y2 := box_y2 b + dy |}.

(** A box within an extent. *)
Definition boxInsideExtent (b : Box) (e : CoordinateExtent) : Prop :=
  (fst (fst e) <= box_x b /\ box_x2 b <= fst (snd e))
  /\ (snd (fst e) <= box_y b /\ box_y2 b <= snd (snd e)).

(** An extent for the top-left corner of a node of the given size: the
    maximum moves in by the size ([clampNodeExtent]). *)
Definition extentForSize (e : CoordinateExtent) (w h : R) : CoordinateExtent :=
  (fst e, (fst (snd e) - w, snd (snd e) - h)).

(** What [updateNodes] does to a member [e] of a drag of several nodes; [e']
    is the member after the call.  A member whose node has an extent of its
    own is placed as [calculateNodePosition] places that node under any global
    extent, or none.  A member that has no extent of its own (nor has its
    node, whose measured size is the one the drag item recorded) is clamped
    to the global extent adjusted for it. *)
Definition groupMemberRule (st : DragStoreItems) (p : XYPosition)
    (dragItems : JSMap NodeDragItem) (e e' : string * NodeDragItem) : Prop :=
  fst e' = fst e
  /\ (forall node : InternalNode,
        map_get (ds_nodeLookup st) (fst e) = Some node ->
        extent (base node) <> None ->
        forall ne : option CoordinateExtent,
        exists r errs,
          calculateNodePosition (fst e) (dragNextPosition st p (snd e))
            (ds_nodeLookup st) (ds_nodeOrigin st) ne = Some (r, errs)
          /\ di_positionAbsolute (snd e') = res_positionAbsolute r)
  /\ forall node : InternalNode,
       di_extent (snd e) = None ->
       map_get (ds_nodeLookup st) (fst e) = Some node ->
       extent (base node) = None ->
       nullish (m_width (measured node)) 0 = di_width (snd e) ->
       nullish (m_height (measured node)) 0 = di_height (snd e) ->
       let box := rectToBox (getInternalNodesBounds dragItems) in
       let next := dragNextPosition st p (snd e) in
       let pa := di_positionAbsolute (snd e) in
       let lim :=
         extentForSize
           (adjustedNodeExtent (ds_nodeExtent st) dragItems box (snd e))
           (di_width (snd e)) (di_height (snd e)) in
       (forall q : XYPosition,
           insideExtent q lim
           <-> boxInsideExtent (translateBox box (x q - x pa) (y q - y pa))
                 (ds_nodeExtent st))
       /\ di_positionAbsolute (snd e') = clampPosition next lim
       /\ (boxInsideExtent (translateBox box (x next - x pa) (y next - y pa))
             (ds_nodeExtent st) ->
           di_positionAbsolute (snd e') = next).

(** A drag of two nodes within the global extent from (0, 0) to (1000, 1000):
    [a], 100 by 100 at (900, 0), has the extent from (900, 0) to (1000, 100)
    of its own, which pins it; [b], 10 by 10 at the origin, has none.  The
    drag started with the pointer at the origin. *)
Definition pinned_extent : CoordinateExtent := ((900, 0), (1000, 100)).

Definition drag_node_a : InternalNode :=
  exampleNode "a" {| x := 900; y := 0 |} None
    (Some (ExtentCoordinate pinned_extent)) size_100 {| x := 900; y := 0 |}.

Definition drag_node_b : InternalNode :=
  exampleNode "b" origin_xy None None
    {| m_width := Some 10; m_height := Some 10 |} origin_xy.

Definition drag_store : DragStoreItems :=
  {| ds_nodeLookup := [("a"%string, drag_node_a); ("b"%string, drag_node_b)];
     ds_nodeExtent := ((0, 0), (1000, 1000));
     ds_snapGrid := (1, 1);
     ds_snapToGrid := false;
     ds_nodeOrigin := (0, 0) |}.

Definition drag_item_a : NodeDragItem :=
  {| di_id := "a";
     di_position := {| nx := Some 900; ny := Some 0 |};
     di_distance := {| x := - 900; y := 0 |};
     di_extent := Some (ExtentCoordinate pinned_extent);
     di_parentId := None;
     di_origin := None;
     di_expandParent := false;
     di_positionAbsolute := {| x := 900; y := 0 |};
     di_width := 100;
     di_height := 100 |}.

Definition drag_item_b : NodeDragItem :=
  {| di_id := "b";
     di_position := {| nx := Some 0; ny := Some 0 |};
     di_distance := origin_xy;
     di_extent := None;
     di_parentId := None;
     di_origin := None;
     di_expandParent := false;
     di_positionAbsolute := origin_xy;
     di_width := 10;
     di_height := 10 |}.

Definition drag_items : JSMap NodeDragItem :=
  [("a"%string, drag_item_a); ("b"%string, drag_item_b)].

(* ================================================================= *)
(** * Further functions *)

(** ** Numbers *)

(** [Math.floor] and [Math.ceil] *)
Definition Math_floor (v : R) : R := IZR (Int_part v).
Definition Math_ceil (v : R) : R := IZR (- Int_part (- v)).

(** ** Rectangles and boxes *)

Definition getBoundsOfRects (rect1 rect2 : Rect) : Rect :=
  boxToRect (getBoundsOfBoxes (rectToBox rect1) (rectToBox rect2)).

Definition getOverlappingArea (rectA rectB : Rect) : R :=
  let xOverlap :=
    Rmax 0
      (Rmin (rect_x rectA + rect_width rectA) (rect_x rectB + rect_width rectB)
       - Rmax (rect_x rectA) (rect_x rectB)) in
  let yOverlap :=
    Rmax 0
      (Rmin (rect_y rectA + rect_height rectA) (rect_y rectB + rect_height rectB)
       - Rmax (rect_y rectA) (rect_y rectB)) in
  Math_ceil (xOverlap * yOverlap).

(** [nodeToRect] on a node of the lookup *)
Definition nodeToRect (node : InternalNode) : Rect :=
  {| rect_x := x (positionAbsolute (internals node));
     rect_y := y (positionAbsolute (internals node));
     rect_width := internal_width node;
     rect_height := internal_height node |}.

(** [outer] contains [inner]. *)
Definition boxContains (outer inner : Box) : Prop :=
  box_x outer <= box_x inner /\ box_y outer <= box_y inner
  /\ box_x2 inner <= box_x2 outer /\ box_y2 inner <= box_y2 outer.

(** The two rectangles have no point in common, bounds apart. *)
Definition rectsApart (a b : Rect) : Prop :=
  rect_x a + rect_width a <= rect_x b \/ rect_x b + rect_width b <= rect_x a
  \/ rect_y a + rect_height a <= rect_y b \/ rect_y b + rect_height b <= rect_y a.

(** The area the two rectangles share, when they share any. *)
Definition sharedArea (a b : Rect) : R :=
  (Rmin (rect_x a + rect_width a) (rect_x b + rect_width b)
   - Rmax (rect_x a) (rect_x b))
  * (Rmin (rect_y a + rect_height a) (rect_y b + rect_height b)
     - Rmax (rect_y a) (rect_y b)).

(** An extent whose minimum is not beyond its maximum. *)
Definition extentOrdered (e : CoordinateExtent) : Prop :=
  fst (fst e) <= fst (snd e) /\ snd (fst e) <= snd (snd e).

(** A rectangle whose width and height are not negative. *)
Definition rectProper (r : Rect) : Prop := 0 <= rect_width r /\ 0 <= rect_height r.

(** Two overlapping squares of side 10, for the examples. *)
Definition square_at_origin : Rect :=
  {| rect_x := 0; rect_y := 0; rect_width := 10; rect_height := 10 |}.

Definition square_at_5_5 : Rect :=
  {| rect_x := 5; rect_y := 5; rect_width := 10; rect_height := 10 |}.

(** ** Queries on nodes and edges *)

(** The sets of ids the queries build are lists here; only membership is
    asked of them. *)
Definition id_in (i : string) (ids : list string) : bool :=
  existsb (String.eqb i) ids.

Definition getOutgoers (node : NodeBase) (nodes : list NodeBase)
    (edges : list Edge) : list NodeBase :=
  if String.eqb (id node) EmptyString then []
  else
    let outgoerIds :=
      List.map target (filter (fun edge => String.eqb (source edge) (id node)) edges) in
    filter (fun n => id_in (id n) outgoerIds) nodes.

Definition getIncomers (node : NodeBase) (nodes : list NodeBase)
    (edges : list Edge) : list NodeBase :=
  if String.eqb (id node) EmptyString then []
  else
    let incomersIds :=
      List.map source (filter (fun edge => String.eqb (target edge) (id node)) edges) in
    filter (fun n => id_in (id n) incomersIds) nodes.

Definition getConnectedEdges (nodes : list NodeBase) (edges : list Edge)
  : list Edge :=
  let nodeIds := List.map id nodes in
  filter (fun edge => id_in (source edge) nodeIds || id_in (target edge) nodeIds)
    edges.

(** [e.id === i] on ids that may be absent *)
Definition edge_id_is (i : option string) (e : Edge) : bool :=
  opt_string_eqb (edge_id e) i.

(** [reconnectEdge(oldEdge, newConnection, edges, options = { shouldReplaceId:
    true })]; the connection is an edge without an id.  (The development
    warnings [006] and [007] of the two early returns are not part of the
    model.) *)
Definition reconnectEdge (oldEdge newConnection : Edge) (edges : list Edge)
    (shouldReplaceId : bool) : list Edge :=
  let oldEdgeId := edge_id oldEdge in
  if String.eqb (source newConnection) EmptyString
     || String.eqb (target newConnection) EmptyString
  then edges
  else
    match find (edge_id_is oldEdgeId) edges with
    | None => edges
    | Some _ =>
        let edge :=
          {| edge_id :=
               if shouldReplaceId then Some (getEdgeId newConnection) else oldEdgeId;
             source := source newConnection;
             target := target newConnection;
             sourceHandle := sourceHandle newConnection;
             targetHandle := targetHandle newConnection |} in
        filter (fun e => negb (edge_id_is oldEdgeId e)) edges ++ [edge]
    end.

(** [getEdgeCenter({ sourceX, sourceY, targetX, targetY })]:
    [[centerX, centerY, xOffset, yOffset]] *)
Definition getEdgeCenter (sourceX sourceY targetX targetY : R) : R * R * R * R :=
  let xOffset := Rabs (targetX - sourceX) / 2 in
  let centerX :=
    if Rltb targetX sourceX then targetX + xOffset else targetX - xOffset in
  let yOffset := Rabs (targetY - sourceY) / 2 in
  let centerY :=
    if Rltb targetY sourceY then targetY + yOffset else targetY - yOffset in
  (centerX, centerY, xOffset, yOffset).

(** [getBezierEdgeCenter]: [[centerX, centerY, offsetX, offsetY]] *)
Definition getBezierEdgeCenter
    (sourceX sourceY targetX targetY
     sourceControlX sourceControlY targetControlX targetControlY : R)
  : R * R * R * R :=
  let centerX :=
    sourceX * (125 / 1000) + sourceControlX * (375 / 1000)
    + targetControlX * (375 / 1000) + targetX * (125 / 1000) in
  let centerY :=
    sourceY * (125 / 1000) + sourceControlY * (375 / 1000)
    + targetControlY * (375 / 1000) + targetY * (125 / 1000) in
  let offsetX := Rabs (centerX - sourceX) in
  let offsetY := Rabs (centerY - sourceY) in
  (centerX, centerY, offsetX, offsetY).

(** The point of the cubic Bezier curve with the control points [p0], [p1],
    [p2] and [p3] at the parameter [t], on one axis. *)
Definition cubicBezier (t p0 p1 p2 p3 : R) : R :=
  (1 - t) ^ 3 * p0 + 3 * (1 - t) ^ 2 * t * p1 + 3 * (1 - t) * t ^ 2 * p2
  + t ^ 3 * p3.

(** [z || 0] *)
Definition or_zero (v : option R) : R :=
  match v with
  | Some r => if Reqb r 0 then 0 else r
  | None => 0
  end.

(** [getElevatedEdgeZIndex({ sourceNode, targetNode, selected = false,
    zIndex = 0, elevateOnSelect = false })] *)
Definition getElevatedEdgeZIndex (sourceNode targetNode : InternalNode)
    (edgeSelected : bool) (edgeZIndex : R) (elevateOnSelect : bool) : R :=
  if negb elevateOnSelect then edgeZIndex
  else
    let edgeOrConnectedNodeSelected :=
      edgeSelected || selected (base targetNode) || selected (base sourceNode) in
    let selectedZIndex :=
      Rmax (Rmax (or_zero (z (internals sourceNode)))
              (or_zero (z (internals targetNode))))
        1000 in
    edgeZIndex + (if edgeOrConnectedNodeSelected then selectedZIndex else 0).

(** The number of edges of a list with the id [i]. *)
Definition countEdgeId (i : option string) (edges : list Edge) : nat :=
  List.length (filter (edge_id_is i) edges).

(** Nodes [a] and [b] and an edge from [a] to [b], for the examples. *)
Definition node_a : NodeBase := exampleUserNode "a" None None false.
Definition node_b : NodeBase := exampleUserNode "b" None None false.

(** ** [getElementsToRemove] *)

(** A node and an edge with their [deletable] flag, which the records above
    do not carry. *)
Record DeletableNode : Type := mkDeletableNode
  { dn_node : NodeBase; dn_deletable : option bool }.

Record DeletableEdge : Type := mkDeletableEdge
  { de_edge : Edge; de_deletable : option bool }.

(** [flag === false] *)
Definition is_false (flag : option bool) : bool :=
  match flag with
  | Some false => true
  | _ => false
  end.

(** [ids.has(i)] for the ids of partial elements, which may be absent *)
Definition has_id (ids : list (option string)) (i : option string) : bool :=
  existsb (opt_string_eqb i) ids.

(** One turn of the loop over the nodes. *)
Definition matchingNodes_step (nodeIds : list (option string))
    (matchingNodes : list DeletableNode) (node : DeletableNode)
  : list DeletableNode :=
  if is_false (dn_deletable node) then matchingNodes
  else
    let isIncluded := has_id nodeIds (Some (id (dn_node node))) in
    let parentHit :=
      negb isIncluded
      && truthy_str (parentId (dn_node node))
      && match
           find (fun n => opt_string_eqb (Some (id (dn_node n)))
                            (parentId (dn_node node)))
             matchingNodes
         with
         | Some _ => true
         | None => false
         end in
    if isIncluded || parentHit then matchingNodes ++ [node] else matchingNodes.

(** One turn of the loop over the deletable edges. *)
Definition matchingEdges_step (edgeIds : list (option string))
    (matchingEdges : list DeletableEdge) (edge : DeletableEdge)
  : list DeletableEdge :=
  let isIncluded := has_id edgeIds (edge_id (de_edge edge)) in
  if isIncluded
     && match
          find (fun e => opt_string_eqb (edge_id (de_edge e)) (edge_id (de_edge edge)))
            matchingEdges
        with
        | Some _ => false
        | None => true
        end
  then matchingEdges ++ [edge]
  else matchingEdges.

Record ElementsToRemove : Type := mkElementsToRemove
  { er_nodes : list DeletableNode; er_edges : list DeletableEdge }.

(** What [onBeforeDelete] resolves to: a boolean, or the elements to remove. *)
Inductive BeforeDeleteResult : Type :=
| BeforeDeleteBool : bool -> BeforeDeleteResult
| BeforeDeleteElements : ElementsToRemove -> BeforeDeleteResult.

(** The nodes [getElementsToRemove] matches. *)
Definition matchingNodesOf (nodesToRemove : list (option string))
    (nodes : list DeletableNode) : list DeletableNode :=
  fold_left (matchingNodes_step nodesToRemove) nodes [].

(** [getConnectedEdges(matchingNodes, deletableEdges)] *)
Definition connectedDeletableEdges (matchingNodes : list DeletableNode)
    (deletableEdges : list DeletableEdge) : list DeletableEdge :=
  let nodeIds := List.map (fun n => id (dn_node n)) matchingNodes in
  filter
    (fun edge =>
       id_in (source (de_edge edge)) nodeIds || id_in (target (de_edge edge)) nodeIds)
    deletableEdges.

(** [getElementsToRemove({ nodesToRemove, edgesToRemove, nodes, edges,
    onBeforeDelete })]: what the promise resolves to.  Of the partial nodes
    and edges to remove only the ids are read. *)
Definition getElementsToRemove
    (nodesToRemove edgesToRemove : list (option string))
    (nodes : list DeletableNode) (edges : list DeletableEdge)
    (onBeforeDelete : option (ElementsToRemove -> BeforeDeleteResult))
  : ElementsToRemove :=
  let matchingNodes := matchingNodesOf nodesToRemove nodes in
  let deletableEdges :=
    filter (fun edge => negb (is_false (de_deletable edge))) edges in
  let connectedEdges := connectedDeletableEdges matchingNodes deletableEdges in
  let matchingEdges :=
    fold_left (matchingEdges_step edgesToRemove) deletableEdges connectedEdges in
  let matching := {| er_nodes := matchingNodes; er_edges := matchingEdges |} in
  match onBeforeDelete with
  | None => matching
  | Some callback =>
      match callback matching with
      | BeforeDeleteBool true => matching
      | BeforeDeleteBool false => {| er_nodes := []; er_edges := [] |}
      | BeforeDeleteElements elements => elements
      end
  end.

(** A parent, its child, and an edge between two other nodes that may not be
    deleted, for the examples. *)
Definition removable_parent : DeletableNode :=
  {| dn_node := exampleUserNode "p" None None false; dn_deletable := None |}.

Definition removable_child : DeletableNode :=
  {| dn_node := exampleUserNode "c" (Some "p"%string) None false;
     dn_deletable := None |}.

Definition removable_edge : DeletableEdge :=
  {| de_edge := {| edge_id := Some "pc"%string; source := "p"; target := "c";
                   sourceHandle := HUndefined; targetHandle := HUndefined |};
     de_deletable := None |}.

(** ** Connection maps *)

(** [Map.prototype.has] *)
Definition map_has {V : Type} (m : JSMap V) (k : string) : bool :=
  existsb (fun kv => String.eqb (fst kv) k) m.

(** [areConnectionMapsEqual(a, b)]; an absent map is [None]. *)
Definition areConnectionMapsEqual {V : Type} (a b : option (JSMap V)) : bool :=
  match a, b with
  | None, None => true
  | None, Some _ => false
  | Some _, None => false
  | Some a, Some b =>
      if negb (Nat.eqb (map_size a) (map_size b)) then false
      else if Nat.eqb (map_size a) 0 && Nat.eqb (map_size b) 0 then true
      else forallb (fun key => map_has b key) (map_keys a)
  end.

(** The connections [handleConnectionChange] collects: those of [a] whose key
    [b] does not have, in the order of [a]. *)
Definition connectionDiff {V : Type} (a : JSMap V) (b : option (JSMap V)) : list V :=
  fold_left
    (fun diff kv =>
       if negb (match b with Some b => map_has b (fst kv) | None => false end)
       then diff ++ [snd kv] else diff)
    a [].

(** [handleConnectionChange(a, b, cb)].  The callback changes a state [S] of
    the caller; the function is the change it makes. *)
Definition handleConnectionChange {V S : Type} (a : JSMap V) (b : option (JSMap V))
    (cb : option (list V -> S -> S)) (s : S) : S :=
  match cb with
  | None => s
  | Some cb =>
      let diff := connectionDiff a b in
      if negb (Nat.eqb (List.length diff) 0) then cb diff s else s
  end.

(** Two maps have the same keys. *)
Definition sameKeys {V : Type} (a b : JSMap V) : Prop :=
  forall k, In k (map_keys a) <-> In k (map_keys b).

(** A callback that records what it is called with. *)
Definition recordCall {V : Type} (diff : list V) (calls : list (list V))
  : list (list V) :=
  calls ++ [diff].

(** ** Resizer *)

Inductive ControlPosition : Type :=
| ctl_top | ctl_bottom | ctl_left | ctl_right
| ctl_top_left | ctl_top_right | ctl_bottom_left | ctl_bottom_right.

Definition ControlPosition_to_string (c : ControlPosition) : string :=
  match c with
  | ctl_top => "top"
  | ctl_bottom => "bottom"
  | ctl_left => "left"
  | ctl_right => "right"
  | ctl_top_left => "top-left"
  | ctl_top_right => "top-right"
  | ctl_bottom_left => "bottom-left"
  | ctl_bottom_right => "bottom-right"
  end.

(** [String.prototype.includes] *)
Fixpoint string_includes (s sub : string) : bool :=
  String.prefix sub s
  || match s with
     | EmptyString => false
     | String _ rest => string_includes rest sub
     end.

Record ControlDirection : Type := mkControlDirection
  { isHorizontal : bool; isVertical : bool; affectsX : bool; affectsY : bool }.

Definition getControlDirection (controlPosition : ControlPosition)
  : ControlDirection :=
  let p := ControlPosition_to_string controlPosition in
  {| isHorizontal := string_includes p "right" || string_includes p "left";
     isVertical := string_includes p "bottom" || string_includes p "top";
     affectsX := string_includes p "left";
     affectsY := string_includes p "top" |}.

(** [getResizeDirection({ width, prevWidth, height, prevHeight, affectsX,
    affectsY })] *)
Definition getResizeDirection (width prevWidth height prevHeight : R)
    (affX affY : bool) : R * R :=
  let deltaWidth := width - prevWidth in
  let deltaHeight := height - prevHeight in
  let direction0 :=
    if Rltb 0 deltaWidth then 1 else if Rltb deltaWidth 0 then -1 else 0 in
  let direction1 :=
    if Rltb 0 deltaHeight then 1 else if Rltb deltaHeight 0 then -1 else 0 in
  let direction0' :=
    if negb (Reqb deltaWidth 0) && affX then direction0 * -1 else direction0 in
  let direction1' :=
    if negb (Reqb deltaHeight 0) && affY then direction1 * -1 else direction1 in
  (direction0', direction1').

Definition getLowerExtentClamp (lowerExtent lowerBound : R) : R :=
  Rmax 0 (lowerBound - lowerExtent).

Definition getUpperExtentClamp (upperExtent upperBound : R) : R :=
  Rmax 0 (upperExtent - upperBound).

Definition getSizeClamp (size minSize maxSize : R) : R :=
  Rmax (Rmax 0 (minSize - size)) (size - maxSize).

Definition xor (a b : bool) : bool := if a then negb b else b.

Record ResizeStartValues : Type := mkResizeStartValues
  { start_x : R; start_y : R; start_width : R; start_height : R;
    pointerX : R; pointerY : R; aspectRatio : R }.

Record ResizeBoundaries : Type := mkResizeBoundaries
  { minWidth : R; maxWidth : R; minHeight : R; maxHeight : R }.

Record ResizeDimensions : Type := mkResizeDimensions
  { new_width : R; new_height : R; new_x : R; new_y : R }.

(** [getDimensionsAfterResize(startValues, controlDirection, pointerPosition,
    boundaries, keepAspectRatio, nodeOrigin, extent, childExtent)]; the pointer
    position is [{ xSnapped, ySnapped }], and the variables the source assigns
    again are primed. *)
Definition getDimensionsAfterResize (startValues : ResizeStartValues)
    (controlDirection : ControlDirection) (pointerPosition : R * R)
    (boundaries : ResizeBoundaries) (keepAspectRatio : bool)
    (nodeOrigin : NodeOrigin)
    (extent childExtent : option CoordinateExtent) : ResizeDimensions :=
  let affX := affectsX controlDirection in
  let affY := affectsY controlDirection in
  let isHor := isHorizontal controlDirection in
  let isVer := isVertical controlDirection in
  let isDiagonal := isHor && isVer in
  let xSnapped := fst pointerPosition in
  let ySnapped := snd pointerPosition in
  let minW := minWidth boundaries in
  let maxW := maxWidth boundaries in
  let minH := minHeight boundaries in
  let maxH := maxHeight boundaries in
  let startX := start_x startValues in
  let startY := start_y startValues in
  let startWidth := start_width startValues in
  let startHeight := start_height startValues in
  let ratio := aspectRatio startValues in
  let distX := Math_floor (if isHor then xSnapped - pointerX startValues else 0) in
  let distY := Math_floor (if isVer then ySnapped - pointerY startValues else 0) in
  let newWidth := startWidth + (if affX then - distX else distX) in
  let newHeight := startHeight + (if affY then - distY else distY) in
  let originOffsetX := - fst nodeOrigin * startWidth in
  let originOffsetY := - snd nodeOrigin * startHeight in
  let clampX := getSizeClamp newWidth minW maxW in
  let clampY := getSizeClamp newHeight minH maxH in
  let '(clampX, clampY) :=
    match extent with
    | Some extent =>
        let xExtentClamp :=
          if affX && Rltb distX 0
          then getLowerExtentClamp (startX + distX + originOffsetX) (fst (fst extent))
          else if negb affX && Rltb 0 distX
          then getUpperExtentClamp (startX + newWidth + originOffsetX)
                 (fst (snd extent))
          else 0 in
        let yExtentClamp :=
          if affY && Rltb distY 0
          then getLowerExtentClamp (startY + distY + originOffsetY) (snd (fst extent))
          else if negb affY && Rltb 0 distY
          then getUpperExtentClamp (startY + newHeight + originOffsetY)
                 (snd (snd extent))
          else 0 in
        (Rmax clampX xExtentClamp, Rmax clampY yExtentClamp)
    | None => (clampX, clampY)
    end in
  let '(clampX, clampY) :=
    match childExtent with
    | Some childExtent =>
        let xExtentClamp :=
          if affX && Rltb 0 distX
          then getUpperExtentClamp (startX + distX) (fst (fst childExtent))
          else if negb affX && Rltb distX 0
          then getLowerExtentClamp (startX + newWidth) (fst (snd childExtent))
          else 0 in
        let yExtentClamp :=
          if affY && Rltb 0 distY
          then getUpperExtentClamp (startY + distY) (snd (fst childExtent))
          else if negb affY && Rltb distY 0
          then getLowerExtentClamp (startY + newHeight) (snd (snd childExtent))
          else 0 in
        (Rmax clampX xExtentClamp, Rmax clampY yExtentClamp)
    | None => (clampX, clampY)
    end in
  let clampX :=
    if keepAspectRatio && isHor then
      let aspectHeightClamp := getSizeClamp (newWidth / ratio) minH maxH * ratio in
      let clampX := Rmax clampX aspectHeightClamp in
      let clampX :=
        match extent with
        | Some extent =>
            let aspectExtentClamp :=
              if (negb affX && negb affY) || (affX && negb affY && isDiagonal)
              then getUpperExtentClamp (startY + originOffsetY + newWidth / ratio)
                     (snd (snd extent)) * ratio
              else getLowerExtentClamp
                     (startY + originOffsetY
                      + (if affX then distX else - distX) / ratio)
                     (snd (fst extent)) * ratio in
            Rmax clampX aspectExtentClamp
        | None => clampX
        end in
      match childExtent with
      | Some childExtent =>
          let aspectExtentClamp :=
            if (negb affX && negb affY) || (affX && negb affY && isDiagonal)
            then getLowerExtentClamp (startY + newWidth / ratio)
                   (snd (snd childExtent)) * ratio
            else getUpperExtentClamp
                   (startY + (if affX then distX else - distX) / ratio)
                   (snd (fst childExtent)) * ratio in
          Rmax clampX aspectExtentClamp
      | None => clampX
      end
    else clampX in
  let clampY :=
    if keepAspectRatio && isVer then
      let aspectWidthClamp := getSizeClamp (newHeight * ratio) minW maxW / ratio in
      let clampY := Rmax clampY aspectWidthClamp in
      let clampY :=
        match extent with
        | Some extent =>
            let aspectExtentClamp :=
              if (negb affX && negb affY) || (affY && negb affX && isDiagonal)
              then getUpperExtentClamp (startX + newHeight * ratio + originOffsetX)
                     (fst (snd extent)) / ratio
              else getLowerExtentClamp
                     (startX + (if affY then distY else - distY) * ratio
                      + originOffsetX)
                     (fst (fst extent)) / ratio in
            Rmax clampY aspectExtentClamp
        | None => clampY
        end in
      match childExtent with
      | Some childExtent =>
          let aspectExtentClamp :=
            if (negb affX && negb affY) || (affY && negb affX && isDiagonal)
            then getLowerExtentClamp (startX + newHeight * ratio)
                   (fst (snd childExtent)) / ratio
            else getUpperExtentClamp
                   (startX + (if affY then distY else - distY) * ratio)
                   (fst (fst childExtent)) / ratio in
          Rmax clampY aspectExtentClamp
      | None => clampY
      end
    else clampY in
  let distY' := distY + (if Rltb distY 0 then clampY else - clampY) in
  let distX' := distX + (if Rltb distX 0 then clampX else - clampX) in
  let '(distX', distY', affX', affY') :=
    if keepAspectRatio then
      if isDiagonal then
        if Rltb (newHeight * ratio) newWidth
        then (distX', (if xor affX affY then - distX' else distX') / ratio,
              affX, affY)
        else ((if xor affX affY then - distY' else distY') * ratio, distY',
              affX, affY)
      else if isHor then (distX', distX' / ratio, affX, affX)
      else (distY' * ratio, distY', affY, affY)
    else (distX', distY', affX, affY) in
  let rx := if affX' then startX + distX' else startX in
  let ry := if affY' then startY + distY' else startY in
  {| new_width := startWidth + (if affX' then - distX' else distX');
     new_height := startHeight + (if affY' then - distY' else distY');
     new_x := fst nodeOrigin * distX' * (if negb affX' then 1 else -1) + rx;
     new_y := snd nodeOrigin * distY' * (if negb affY' then 1 else -1) + ry |}.

(** [rotatePoint(x, y, cx, cy, angle)], the angle in degrees *)
Definition rotatePoint (px py cx cy angle : R) : XYPosition :=
  let radians := angle * PI / 180 in
  let cos := cos radians in
  let sin := sin radians in
  let dx := px - cx in
  let dy := py - cy in
  let newX := dx * cos - dy * sin in
  let newY := dx * sin + dy * cos in
  {| x := newX + cx; y := newY + cy |}.

(** The left, right, top and bottom edge of a node of the given position and
    size, for the origin [nodeOrigin]. *)
Definition leftEdge (nodeOrigin : NodeOrigin) (px w : R) : R := px - fst nodeOrigin * w.
Definition rightEdge (nodeOrigin : NodeOrigin) (px w : R) : R :=
  px - fst nodeOrigin * w + w.
Definition topEdge (nodeOrigin : NodeOrigin) (py h : R) : R := py - snd nodeOrigin * h.
Definition bottomEdge (nodeOrigin : NodeOrigin) (py h : R) : R :=
  py - snd nodeOrigin * h + h.

(** The size at the start of a resize lies within the boundaries. *)
Definition startWithinBoundaries (s : ResizeStartValues) (b : ResizeBoundaries)
  : Prop :=
  minWidth b <= start_width s <= maxWidth b
  /\ minHeight b <= start_height s <= maxHeight b.

(** A resize of a node of 100 by 50 at (10, 20), for the examples. *)
Definition resize_start : ResizeStartValues :=
  {| start_x := 10; start_y := 20; start_width := 100; start_height := 50;
     pointerX := 110; pointerY := 70; aspectRatio := 2 |}.

Definition resize_boundaries : ResizeBoundaries :=
  {| minWidth := 10; maxWidth := 1000; minHeight := 10; maxHeight := 1000 |}.

Definition XY_RESIZER_HANDLE_POSITIONS : list ControlPosition :=
  [ctl_top_left; ctl_top_right; ctl_bottom_left; ctl_bottom_right].

Definition XY_RESIZER_LINE_POSITIONS : list ControlPosition :=
  [ctl_top; ctl_right; ctl_bottom; ctl_left].

(** Two maps of one connection each, under the same key. *)
Definition connections_k_1 : JSMap R := [("k"%string, 1)].
Definition connections_k_2 : JSMap R := [("k"%string, 2)].

(** The node of the given position and size lies within the extent, for the
    origin [nodeOrigin]. *)
Definition nodeWithinExtent (nodeOrigin : NodeOrigin) (px py w h : R)
    (e : CoordinateExtent) : Prop :=
  fst (fst e) <= leftEdge nodeOrigin px w
  /\ rightEdge nodeOrigin px w <= fst (snd e)
  /\ snd (fst e) <= topEdge nodeOrigin py h
  /\ bottomEdge nodeOrigin py h <= snd (snd e).

(** The node of the given position and size, its origin the top left corner,
    covers the extent. *)
Definition nodeCoversExtent (px py w h : R) (e : CoordinateExtent) : Prop :=
  px <= fst (fst e) /\ fst (snd e) <= px + w
  /\ py <= snd (fst e) /\ snd (snd e) <= py + h.

Definition resize_extent : CoordinateExtent := ((0, 0), (150, 100)).
Definition resize_child_extent : CoordinateExtent := ((20, 30), (60, 40)).

(** ** Absolute positions *)

(** The sum of two positions. *)
Definition addPosition (p q : XYPosition) : XYPosition :=
  {| x := x p + x q; y := y p + y q |}.

(** A node at (10, 20) and a child of it at (1, 2), for the examples. *)
Definition positioned_parent : NodeBase :=
  {| id := "p"; position := {| x := 10; y := 20 |}; parentId := None;
     extent := None; expandParent := false; origin := None;
     width := None; height := None;
     initialWidth := None; initialHeight := None;
     user_measured := None;
     selected := false; draggable := None; hidden := false;
     zIndex := None |}.

Definition positioned_child : NodeBase :=
  {| id := "c"; position := {| x := 1; y := 2 |}; parentId := Some "p"%string;
     extent := None; expandParent := false; origin := None;
     width := None; height := None;
     initialWidth := None; initialHeight := None;
     user_measured := None;
     selected := false; draggable := None; hidden := false;
     zIndex := None |}.

Definition positioned_nodes : list (nat * NodeBase) :=
  [(0%nat, positioned_parent); (1%nat, positioned_child)].

(** The absolute position of the parent [calculateNodePosition] works with:
    the one of the node's parent in the lookup, and the origin for a node
    without a parent or with a parent that is not in the lookup. *)
Definition parentPositionAbsolute (nodeLookup : NodeLookup) (node : InternalNode)
  : XYPosition :=
  match
    if truthy_str (parentId (base node))
    then map_get nodeLookup (nullish (parentId (base node)) EmptyString)
    else None
  with
  | Some p => positionAbsolute (internals p)
  | None => {| x := 0; y := 0 |}
  end.

(** A child of [parent_100] without an extent. *)
Definition child_free : InternalNode :=
  exampleNode "c" {| x := 10; y := 10 |} (Some "p"%string) None
    {| m_width := Some 20; m_height := Some 30 |} {| x := 10; y := 10 |}.

(** ** [getFitViewNodes] *)

(** The options [getFitViewNodes] reads: the ids of [options.nodes], if
    given, and [options.includeHiddenNodes]. *)
Record FitViewNodesOptions : Type := mkFitViewNodesOptions
  { fvn_nodes : option (list string);
    fvn_includeHiddenNodes : bool }.

(** The test of the loop: the node is measured and shown, and one of the
    nodes asked for. *)
Definition fitViewCandidate (options : option FitViewNodesOptions)
    (n : InternalNode) : bool :=
  let optionNodeIds :=
    match options with
    | Some o => fvn_nodes o
    | None => None
    end in
  let isVisible :=
    truthy_num (m_width (measured n)) && truthy_num (m_height (measured n))
    && ((match options with Some o => fvn_includeHiddenNodes o | None => false end)
        || negb (hidden (base n))) in
  isVisible
  && match optionNodeIds with
     | None => true
     | Some ids => id_in (id (base n)) ids
     end.

Definition getFitViewNodes (nodeLookup : NodeLookup)
    (options : option FitViewNodesOptions) : NodeLookup :=
  fold_left
    (fun fitViewNodes kv =>
       let n := snd kv in
       if fitViewCandidate options n
       then map_set fitViewNodes (id (base n)) n
       else fitViewNodes)
    nodeLookup [].

(** ** Handle positions *)

Inductive Position : Type :=
| PositionLeft | PositionTop | PositionRight | PositionBottom.

Definition oppositePosition (p : Position) : Position :=
  match p with
  | PositionLeft => PositionRight
  | PositionRight => PositionLeft
  | PositionTop => PositionBottom
  | PositionBottom => PositionTop
  end.

(** A handle of [internals.handleBounds]: its place within the node, its size
    and the side it is on. *)
Record HandleBounds : Type := mkHandleBounds
  { hb_x : R; hb_y : R; hb_width : R; hb_height : R;
    hb_position : option Position }.

(** [getHandlePosition(node, handle, fallbackPosition = Position.Left,
    center = false)]; an absent handle is [None]. *)
Definition getHandlePosition (node : InternalNode) (handle : option HandleBounds)
    (fallbackPosition : Position) (center : bool) : XYPosition :=
  let hx :=
    nullish (option_map hb_x handle) 0 + x (positionAbsolute (internals node)) in
  let hy :=
    nullish (option_map hb_y handle) 0 + y (positionAbsolute (internals node)) in
  let '(w, h) :=
    match handle with
    | Some hd => (hb_width hd, hb_height hd)
    | None => (internal_width node, internal_height node)
    end in
  if center then {| x := hx + w / 2; y := hy + h / 2 |}
  else
    let position :=
      nullish (match handle with Some hd => hb_position hd | None => None end)
        fallbackPosition in
    match position with
    | PositionTop => {| x := hx + w / 2; y := hy |}
    | PositionRight => {| x := hx + w; y := hy + h / 2 |}
    | PositionBottom => {| x := hx + w / 2; y := hy + h |}
    | PositionLeft => {| x := hx; y := hy + h / 2 |}
    end.

(** The handle on the side [p]. *)
Definition handleOnSide (hd : HandleBounds) (p : Position) : HandleBounds :=
  {| hb_x := hb_x hd; hb_y := hb_y hd; hb_width := hb_width hd;
     hb_height := hb_height hd; hb_position := Some p |}.

(** The point half way between two points. *)
Definition midpoint (p q : XYPosition) : XYPosition :=
  {| x := (x p + x q) / 2; y := (y p + y q) / 2 |}.

(** ** [getNodesInside] *)

(** A node of the lookup with the attributes [selectable] and [dragging],
    which the records above do not carry. *)
Record PaneNode : Type := mkPaneNode
  { pn_node : InternalNode; pn_selectable : option bool; pn_dragging : bool }.

(** [paneRect] of [getNodesInside] *)
Definition paneRectOf (rect : Rect) (t : Transform) : Rect :=
  let p :=
    pointToRendererPoint {| x := rect_x rect; y := rect_y rect |} t false (1, 1) in
  {| rect_x := x p; rect_y := y p;
     rect_width := rect_width rect / snd t;
     rect_height := rect_height rect / snd t |}.

(** The test of the loop of [getNodesInside]: the node is pushed. *)
Definition nodeInside (paneRect : Rect) (partially excludeNonSelectableNodes : bool)
    (node : PaneNode) : bool :=
  let n := pn_node node in
  let selectable := nullish (pn_selectable node) true in
  let w :=
    nullish_opt (nullish_opt (m_width (measured n)) (width (base n)))
      (initialWidth (base n)) in
  let h :=
    nullish_opt (nullish_opt (m_height (measured n)) (height (base n)))
      (initialHeight (base n)) in
  if (excludeNonSelectableNodes && negb selectable) || hidden (base n) then false
  else
    let overlappingArea := getOverlappingArea paneRect (nodeToRect n) in
    let notInitialized :=
      match w, h with
      | Some _, Some _ => false
      | _, _ => true
      end in
    let partiallyVisible := partially && Rltb 0 overlappingArea in
    let area := nullish w 0 * nullish h 0 in
    let isVisible := notInitialized || partiallyVisible || Rleb area overlappingArea in
    isVisible || pn_dragging node.

(** [getNodesInside(nodes, rect, [tx, ty, tScale] = [0, 0, 1], partially =
    false, excludeNonSelectableNodes = false)] *)
Definition getNodesInside (nodes : JSMap PaneNode) (rect : Rect) (t : Transform)
    (partially excludeNonSelectableNodes : bool) : list PaneNode :=
  let paneRect := paneRectOf rect t in
  fold_left
    (fun visibleNodes kv =>
       if nodeInside paneRect partially excludeNonSelectableNodes (snd kv)
       then visibleNodes ++ [snd kv]
       else visibleNodes)
    nodes [].

(** [child_fitting] as a node of the pane, and a pane over the parent. *)
Definition pane_child : PaneNode :=
  {| pn_node := child_fitting; pn_selectable := None; pn_dragging := false |}.

Definition pane_100 : Rect :=
  {| rect_x := 0; rect_y := 0; rect_width := 100; rect_height := 100 |}.

(* ================================================================= *)
(** * Properties *)

(** ** Comparisons *)

Lemma Rltb_true (a b : R) : Rltb a b = true <-> a < b.
Proof. unfold Rltb. destruct (Rlt_dec a b); split; intros; auto; discriminate. Qed.

Lemma Rltb_false (a b : R) : Rltb a b = false <-> b <= a.
Proof.
  unfold Rltb. destruct (Rlt_dec a b); split; intros; auto; try discriminate; lra.
Qed.

Lemma Rleb_true (a b : R) : Rleb a b = true <-> a <= b.
Proof. unfold Rleb. destruct (Rle_dec a b); split; intros; auto; discriminate. Qed.

Lemma Rleb_false (a b : R) : Rleb a b = false <-> b < a.
Proof.
  unfold Rleb. destruct (Rle_dec a b); split; intros; auto; try discriminate; lra.
Qed.

Lemma Reqb_true (a b : R) : Reqb a b = true <-> a = b.
Proof. unfold Reqb. destruct (Req_dec_T a b); split; intros; auto; discriminate. Qed.

Lemma Reqb_false (a b : R) : Reqb a b = false <-> a <> b.
Proof.
  unfold Reqb. destruct (Req_dec_T a b); split; intros; auto; try discriminate.
  contradiction.
Qed.

(** Decide the comparisons of a goal between numerals. *)
Ltac decide_R :=
  repeat
    match goal with
    | |- context [Rltb ?a ?b] =>
        first [ rewrite (proj2 (Rltb_true a b)) by lra
              | rewrite (proj2 (Rltb_false a b)) by lra ]
    | |- context [Rleb ?a ?b] =>
        first [ rewrite (proj2 (Rleb_true a b)) by lra
              | rewrite (proj2 (Rleb_false a b)) by lra ]
    | |- context [Reqb ?a ?b] =>
        first [ rewrite (proj2 (Reqb_true a b)) by lra
              | rewrite (proj2 (Reqb_false a b)) by lra ]
    end.

(** ** [clamp] *)

Lemma clamp_le_max (val lo hi : R) : clamp val lo hi <= hi.
Proof. unfold clamp. apply Rmin_r. Qed.

Lemma clamp_ge_min (val lo hi : R) : lo <= hi -> lo <= clamp val lo hi.
Proof.
  intros H. unfold clamp. apply Rmin_glb; [apply Rmax_r | exact H].
Qed.

Lemma clamp_inside (val lo hi : R) : lo <= val <= hi -> clamp val lo hi = val.
Proof.
  intros [H1 H2]. unfold clamp.
  rewrite Rmax_left by exact H1. apply Rmin_left. exact H2.
Qed.

Lemma clamp_below (val lo hi : R) : val <= lo -> lo <= hi -> clamp val lo hi = lo.
Proof.
  intros H1 H2. unfold clamp.
  rewrite Rmax_right by exact H1. apply Rmin_left. exact H2.
Qed.

Lemma clamp_above (val lo hi : R) : hi <= val -> clamp val lo hi = hi.
Proof.
  intros H. unfold clamp. apply Rmin_right.
  apply Rle_trans with val; [exact H | apply Rmax_l].
Qed.

(** With the bounds the wrong way round the upper one wins. *)
Lemma clamp_crossed (val lo hi : R) : hi <= lo -> clamp val lo hi = hi.
Proof.
  intros H. unfold clamp. apply Rmin_right.
  apply Rle_trans with lo; [exact H | apply Rmax_r].
Qed.

Lemma clampPosition_inside (p : XYPosition) (e : CoordinateExtent) :
  fst (fst e) <= x p <= fst (snd e) ->
  snd (fst e) <= y p <= snd (snd e) ->
  clampPosition p e = p.
Proof.
  intros Hx Hy. destruct p as [px py]. unfold clampPosition. simpl in *.
  rewrite !clamp_inside by assumption. reflexivity.
Qed.

(** ** Coordinate conversions *)

(** C10.  With grid snapping off, [pointToRendererPoint] and
    [rendererPointToPoint] are inverse to each other for every transform whose
    scale is not zero. *)
Theorem renderer_point_conversions_inverse
    (tx ty tScale : R) (p : XYPosition) (snapGrid : R * R) :
  tScale <> 0 ->
  rendererPointToPoint (pointToRendererPoint p (tx, ty, tScale) false snapGrid)
    (tx, ty, tScale) = p
  /\ pointToRendererPoint (rendererPointToPoint p (tx, ty, tScale))
       (tx, ty, tScale) false snapGrid = p.
Proof.
  intros Hs. destruct p as [px py].
  unfold rendererPointToPoint, pointToRendererPoint. simpl.
  split; f_equal; field; exact Hs.
Qed.

Lemma renderer_point_conversions_inverse_witness :
  rendererPointToPoint
    (pointToRendererPoint {| x := 3; y := 4 |} (10, 20, 2) false (1, 1))
    (10, 20, 2) = {| x := 3; y := 4 |}
  /\ pointToRendererPoint (rendererPointToPoint {| x := 3; y := 4 |} (10, 20, 2))
       (10, 20, 2) false (1, 1) = {| x := 3; y := 4 |}.
Proof.
  apply (renderer_point_conversions_inverse 10 20 2 {| x := 3; y := 4 |} (1, 1)).
  lra.
Defined.

(** ** Fitting a viewport to bounds *)

(** C6.  For bounds of positive width and height, the zoom of
    [getViewportForBounds] is the smaller of the two axis ratios, each with
    the bounds inflated by [1 + padding], clamped by [minZoom] and [maxZoom]
    (and so within them when [minZoom <= maxZoom]); the translation sends the
    centre of the bounds to the centre of the viewport at that zoom.  For the
    bounds [{0, 0, 100, 100}] in a viewport of 1200 by 800 with zoom limits
    0.5 and 2 and no padding, the smaller ratio is 8, the zoom is 2 and the
    viewport is [{x: 500, y: 300, zoom: 2}], which centres the bounds. *)
Theorem getViewportForBounds_centers
    (bounds : Rect) (width height minZoom maxZoom padding : R) :
  0 < rect_width bounds ->
  0 < rect_height bounds ->
  let v := getViewportForBounds bounds width height minZoom maxZoom padding in
  vp_zoom v
  = clamp
      (Rmin (width / (rect_width bounds * (1 + padding)))
         (height / (rect_height bounds * (1 + padding))))
      minZoom maxZoom
  /\ (minZoom <= maxZoom -> minZoom <= vp_zoom v <= maxZoom)
  /\ rendererPointToPoint (rectCenter bounds) (viewportTransform v)
     = {| x := width / 2; y := height / 2 |}
  /\ (let b := {| rect_x := 0; rect_y := 0; rect_width := 100; rect_height := 100 |} in
      Rmin (1200 / (rect_width b * (1 + 0))) (800 / (rect_height b * (1 + 0))) = 8
      /\ getViewportForBounds b 1200 800 (1 / 2) 2 0
         = {| vp_x := 500; vp_y := 300; vp_zoom := 2 |}
      /\ rendererPointToPoint (rectCenter b) (500, 300, 2)
         = {| x := 1200 / 2; y := 800 / 2 |}).
Proof.
  intros Hw Hh v. subst v.
  unfold getViewportForBounds, viewportTransform, rectCenter, rendererPointToPoint.
  simpl.
  split; [reflexivity|].
  split.
  { intros Hz. split; [apply clamp_ge_min; exact Hz | apply clamp_le_max]. }
  split.
  { f_equal; ring. }
  assert (E12 : 1200 / (100 * (1 + 0)) = 12) by (field; lra).
  assert (E8 : 800 / (100 * (1 + 0)) = 8) by (field; lra).
  rewrite E12, E8.
  assert (Em : Rmin 12 8 = 8) by (apply Rmin_right; lra).
  rewrite Em.
  assert (Ec : clamp 8 (1 / 2) 2 = 2) by (apply clamp_above; lra).
  rewrite Ec.
  split; [reflexivity|].
  split; f_equal; lra.
Qed.

Lemma getViewportForBounds_centers_witness :
  1 / 2 <= vp_zoom (getViewportForBounds example_bounds 400 400 (1 / 2) 4 0) <= 4
  /\ rendererPointToPoint (rectCenter example_bounds)
       (viewportTransform
          (getViewportForBounds example_bounds 400 400 (1 / 2) 4 0))
     = {| x := 400 / 2; y := 400 / 2 |}.
Proof.
  pose proof
    (getViewportForBounds_centers example_bounds 400 400 (1 / 2) 4 0
       ltac:(simpl; lra) ltac:(simpl; lra)) as H.
  destruct H as [_ [H1 [H2 _]]].
  split; [apply H1; lra | exact H2].
Defined.

(** ** Auto-pan *)

Lemma calcAutoPanVelocity_inside (value min max : R) :
  min <= value <= max -> calcAutoPanVelocity value min max = 0.
Proof.
  intros [H1 H2]. unfold calcAutoPanVelocity.
  rewrite (proj2 (Rltb_false value min)) by exact H1.
  rewrite (proj2 (Rltb_false max value)) by exact H2.
  reflexivity.
Qed.

(** Before the near edge's margin: [d] is the distance past the margin. *)
Lemma calcAutoPanVelocity_near (margin max d : R) :
  0 < d ->
  calcAutoPanVelocity (margin - d) margin max = clamp d 1 margin / margin.
Proof.
  intros Hd. unfold calcAutoPanVelocity.
  rewrite (proj2 (Rltb_true (margin - d) margin)) by lra.
  replace (margin - d - margin) with (- d) by ring.
  rewrite Rabs_Ropp, Rabs_pos_eq by lra. reflexivity.
Qed.

(** Past the far edge's margin. *)
Lemma calcAutoPanVelocity_far (margin max d : R) :
  0 < d -> margin <= max + d ->
  calcAutoPanVelocity (max + d) margin max = - (clamp d 1 margin / margin).
Proof.
  intros Hd Hm. unfold calcAutoPanVelocity.
  rewrite (proj2 (Rltb_false (max + d) margin)) by lra.
  rewrite (proj2 (Rltb_true max (max + d))) by lra.
  replace (max + d - max) with d by ring.
  rewrite Rabs_pos_eq by lra.
  unfold Rdiv. ring.
Qed.

(** C7, as the code has it.  The velocity is zero on both axes when the
    pointer is at least the margin away from every edge.  Past the margin (of
    at least 1) by a distance [d], its magnitude is [clamp d 1 margin / margin]:
    the constant [1 / margin] while [d <= 1], then [d / margin], linear and
    strictly increasing for [1 <= d <= margin], then 1; the velocity is
    positive, and at most 1, before the near edge, and the opposite past the
    far edge. *)
Theorem calcAutoPan_velocity_profile (margin : R) :
  1 <= margin ->
  (forall (pos : XYPosition) (bounds : Rect) (speed : R),
      margin <= x pos <= rect_width bounds - margin ->
      margin <= y pos <= rect_height bounds - margin ->
      calcAutoPan pos bounds speed margin = (0, 0))
  /\ (forall max d : R, 0 < d <= 1 ->
        calcAutoPanVelocity (margin - d) margin max = 1 / margin)
  /\ (forall max d : R, 1 <= d <= margin ->
        calcAutoPanVelocity (margin - d) margin max = d / margin)
  /\ (forall max d : R, margin <= d ->
        calcAutoPanVelocity (margin - d) margin max = 1)
  /\ (forall max d : R, 0 < d -> margin <= max + d ->
        calcAutoPanVelocity (max + d) margin max
        = - calcAutoPanVelocity (margin - d) margin max)
  /\ (forall max d1 d2 : R, 1 <= d1 -> d1 < d2 -> d2 <= margin ->
        calcAutoPanVelocity (margin - d1) margin max
        < calcAutoPanVelocity (margin - d2) margin max)
  /\ (forall max d : R, 0 < d ->
        0 < calcAutoPanVelocity (margin - d) margin max <= 1).
Proof.
  intros Hm.
  assert (Hbound : forall max d : R, 0 < d ->
             0 < calcAutoPanVelocity (margin - d) margin max <= 1).
  { intros max d Hd. rewrite calcAutoPanVelocity_near by exact Hd.
    pose proof (clamp_ge_min d 1 margin Hm) as Hlo.
    pose proof (clamp_le_max d 1 margin) as Hhi.
    assert (Hinv : 0 < / margin) by (apply Rinv_0_lt_compat; lra).
    unfold Rdiv. split.
    - apply Rmult_lt_0_compat; lra.
    - apply Rmult_le_reg_r with margin; [lra|].
      rewrite Rmult_assoc, Rinv_l by lra. lra. }
  split.
  { intros pos bounds speed Hx Hy. unfold calcAutoPan.
    rewrite !calcAutoPanVelocity_inside by assumption.
    f_equal; ring. }
  split.
  { intros max d [H0 H1]. rewrite calcAutoPanVelocity_near by exact H0.
    rewrite clamp_below by lra. reflexivity. }
  split.
  { intros max d [H1 H2]. rewrite calcAutoPanVelocity_near by lra.
    rewrite clamp_inside by lra. reflexivity. }
  split.
  { intros max d H. rewrite calcAutoPanVelocity_near by lra.
    rewrite clamp_above by lra. field. lra. }
  split.
  { intros max d H0 H. rewrite calcAutoPanVelocity_far by assumption.
    rewrite calcAutoPanVelocity_near by exact H0. reflexivity. }
  split; [|exact Hbound].
  intros max d1 d2 H1 H12 H2.
  rewrite !calcAutoPanVelocity_near by lra.
  rewrite !clamp_inside by lra.
  unfold Rdiv. apply Rmult_lt_compat_r; [apply Rinv_0_lt_compat; lra | exact H12].
Qed.

Lemma calcAutoPan_velocity_profile_witness :
  calcAutoPan {| x := 400; y := 300 |}
    {| rect_x := 0; rect_y := 0; rect_width := 800; rect_height := 600 |}
    default_autoPanSpeed default_autoPanDistance
  = (0, 0)
  /\ calcAutoPanVelocity (default_autoPanDistance - 20) default_autoPanDistance 760
     = 20 / default_autoPanDistance.
Proof.
  unfold default_autoPanSpeed, default_autoPanDistance.
  pose proof (calcAutoPan_velocity_profile 40 ltac:(lra)) as [H0 [_ [H2 _]]].
  split.
  - apply H0; simpl; lra.
  - apply H2. lra.
Defined.

(** C7 as stated fails just past the margin: a quarter of a pixel and half a
    pixel past a margin of 40 give the same velocity, [1 / 40], which is not
    the linear [d / 40] either. *)
Lemma calcAutoPanVelocity_flat_past_margin :
  calcAutoPanVelocity (40 - 1 / 4) 40 760 = 1 / 40
  /\ calcAutoPanVelocity (40 - 1 / 2) 40 760 = 1 / 40
  /\ ~ (calcAutoPanVelocity (40 - 1 / 4) 40 760
        < calcAutoPanVelocity (40 - 1 / 2) 40 760)
  /\ calcAutoPanVelocity (40 - 1 / 2) 40 760 <> (1 / 2) / 40.
Proof.
  assert (E4 : calcAutoPanVelocity (40 - 1 / 4) 40 760 = 1 / 40).
  { rewrite calcAutoPanVelocity_near by lra. rewrite clamp_below by lra. reflexivity. }
  assert (E2 : calcAutoPanVelocity (40 - 1 / 2) 40 760 = 1 / 40).
  { rewrite calcAutoPanVelocity_near by lra. rewrite clamp_below by lra. reflexivity. }
  rewrite E4, E2.
  repeat split; lra.
Qed.

(** ** [fitView] *)

(** C9.  On an empty node map [fitView] resolves to [false] and makes no
    call on [panZoom]. *)
Theorem fitView_empty (params : FitViewParams) (options : option FitViewOptions) :
  fv_nodes params = [] ->
  fitView params options = (false, []).
Proof.
  intros H. unfold fitView. rewrite H. reflexivity.
Qed.

Lemma fitView_empty_witness :
  fitView
    {| fv_nodes := []; fv_width := 1200; fv_height := 800;
       fv_minZoom := 1 / 2; fv_maxZoom := 2 |}
    None
  = (false, []).
Proof.
  apply fitView_empty. reflexivity.
Defined.

Lemma fitView_nonempty (params : FitViewParams) (options : option FitViewOptions) :
  fv_nodes params <> [] ->
  exists call, fitView params options = (true, [call]).
Proof.
  intros H. unfold fitView.
  destruct (fv_nodes params) as [|n rest] eqn:E; [contradiction|].
  simpl. eexists. reflexivity.
Qed.

(** ** [addEdge] *)

Lemma addEdge_unfold (edgeParams : Edge) (edges : list Edge) :
  addEdge edgeParams edges
  = if String.eqb (source edgeParams) EmptyString
       || String.eqb (target edgeParams) EmptyString
    then edges
    else if connectionExists (edgeOfParams edgeParams) edges then edges
         else edges ++ [withoutNullHandles (edgeOfParams edgeParams)].
Proof. reflexivity. Qed.

Lemma sameConnection_edgeOfParams (c el : Edge) :
  sameConnection (edgeOfParams c) el = sameConnection c el.
Proof.
  unfold edgeOfParams. destruct (isEdgeBase c); reflexivity.
Qed.

Lemma handle_matches_deleteNull (h : HandleRef) :
  HandleRef_strict_eq (deleteNull h) h
  || (HandleRef_falsy (deleteNull h) && HandleRef_falsy h) = true.
Proof.
  destruct h as [| |s]; simpl; try reflexivity.
  rewrite String.eqb_refl. reflexivity.
Qed.

Lemma sameConnection_withoutNullHandles (c : Edge) :
  sameConnection c (withoutNullHandles (edgeOfParams c)) = true.
Proof.
  unfold sameConnection.
  assert (Hs : source (withoutNullHandles (edgeOfParams c)) = source c)
    by (unfold edgeOfParams; destruct (isEdgeBase c); reflexivity).
  assert (Ht : target (withoutNullHandles (edgeOfParams c)) = target c)
    by (unfold edgeOfParams; destruct (isEdgeBase c); reflexivity).
  assert (Hsh : sourceHandle (withoutNullHandles (edgeOfParams c))
                = deleteNull (sourceHandle c))
    by (unfold edgeOfParams; destruct (isEdgeBase c); reflexivity).
  assert (Hth : targetHandle (withoutNullHandles (edgeOfParams c))
                = deleteNull (targetHandle c))
    by (unfold edgeOfParams; destruct (isEdgeBase c); reflexivity).
  rewrite Hs, Ht, Hsh, Hth, !String.eqb_refl, !handle_matches_deleteNull.
  reflexivity.
Qed.

Lemma connectionExists_edgeOfParams (c : Edge) (edges : list Edge) :
  connectionExists (edgeOfParams c) edges = connectionExists c edges.
Proof.
  unfold connectionExists. induction edges as [|e rest IH]; simpl.
  - reflexivity.
  - rewrite sameConnection_edgeOfParams, IH. reflexivity.
Qed.

Lemma connectionExists_app (c : Edge) (l1 l2 : list Edge) :
  connectionExists c (l1 ++ l2) = connectionExists c l1 || connectionExists c l2.
Proof. unfold connectionExists. apply existsb_app. Qed.

Lemma connectionExists_count (c : Edge) (edges : list Edge) :
  connectionExists c edges = negb (Nat.eqb (countConnection c edges) 0).
Proof.
  unfold connectionExists, countConnection.
  induction edges as [|e rest IH]; simpl.
  - reflexivity.
  - destruct (sameConnection c e); simpl; [reflexivity | exact IH].
Qed.

Lemma countConnection_app (c : Edge) (l1 l2 : list Edge) :
  countConnection c (l1 ++ l2)
  = (countConnection c l1 + countConnection c l2)%nat.
Proof.
  unfold countConnection. rewrite filter_app, length_app. reflexivity.
Qed.

(** [addEdge] is idempotent, whatever the edge and the list. *)
Lemma addEdge_idempotent (c : Edge) (edges : list Edge) :
  addEdge c (addEdge c edges) = addEdge c edges.
Proof.
  rewrite !addEdge_unfold.
  destruct (String.eqb (source c) EmptyString || String.eqb (target c) EmptyString);
    [reflexivity|].
  destruct (connectionExists (edgeOfParams c) edges) eqn:E.
  - rewrite E. reflexivity.
  - rewrite connectionExists_edgeOfParams, connectionExists_app.
    unfold connectionExists at 2. simpl.
    rewrite sameConnection_withoutNullHandles, orb_true_r. reflexivity.
Qed.

Lemma countConnection_addEdge (c : Edge) (edges : list Edge) :
  source c <> EmptyString ->
  target c <> EmptyString ->
  countConnection c (addEdge c edges) = Nat.max 1 (countConnection c edges).
Proof.
  intros Hs Ht. rewrite addEdge_unfold.
  apply String.eqb_neq in Hs. apply String.eqb_neq in Ht. rewrite Hs, Ht. simpl.
  rewrite connectionExists_edgeOfParams, connectionExists_count.
  destruct (countConnection c edges) as [|k] eqn:E; simpl.
  - rewrite countConnection_app, E. unfold countConnection. simpl.
    rewrite sameConnection_withoutNullHandles. reflexivity.
  - rewrite E. destruct k; reflexivity.
Qed.

(** C8, as the code has it.  For an edge or connection with a source and a
    target, adding it a second time changes nothing, and after the two
    additions the list holds as many edges of that connection as it held
    before, but at least one: exactly one when the list held at most one. *)
Theorem addEdge_twice (c : Edge) (edges : list Edge) :
  source c <> EmptyString ->
  target c <> EmptyString ->
  addEdge c (addEdge c edges) = addEdge c edges
  /\ countConnection c (addEdge c (addEdge c edges))
     = Nat.max 1 (countConnection c edges)
  /\ ((countConnection c edges <= 1)%nat ->
      countConnection c (addEdge c (addEdge c edges)) = 1%nat).
Proof.
  intros Hs Ht.
  split; [apply addEdge_idempotent|].
  rewrite addEdge_idempotent, countConnection_addEdge by assumption.
  split; [reflexivity|].
  intros H. lia.
Qed.

Lemma addEdge_twice_witness :
  addEdge edge_a_b (addEdge edge_a_b []) = addEdge edge_a_b []
  /\ countConnection edge_a_b (addEdge edge_a_b (addEdge edge_a_b [])) = 1%nat.
Proof.
  pose proof
    (addEdge_twice edge_a_b []
       ltac:(discriminate) ltac:(discriminate)) as [H1 [_ H3]].
  split; [exact H1 | apply H3; apply Nat.le_0_l].
Defined.

(** C8 as stated fails on a list that already holds the connection twice:
    [addEdge] leaves both edges in place. *)
Lemma addEdge_keeps_earlier_duplicates :
  addEdge edge_e1 (addEdge edge_e1 [edge_e1; edge_e2]) = [edge_e1; edge_e2]
  /\ sameConnection edge_e1 edge_e2 = true
  /\ countConnection edge_e1 (addEdge edge_e1 (addEdge edge_e1 [edge_e1; edge_e2]))
     = 2%nat.
Proof.
  repeat split; reflexivity.
Qed.

(** ** [calculateNodePosition] under a parent extent *)

(** C1, as the code has it.  A node with extent ['parent'] and without
    [expandParent], whose parent is in the lookup, is placed within the
    parent's interior rectangle for every [nextPosition], provided the node
    and the parent have measured, non-zero widths and heights and the node is
    not larger than the parent. *)
Theorem calculateNodePosition_within_parent
    (nodeId pid : string) (nextPosition : XYPosition) (lookup : NodeLookup)
    (nodeOrigin : NodeOrigin) (nodeExtent : option CoordinateExtent)
    (node parent : InternalNode) (nw nh pw ph : R) :
  map_get lookup nodeId = Some node ->
  extent (base node) = Some ExtentParent ->
  expandParent (base node) = false ->
  parentId (base node) = Some pid ->
  pid <> EmptyString ->
  map_get lookup pid = Some parent ->
  measured node = {| m_width := Some nw; m_height := Some nh |} ->
  measured parent = {| m_width := Some pw; m_height := Some ph |} ->
  nw <> 0 -> nh <> 0 -> pw <> 0 -> ph <> 0 ->
  nw <= pw -> nh <= ph ->
  exists r,
    calculateNodePosition nodeId nextPosition lookup nodeOrigin nodeExtent
    = Some (r, [])
    /\ withinParentInterior (res_positionAbsolute r) node parent.
Proof.
  intros Hn He Hx Hp Hpid Hpar Hm Hpm Hnw Hnh Hpw Hph Hw Hh.
  unfold calculateNodePosition.
  rewrite Hn, He, Hx, Hp. simpl.
  apply String.eqb_neq in Hpid. rewrite Hpid. simpl.
  rewrite Hpar, Hm, Hpm. simpl.
  rewrite (proj2 (Reqb_false nw 0)), (proj2 (Reqb_false nh 0)),
    (proj2 (Reqb_false pw 0)), (proj2 (Reqb_false ph 0)) by assumption.
  simpl. eexists. split; [reflexivity|].
  unfold withinParentInterior. rewrite Hm, Hpm. simpl.
  repeat split;
    first [ apply clamp_ge_min; lra | apply clamp_le_max ].
Qed.

Lemma calculateNodePosition_within_parent_witness :
  exists r,
    calculateNodePosition "c" {| x := 5000; y := -5000 |}
      (lookup_of child_fitting) (0, 0) None
    = Some (r, [])
    /\ withinParentInterior (res_positionAbsolute r) child_fitting parent_100.
Proof.
  apply (calculateNodePosition_within_parent "c" "p" {| x := 5000; y := -5000 |}
           (lookup_of child_fitting) (0, 0) None child_fitting parent_100
           20 30 100 100);
    try reflexivity; try discriminate; lra.
Defined.

(** C1 as stated fails for a node that has no measured size yet, which is not
    clamped at all, and for a node wider than its parent, which is put left of
    the parent's left edge. *)
Lemma calculateNodePosition_outside_parent :
  (exists r errs,
      calculateNodePosition "c" {| x := 1000; y := 1000 |}
        (lookup_of child_unmeasured) (0, 0) None
      = Some (r, errs)
      /\ res_positionAbsolute r = {| x := 1000; y := 1000 |}
      /\ ~ withinParentInterior (res_positionAbsolute r) child_unmeasured parent_100)
  /\ (exists r errs,
         calculateNodePosition "c" {| x := 10; y := 10 |}
           (lookup_of child_wide) (0, 0) None
         = Some (r, errs)
         /\ res_positionAbsolute r = {| x := -100; y := 10 |}
         /\ ~ withinParentInterior (res_positionAbsolute r) child_wide parent_100).
Proof.
  split.
  - eexists. eexists. unfold calculateNodePosition. simpl.
    split; [reflexivity|]. simpl.
    split; [reflexivity|].
    unfold withinParentInterior. simpl. lra.
  - eexists. eexists. unfold calculateNodePosition. simpl.
    decide_R. simpl.
    split; [reflexivity|]. simpl.
    assert (Ex : clamp 10 0 (0 + 100 - 200) = -100)
      by (rewrite clamp_crossed by lra; ring).
    assert (Ey : clamp 10 0 (0 + 100 - 50) = 10)
      by (apply clamp_inside; lra).
    unfold clampPosition. simpl.
    rewrite Ex, Ey.
    split; [reflexivity|].
    unfold withinParentInterior. simpl. lra.
Qed.

(** ** Maps *)

Section JSMapFacts.
Context {V : Type}.

Lemma map_get_set_same (m : JSMap V) (k : string) (v : V) :
  map_get (map_set m k v) k = Some v.
Proof.
  induction m as [|[k' v'] rest IH]; simpl.
  - rewrite String.eqb_refl. reflexivity.
  - destruct (String.eqb k' k) eqn:E; simpl; rewrite E; [reflexivity | exact IH].
Qed.

Lemma map_get_set_other (m : JSMap V) (k k' : string) (v : V) :
  k <> k' -> map_get (map_set m k v) k' = map_get m k'.
Proof.
  intros Hk. induction m as [|[k0 v0] rest IH]; simpl.
  - apply String.eqb_neq in Hk. rewrite Hk. reflexivity.
  - destruct (String.eqb k0 k) eqn:E; simpl.
    + apply String.eqb_eq in E. subst k0.
      apply String.eqb_neq in Hk. rewrite Hk. reflexivity.
    + destruct (String.eqb k0 k'); [reflexivity | exact IH].
Qed.

Lemma map_get_None (m : JSMap V) (k : string) :
  ~ In k (map_keys m) -> map_get m k = None.
Proof.
  induction m as [|[k' v'] rest IH]; simpl; intros H.
  - reflexivity.
  - destruct (String.eqb k' k) eqn:E.
    + apply String.eqb_eq in E. tauto.
    + apply IH. tauto.
Qed.

Lemma map_keys_set (m : JSMap V) (k k' : string) (v : V) :
  In k' (map_keys (map_set m k v)) -> k' = k \/ In k' (map_keys m).
Proof.
  induction m as [|[k0 v0] rest IH]; simpl.
  - intros [H|[]]. left. symmetry. exact H.
  - destruct (String.eqb k0 k) eqn:E; simpl.
    + tauto.
    + intros [H|H]; [tauto|]. destruct (IH H); tauto.
Qed.
End JSMapFacts.

(** ** Resolved z *)

Lemma calculateChildXYZ_z (child parent : InternalNode) (o : NodeOrigin) (boost : R) :
  xyz_z (calculateChildXYZ child parent o boost)
  = Rmax (nullish (z (internals parent)) 0) (calculateZ (base child) boost).
Proof.
  unfold calculateChildXYZ. simpl.
  destruct (Rltb (calculateZ (base child) boost) (nullish (z (internals parent)) 0))
    eqn:E.
  - apply Rltb_true in E. rewrite Rmax_left by lra. reflexivity.
  - apply Rltb_false in E. rewrite Rmax_right by lra. reflexivity.
Qed.

(** What [updateChildPosition] leaves in the lookup for the node. *)
Lemma updateChildPosition_found (node parent : InternalNode) (s : Store)
    (options : option StoreOptions) (pid : string) :
  parentId (base node) = Some pid ->
  map_get (nodeLookup s) pid = Some parent ->
  exists node',
    map_get (nodeLookup (updateChildPosition node s options)) (id (base node))
    = Some node'
    /\ base node' = base node
    /\ measured node' = measured node
    /\ z (internals node')
       = Some (Rmax (nullish (z (internals parent)) 0)
                 (calculateZ (base node) (selectedNodeZ_of options)))
    /\ forall k, k <> id (base node) ->
         map_get (nodeLookup (updateChildPosition node s options)) k
         = map_get (nodeLookup s) k.
Proof.
  intros Hp Hpar. unfold updateChildPosition. rewrite Hp, Hpar.
  cbn [nodeLookup].
  pose proof (calculateChildXYZ_z node parent (nodeOrigin_of options)
                (selectedNodeZ_of options)) as Hz.
  set (xyz := calculateChildXYZ node parent (nodeOrigin_of options)
                (selectedNodeZ_of options)) in *.
  match goal with
  | |- context [map_set (nodeLookup s) _ ?n] => exists n
  end.
  split; [apply map_get_set_same|].
  assert (Hother : forall (n : InternalNode) (k : string),
             k <> id (base node) ->
             map_get (map_set (nodeLookup s) (id (base node)) n) k
             = map_get (nodeLookup s) k)
    by (intros n k Hk; apply map_get_set_other; congruence).
  match goal with
  | |- context [if ?c then _ else node] => destruct c eqn:Ec
  end; cbn [base measured internals z].
  - rewrite Hz. repeat split. intros k Hk. apply Hother. exact Hk.
  - apply orb_false_iff in Ec. destruct Ec as [_ Ez].
    unfold num_neq in Ez. destruct (z (internals node)) as [zn|]; [|discriminate].
    apply negb_false_iff, Reqb_true in Ez.
    rewrite <- Ez, Hz. repeat split. intros k Hk. apply Hother. exact Hk.
Qed.

Lemma updateChildPosition_not_found (node : InternalNode) (s : Store)
    (options : option StoreOptions) (pid : string) :
  parentId (base node) = Some pid ->
  map_get (nodeLookup s) pid = None ->
  nodeLookup (updateChildPosition node s options) = nodeLookup s.
Proof.
  intros Hp Hpar. unfold updateChildPosition. rewrite Hp, Hpar. reflexivity.
Qed.

Lemma updateChildPosition_keys (node : InternalNode) (s : Store)
    (options : option StoreOptions) (k : string) :
  In k (map_keys (nodeLookup (updateChildPosition node s options))) ->
  k = id (base node) \/ In k (map_keys (nodeLookup s)).
Proof.
  unfold updateChildPosition.
  destruct (parentId (base node)) as [pid|]; [|simpl; tauto].
  destruct (map_get (nodeLookup s) pid); simpl; [|tauto].
  apply map_keys_set.
Qed.

(** *** The loop of [adoptUserNodes] *)

Section AdoptUserNodes.
Variable tmpLookup : NodeLookup.
Variable options : option StoreOptions.

Local Abbreviation step := (adoptUserNode tmpLookup options).
Local Abbreviation fresh u := (freshInternalNode (fst u) (snd u) options).

Lemma adoptUserNode_built (s : Store) (u : nat * NodeBase) :
  takenOver tmpLookup options u = false ->
  step s u
  = let s1 :=
      {| nodeLookup := map_set (nodeLookup s) (id (snd u)) (fresh u);
         parentLookup := parentLookup s;
         warnings := warnings s |} in
    if truthy_str (parentId (snd u))
    then updateChildPosition (fresh u) s1 options
    else s1.
Proof.
  unfold adoptUserNode, takenOver. destruct u as [ref usr]. simpl.
  destruct (map_get tmpLookup (id usr)) as [old|]; [|reflexivity].
  intros H. rewrite H. reflexivity.
Qed.

Lemma adoptUserNode_other (s : Store) (u : nat * NodeBase) (k : string) :
  takenOver tmpLookup options u = false ->
  k <> id (snd u) ->
  map_get (nodeLookup (step s u)) k = map_get (nodeLookup s) k.
Proof.
  intros Ht Hk. rewrite adoptUserNode_built by exact Ht. cbv zeta.
  destruct (truthy_str (parentId (snd u))) eqn:Ep.
  - destruct (parentId (snd u)) as [pid|] eqn:Epid; [|discriminate].
    set (s1 := {| nodeLookup := map_set (nodeLookup s) (id (snd u)) (fresh u);
                  parentLookup := parentLookup s; warnings := warnings s |}).
    destruct (map_get (nodeLookup s1) pid) as [parent|] eqn:Epar.
    + destruct (updateChildPosition_found (fresh u) parent s1 options pid Epid Epar)
        as [node' [_ [_ [_ [_ Hother]]]]].
      rewrite Hother by exact Hk.
      subst s1. cbn [nodeLookup]. apply map_get_set_other. congruence.
    + rewrite (updateChildPosition_not_found (fresh u) s1 options pid Epid Epar).
      subst s1. cbn [nodeLookup]. apply map_get_set_other. congruence.
  - cbn [nodeLookup]. apply map_get_set_other. congruence.
Qed.

Lemma adoptUserNode_keys (s : Store) (u : nat * NodeBase) (k : string) :
  takenOver tmpLookup options u = false ->
  In k (map_keys (nodeLookup (step s u))) ->
  k = id (snd u) \/ In k (map_keys (nodeLookup s)).
Proof.
  intros Ht. rewrite adoptUserNode_built by exact Ht. cbv zeta.
  destruct (truthy_str (parentId (snd u))).
  - intros H. apply updateChildPosition_keys in H. cbn [nodeLookup] in H.
    destruct H as [H|H]; [left; exact H|].
    apply map_keys_set in H. tauto.
  - cbn [nodeLookup]. intros H. apply map_keys_set in H. tauto.
Qed.

(** The entry the turn for [u] leaves under the id of [u]. *)
Lemma adoptUserNode_self (s : Store) (u : nat * NodeBase) :
  takenOver tmpLookup options u = false ->
  exists inode zr,
    map_get (nodeLookup (step s u)) (id (snd u)) = Some inode
    /\ base inode = snd u
    /\ z (internals inode) = Some zr
    /\ (truthy_str (parentId (snd u)) = false -> zr = ownZ options (snd u))
    /\ (forall pid, parentId (snd u) = Some pid -> pid <> EmptyString ->
          pid <> id (snd u) ->
          match map_get (nodeLookup s) pid with
          | Some parent =>
              zr = Rmax (nullish (z (internals parent)) 0) (ownZ options (snd u))
          | None => zr = ownZ options (snd u)
          end)
    /\ (parentId (snd u) = Some (id (snd u)) -> zr = ownZ options (snd u)).
Proof.
  intros Ht. rewrite adoptUserNode_built by exact Ht. cbv zeta.
  set (s1 := {| nodeLookup := map_set (nodeLookup s) (id (snd u)) (fresh u);
                parentLookup := parentLookup s; warnings := warnings s |}).
  assert (Hself : map_get (nodeLookup s1) (id (snd u)) = Some (fresh u))
    by (subst s1; cbn [nodeLookup]; apply map_get_set_same).
  assert (Hzf : z (internals (fresh u)) = Some (ownZ options (snd u)))
    by reflexivity.
  assert (Hbf : base (fresh u) = snd u) by reflexivity.
  destruct (truthy_str (parentId (snd u))) eqn:Ep.
  - destruct (parentId (snd u)) as [pid|] eqn:Epid; [|discriminate].
    assert (Epid' : parentId (base (fresh u)) = Some pid) by exact Epid.
    destruct (map_get (nodeLookup s1) pid) as [parent|] eqn:Epar.
    + destruct (updateChildPosition_found (fresh u) parent s1 options pid Epid' Epar)
        as [node' [Hget [Hbase [_ [Hz _]]]]].
      rewrite Hbf in Hget.
      exists node', (Rmax (nullish (z (internals parent)) 0) (ownZ options (snd u))).
      split; [exact Hget|].
      split; [congruence|].
      split; [exact Hz|].
      split; [discriminate|].
      split.
      * intros pid' Hpid' _ Hne. injection Hpid' as <-.
        subst s1. cbn [nodeLookup] in Epar.
        rewrite map_get_set_other in Epar by congruence.
        rewrite Epar. reflexivity.
      * intros Hpid'. injection Hpid' as ->.
        rewrite Hself in Epar. injection Epar as <-.
        rewrite Hzf. cbn [nullish]. apply Rmax_left. lra.
    + rewrite (updateChildPosition_not_found (fresh u) s1 options pid Epid' Epar).
      exists (fresh u), (ownZ options (snd u)).
      split; [exact Hself|].
      split; [exact Hbf|].
      split; [exact Hzf|].
      split; [reflexivity|].
      split.
      * intros pid' Hpid' _ Hne. injection Hpid' as <-.
        subst s1. cbn [nodeLookup] in Epar.
        rewrite map_get_set_other in Epar by congruence.
        rewrite Epar. reflexivity.
      * reflexivity.
  - exists (fresh u), (ownZ options (snd u)).
    split; [exact Hself|].
    split; [exact Hbf|].
    split; [exact Hzf|].
    split; [reflexivity|].
    split.
    + intros pid Hpid Hne _. rewrite Hpid in Ep. simpl in Ep.
      apply String.eqb_neq in Hne. rewrite Hne in Ep. discriminate.
    + reflexivity.
Qed.

Lemma adoptUserNodes_loop_other (l : list (nat * NodeBase)) (s : Store) (k : string) :
  Forall (fun u => takenOver tmpLookup options u = false) l ->
  ~ In k (node_ids l) ->
  map_get (nodeLookup (fold_left step l s)) k = map_get (nodeLookup s) k.
Proof.
  revert s. induction l as [|u rest IH]; intros s Hf Hk; simpl.
  - reflexivity.
  - inversion Hf as [|? ? Hu Hrest]; subst.
    simpl in Hk. rewrite IH by tauto.
    apply adoptUserNode_other; [exact Hu | intros E; apply Hk; left; congruence].
Qed.

Lemma adoptUserNodes_loop_keys (l : list (nat * NodeBase)) (s : Store) (k : string) :
  Forall (fun u => takenOver tmpLookup options u = false) l ->
  In k (map_keys (nodeLookup (fold_left step l s))) ->
  In k (node_ids l) \/ In k (map_keys (nodeLookup s)).
Proof.
  revert s. induction l as [|u rest IH]; intros s Hf Hk; simpl in *.
  - right. exact Hk.
  - inversion Hf as [|? ? Hu Hrest]; subst.
    destruct (IH _ Hrest Hk) as [H|H]; [tauto|].
    apply adoptUserNode_keys in H; [|exact Hu]. destruct H; [left; left; congruence | tauto].
Qed.

Lemma adoptUserNodes_loop_has (l : list (nat * NodeBase)) (s : Store) (k : string) :
  Forall (fun u => takenOver tmpLookup options u = false) l ->
  In k (node_ids l) ->
  exists inode, map_get (nodeLookup (fold_left step l s)) k = Some inode.
Proof.
  revert s. induction l as [|u rest IH]; intros s Hf Hk; simpl in *.
  - contradiction.
  - inversion Hf as [|? ? Hu Hrest]; subst.
    destruct (in_dec string_dec k (node_ids rest)) as [Hin|Hnot].
    + apply IH; assumption.
    + destruct Hk as [Hk|Hk]; [|contradiction].
      rewrite adoptUserNodes_loop_other by assumption.
      destruct (adoptUserNode_self s u Hu) as [inode [zr [Hget _]]].
      exists inode. rewrite <- Hk. exact Hget.
Qed.
End AdoptUserNodes.

Lemma NoDup_app_In_l {A : Type} (l1 l2 : list A) (a : A) :
  NoDup (l1 ++ l2) -> In a l1 -> ~ In a l2.
Proof.
  induction l1 as [|b rest IH]; simpl; intros Hnd Hin; [contradiction|].
  inversion Hnd as [|? ? Hb Hrest]; subst.
  destruct Hin as [->|Hin].
  - intros H. apply Hb. apply in_or_app. right. exact H.
  - apply IH; assumption.
Qed.

Lemma node_ids_app (l1 l2 : list (nat * NodeBase)) :
  node_ids (l1 ++ l2) = node_ids l1 ++ node_ids l2.
Proof. unfold node_ids. apply map_app. Qed.

(** The entry of a node in the lookup [adoptUserNodes] builds, when no node
    is taken over from the previous lookup and the ids are distinct: [pre]
    are the nodes in front of the node in the array. *)
Lemma adoptUserNodes_entry
    (nodes pre post : list (nat * NodeBase)) (ref : nat) (n : NodeBase)
    (s0 : Store) (options : option StoreOptions) :
  NoDup (node_ids nodes) ->
  Forall (fun u => takenOver (nodeLookup s0) options u = false) nodes ->
  nodes = pre ++ (ref, n) :: post ->
  exists inode zr,
    map_get (nodeLookup (adoptUserNodes nodes s0 options)) (id n) = Some inode
    /\ base inode = n
    /\ z (internals inode) = Some zr
    /\ (truthy_str (parentId n) = false -> zr = ownZ options n)
    /\ (forall pid, parentId n = Some pid -> pid <> EmptyString ->
          In pid (node_ids pre) ->
          exists parent,
            map_get (nodeLookup (adoptUserNodes nodes s0 options)) pid = Some parent
            /\ zr = Rmax (nullish (z (internals parent)) 0) (ownZ options n))
    /\ (forall pid, parentId n = Some pid -> ~ In pid (node_ids pre) ->
          zr = ownZ options n).
Proof.
  intros Hnd Hf ->.
  unfold adoptUserNodes. rewrite fold_left_app. cbn [fold_left].
  set (init := {| nodeLookup := []; parentLookup := []; warnings := warnings s0 |}).
  set (s_pre := fold_left (adoptUserNode (nodeLookup s0) options) pre init).
  apply Forall_app in Hf. destruct Hf as [Hpre Hf].
  inversion Hf as [|? ? Hu Hpost]; subst.
  rewrite node_ids_app in Hnd. simpl in Hnd.
  pose proof (NoDup_remove_2 _ _ _ Hnd) as Hn_notin.
  assert (Hn_post : ~ In (id n) (node_ids post))
    by (intros H; apply Hn_notin; apply in_or_app; right; exact H).
  destruct (adoptUserNode_self (nodeLookup s0) options s_pre (ref, n) Hu)
    as [inode [zr [Hget [Hbase [Hz [Hroot [Hpar Hself]]]]]]].
  simpl in Hget, Hbase, Hroot, Hpar, Hself.
  exists inode, zr.
  split; [rewrite adoptUserNodes_loop_other by assumption; exact Hget|].
  split; [exact Hbase|].
  split; [exact Hz|].
  split; [exact Hroot|].
  split.
  - intros pid Hpid Hne Hin.
    assert (Hpid_n : pid <> id n).
    { intros ->. apply Hn_notin. apply in_or_app. left. exact Hin. }
    assert (Hpid_post : ~ In pid (node_ids post)).
    { intros H. apply (NoDup_app_In_l _ _ pid Hnd Hin). right. exact H. }
    destruct (adoptUserNodes_loop_has (nodeLookup s0) options pre init pid Hpre Hin)
      as [parent Hparent].
    fold s_pre in Hparent.
    specialize (Hpar pid Hpid Hne Hpid_n). rewrite Hparent in Hpar.
    exists parent. split; [|exact Hpar].
    rewrite adoptUserNodes_loop_other by assumption.
    rewrite adoptUserNode_other by (simpl; assumption).
    exact Hparent.
  - intros pid Hpid Hnot.
    destruct (string_dec pid (id n)) as [->|Hpid_n]; [apply Hself; exact Hpid|].
    destruct (string_dec pid EmptyString) as [->|Hne].
    { apply Hroot. rewrite Hpid. reflexivity. }
    specialize (Hpar pid Hpid Hne Hpid_n).
    assert (Hnone : map_get (nodeLookup s_pre) pid = None).
    { apply map_get_None. intros H.
      apply adoptUserNodes_loop_keys in H; [|exact Hpre].
      destruct H as [H|H]; [contradiction | exact H]. }
    rewrite Hnone in Hpar. exact Hpar.
Qed.

(** C4, as the code has it.  In the lookup [adoptUserNodes] builds (ids
    distinct, no node taken over from the previous lookup), a node's resolved
    z is its own z, which is its declared index or 0 plus the boost of 1000 if
    it is selected and [elevateNodesOnSelect] is on, unless its parent stands
    in front of it in the array, when it is the larger of its own z and its
    parent's resolved z.  So a node is never below its parent, and a selected
    node is strictly above every node whose resolved z is below its declared
    index plus the boost. *)
Theorem adoptUserNodes_resolved_z
    (nodes pre post : list (nat * NodeBase)) (ref : nat) (n : NodeBase)
    (s0 : Store) (options : option StoreOptions) :
  NoDup (node_ids nodes) ->
  Forall (fun u => takenOver (nodeLookup s0) options u = false) nodes ->
  nodes = pre ++ (ref, n) :: post ->
  let lookup := nodeLookup (adoptUserNodes nodes s0 options) in
  let boost :=
    match options with
    | Some o =>
        match opt_elevateNodesOnSelect o with Some true => 1000 | _ => 0 end
    | None => 0
    end in
  let own := nullish (zIndex n) 0 + (if selected n then boost else 0) in
  exists inode zr,
    map_get lookup (id n) = Some inode
    /\ z (internals inode) = Some zr
    /\ (truthy_str (parentId n) = false -> zr = own)
    /\ (forall pid, parentId n = Some pid -> pid <> EmptyString ->
          In pid (node_ids pre) ->
          exists parent,
            map_get lookup pid = Some parent
            /\ zr = Rmax (nullish (z (internals parent)) 0) own
            /\ nullish (z (internals parent)) 0 <= zr)
    /\ (forall pid, parentId n = Some pid -> ~ In pid (node_ids pre) -> zr = own)
    /\ own <= zr
    /\ (selected n = true ->
        forall (k : string) (other : InternalNode) (zo : R),
          map_get lookup k = Some other ->
          z (internals other) = Some zo ->
          zo < nullish (zIndex n) 0 + boost ->
          zo < zr).
Proof.
  intros Hnd Hf Hnodes lookup boost own.
  destruct (adoptUserNodes_entry nodes pre post ref n s0 options Hnd Hf Hnodes)
    as [inode [zr [Hget [_ [Hz [Hroot [Hpar Hnopar]]]]]]].
  change (ownZ options n) with own in Hroot, Hpar, Hnopar.
  assert (Hown : own <= zr).
  { destruct (parentId n) as [pid|] eqn:Epid.
    - destruct (in_dec string_dec pid (node_ids pre)) as [Hin|Hnot].
      + destruct (string_dec pid EmptyString) as [->|Hne].
        * rewrite Hroot by reflexivity. lra.
        * destruct (Hpar pid eq_refl Hne Hin) as [parent [_ ->]]. apply Rmax_r.
      + rewrite (Hnopar pid eq_refl Hnot). lra.
    - rewrite Hroot by reflexivity. lra. }
  exists inode, zr.
  split; [exact Hget|].
  split; [exact Hz|].
  split; [exact Hroot|].
  split.
  { intros pid Hpid Hne Hin.
    destruct (Hpar pid Hpid Hne Hin) as [parent [Hp Hzr]].
    exists parent. split; [exact Hp|]. split; [exact Hzr|].
    rewrite Hzr. apply Rmax_l. }
  split; [exact Hnopar|].
  split; [exact Hown|].
  intros Hsel k other zo _ _ Hlt.
  subst own. rewrite Hsel in Hown. lra.
Qed.

Lemma z_nodes_NoDup : NoDup (node_ids z_nodes).
Proof.
  unfold z_nodes, node_ids. simpl.
  repeat constructor; simpl; intuition discriminate.
Qed.

Lemma z_nodes_built (options : option StoreOptions) :
  Forall (fun u => takenOver (nodeLookup emptyStore) options u = false) z_nodes.
Proof. repeat constructor. Qed.

Lemma adoptUserNodes_resolved_z_witness :
  exists zr,
    resolvedZ (adoptUserNodes z_nodes emptyStore elevateOnSelect) "c" = Some zr
    /\ 0 + 1000 <= zr.
Proof.
  destruct (adoptUserNodes_resolved_z z_nodes [(0%nat, z_parent)]
              [(2%nat, z_sibling)] 1%nat z_selected emptyStore elevateOnSelect
              z_nodes_NoDup (z_nodes_built elevateOnSelect) eq_refl)
    as [inode [zr [Hget [Hz [_ [_ [_ [Hown _]]]]]]]].
  exists zr. unfold resolvedZ.
  change (id z_selected) with "c"%string in Hget. rewrite Hget.
  split; [exact Hz | exact Hown].
Defined.

Lemma z_parent_resolved (options : option StoreOptions) :
  resolvedZ (adoptUserNodes z_nodes emptyStore options) "p" = Some 5.
Proof.
  destruct (adoptUserNodes_entry z_nodes [] [(1%nat, z_selected); (2%nat, z_sibling)]
              0%nat z_parent emptyStore options
              z_nodes_NoDup (z_nodes_built options) eq_refl)
    as [inode [zr [Hget [_ [Hz [Hroot _]]]]]].
  unfold resolvedZ. change (id z_parent) with "p"%string in Hget.
  rewrite Hget, Hz, Hroot by reflexivity.
  unfold ownZ, calculateZ. simpl. f_equal. ring.
Qed.

(** C4 as stated fails.  The boost is added before the maximum with the
    parent's z is taken, not after: the selected child of a parent of z 5 gets
    1000, not 1005.  Its sibling of index 2000, which is not selected, lies
    above it.  And without [elevateNodesOnSelect] a selected node gets no
    boost. *)
Lemma resolved_z_boost_before_max :
  resolvedZ (adoptUserNodes z_nodes emptyStore elevateOnSelect) "p" = Some 5
  /\ resolvedZ (adoptUserNodes z_nodes emptyStore elevateOnSelect) "c" = Some 1000
  /\ Rmax (nullish (zIndex z_selected) 0) 5 + 1000 <> 1000
  /\ resolvedZ (adoptUserNodes z_nodes emptyStore elevateOnSelect) "u" = Some 2000
  /\ resolvedZ (adoptUserNodes z_nodes emptyStore None) "c" = Some 5.
Proof.
  assert (Hchild : forall options (pre post : list (nat * NodeBase)) ref n k,
             z_nodes = pre ++ (ref, n) :: post ->
             id n = k -> parentId n = Some "p"%string ->
             In "p"%string (node_ids pre) ->
             resolvedZ (adoptUserNodes z_nodes emptyStore options) k
             = Some (Rmax 5 (ownZ options n))).
  { intros options pre post ref n k Hsplit Hid Hpid Hin.
    destruct (adoptUserNodes_entry z_nodes pre post ref n emptyStore options
                z_nodes_NoDup (z_nodes_built options) Hsplit)
      as [inode [zr [Hget [_ [Hz [_ [Hpar _]]]]]]].
    destruct (Hpar "p"%string Hpid ltac:(discriminate) Hin) as [parent [Hp Hzr]].
    pose proof (z_parent_resolved options) as H5. unfold resolvedZ in H5.
    rewrite Hp in H5.
    unfold resolvedZ. rewrite <- Hid, Hget, Hz, Hzr, H5. reflexivity. }
  split; [apply z_parent_resolved|].
  split.
  { rewrite (Hchild elevateOnSelect [(0%nat, z_parent)] [(2%nat, z_sibling)]
               1%nat z_selected "c"%string eq_refl eq_refl eq_refl
               ltac:(simpl; tauto)).
    unfold ownZ, calculateZ. simpl. f_equal. rewrite Rmax_right by lra. lra. }
  split.
  { simpl. rewrite Rmax_right by lra. lra. }
  split.
  { rewrite (Hchild elevateOnSelect [(0%nat, z_parent); (1%nat, z_selected)] []
               2%nat z_sibling "u"%string eq_refl eq_refl eq_refl
               ltac:(simpl; tauto)).
    unfold ownZ, calculateZ. simpl. f_equal. rewrite Rmax_right by lra. lra. }
  rewrite (Hchild None [(0%nat, z_parent)] [(2%nat, z_sibling)]
             1%nat z_selected "c"%string eq_refl eq_refl eq_refl
             ltac:(simpl; tauto)).
  unfold ownZ, calculateZ. simpl. f_equal. rewrite Rmax_left by lra. lra.
Qed.

(** ** [isValidHandle] *)

Lemma opt_string_eqb_true (a b : option string) :
  opt_string_eqb a b = true <-> a = b.
Proof.
  destruct a as [s|], b as [t|]; simpl; split; intros H;
    try discriminate; try reflexivity.
  - apply String.eqb_eq in H. congruence.
  - injection H as ->. apply String.eqb_refl.
Qed.

(** C5, as the code has it.  [isValidHandle] reports a valid connection
    exactly when the handle element it checks has a node id and carries both
    the [connectable] and the [connectableend] class, the structural rule
    holds, and [isValidConnection] accepts the proposed connection.  The
    structural rule is: in strict mode, a gesture from a source ends on a
    target, or one from a target on a source; in any other mode, the node id
    or the handle id of the end differs from that of the start. *)
Theorem isValidHandle_valid_iff (event : XYPosition) (p : ValidHandleParams) :
  r_isValid (isValidHandle event p) = true
  <-> exists (e : Element) (nodeId : string),
        r_handleDomNode (isValidHandle event p) = Some e
        /\ data_nodeid e = Some nodeId
        /\ nodeId <> EmptyString
        /\ classList_contains e "connectable" = true
        /\ classList_contains e "connectableend" = true
        /\ structuralRule (vh_connectionMode p) (vh_fromType p)
             (vh_fromNodeId p) (vh_fromHandleId p) e
        /\ r_connection (isValidHandle event p)
           = Some (proposedConnection (vh_fromType p) (vh_fromNodeId p)
                     (vh_fromHandleId p) nodeId e)
        /\ vh_isValidConnection p
             (proposedConnection (vh_fromType p) (vh_fromNodeId p)
                (vh_fromHandleId p) nodeId e) = true.
Proof.
  unfold isValidHandle.
  set (handleToCheck :=
         match elementFromPoint (vh_doc p) (x event) (y event) with
         | Some e =>
             if classList_contains e (vh_lib p ++ "-flow__handle")
             then elementFromPoint (vh_doc p) (x event) (y event)
             else
               match vh_handle p with
               | Some h =>
                   querySelector (vh_doc p)
                     (handleSelector (vh_lib p) (vh_flowId p) h)
               | None => None
               end
         | None =>
             match vh_handle p with
             | Some h =>
                 querySelector (vh_doc p)
                   (handleSelector (vh_lib p) (vh_flowId p) h)
             | None => None
             end
         end).
  destruct handleToCheck as [e|]; cbn [r_isValid r_handleDomNode r_connection].
  2: { split; [discriminate | intros [e [n [H _]]]; discriminate]. }
  destruct (data_nodeid e) as [nodeId|] eqn:En; cbn [truthy_str negb nullish].
  2: { cbn [r_isValid r_handleDomNode r_connection].
       split; [discriminate | intros [e' [n [H [H' _]]]]].
       injection H as <-. congruence. }
  destruct (String.eqb nodeId EmptyString) eqn:Ee;
    cbn [negb r_isValid r_handleDomNode r_connection].
  { split; [discriminate | intros [e' [n [H [H' [Hne _]]]]]].
    injection H as <-. rewrite En in H'. injection H' as <-.
    apply String.eqb_eq in Ee. contradiction. }
  apply String.eqb_neq in Ee.
  assert (Hconn :
            {| c_source :=
                 if HandleType_eqb (vh_fromType p) target_type
                 then nodeId else vh_fromNodeId p;
               c_sourceHandle :=
                 if HandleType_eqb (vh_fromType p) target_type
                 then data_handleid e else vh_fromHandleId p;
               c_target :=
                 if HandleType_eqb (vh_fromType p) target_type
                 then vh_fromNodeId p else nodeId;
               c_targetHandle :=
                 if HandleType_eqb (vh_fromType p) target_type
                 then vh_fromHandleId p else data_handleid e |}
            = proposedConnection (vh_fromType p) (vh_fromNodeId p)
                (vh_fromHandleId p) nodeId e)
    by (destruct (vh_fromType p); reflexivity).
  rewrite Hconn.
  assert (Hrule :
            match vh_connectionMode p with
            | Strict =>
                match getHandleType None (Some e) with
                | Some source_type => HandleType_eqb (vh_fromType p) target_type
                | Some target_type =>
                    negb (HandleType_eqb (vh_fromType p) target_type)
                | None => false
                end
            | Loose =>
                negb (String.eqb nodeId (vh_fromNodeId p))
                || negb (opt_string_eqb (data_handleid e) (vh_fromHandleId p))
            end = true
            <-> structuralRule (vh_connectionMode p) (vh_fromType p)
                  (vh_fromNodeId p) (vh_fromHandleId p) e).
  { unfold structuralRule. destruct (vh_connectionMode p).
    - destruct (getHandleType None (Some e)) as [[|]|], (vh_fromType p); simpl;
        split; intros H; try discriminate; try reflexivity;
        try (left; split; reflexivity); try (right; split; reflexivity);
        destruct H as [[H1 H2]|[H1 H2]]; discriminate.
    - rewrite En. rewrite orb_true_iff, !negb_true_iff.
      split; intros [H|H].
      + left. apply String.eqb_neq in H. congruence.
      + right. intros E. apply opt_string_eqb_true in E. congruence.
      + left. apply String.eqb_neq. congruence.
      + right. destruct (opt_string_eqb (data_handleid e) (vh_fromHandleId p)) eqn:E;
          [|reflexivity].
        apply opt_string_eqb_true in E. contradiction. }
  rewrite !andb_true_iff, Hrule.
  split.
  - intros [[[Hc Hce] Hs] Hv].
    exists e, nodeId. repeat split; assumption.
  - intros [e' [n [H [H' [_ [Hc [Hce [Hs [_ Hv]]]]]]]]].
    injection H as <-. rewrite En in H'. injection H' as <-.
    repeat split; assumption.
Qed.

Lemma isValidHandle_valid_iff_witness :
  r_isValid (isValidHandle origin_xy (gestureOver Strict target_of_node_2)) = true.
Proof.
  apply (proj2 (isValidHandle_valid_iff origin_xy
                  (gestureOver Strict target_of_node_2))).
  exists target_of_node_2, "2"%string.
  repeat split; try reflexivity; try discriminate.
  left. split; reflexivity.
Defined.

(** C5 as stated fails.  In strict mode the target handle of the very node and
    handle id the gesture started from is valid; in loose mode that handle, a
    different handle than the start, is not; and a target of another node
    that lacks the [connectableend] class is not valid in either mode. *)
Lemma isValidHandle_not_as_stated :
  r_isValid (isValidHandle origin_xy (gestureOver Strict target_of_node_1)) = true
  /\ r_isValid (isValidHandle origin_xy (gestureOver Loose target_of_node_1)) = false
  /\ r_isValid (isValidHandle origin_xy (gestureOver Strict closed_target_of_node_2))
     = false
  /\ r_isValid (isValidHandle origin_xy (gestureOver Loose closed_target_of_node_2))
     = false.
Proof.
  repeat split; reflexivity.
Qed.

(** ** [getClosestHandle] *)

Lemma handleDistance_handleAt (i : string) (t : HandleType) (hx : R) :
  0 <= hx -> handleDistance origin_xy (handleAt i t hx) = hx.
Proof.
  intros H. unfold handleDistance, handleAt, origin_xy. simpl.
  replace ((hx - 0) * ((hx - 0) * 1) + (0 - 0) * ((0 - 0) * 1)) with (hx * hx)
    by ring.
  apply sqrt_square. exact H.
Qed.

Lemma getClosestHandle_step_inv (pos : XYPosition) (r : R) (st : ClosestLoop)
    (h : Handle) :
  closestLoopInv st -> closestLoopInv (getClosestHandle_step pos r st h).
Proof.
  unfold closestLoopInv, getClosestHandle_step.
  destruct st as [cs md]. simpl. intros Hinv.
  destruct (Rleb (handleDistance pos h) r); [|exact Hinv].
  destruct md as [m|]; simpl; [|discriminate].
  destruct (Rltb (handleDistance pos h) m); simpl; [discriminate|].
  destruct (Reqb (handleDistance pos h) m); simpl.
  - intros H. apply app_eq_nil in H. destruct H as [_ H]. discriminate.
  - intros H. specialize (Hinv H). discriminate.
Qed.

Lemma getClosestHandle_loop_empty (pos : XYPosition) (r : R) (l : list Handle)
    (st : ClosestLoop) :
  closestLoopInv st ->
  fst (fold_left (getClosestHandle_step pos r) l st) = []
  <-> fst st = [] /\ Forall (fun h => r < handleDistance pos h) l.
Proof.
  revert st. induction l as [|h rest IH]; intros st Hinv; simpl.
  - split; [intros H; split; [exact H | constructor] | tauto].
  - rewrite IH by (apply getClosestHandle_step_inv; exact Hinv).
    unfold getClosestHandle_step. destruct st as [cs md].
    destruct (Rleb (handleDistance pos h) r) eqn:E.
    + apply Rleb_true in E. split.
      * intros [H _]. exfalso. simpl in H.
        destruct md as [m|].
        -- destruct (Rltb (handleDistance pos h) m); [discriminate|].
           destruct (Reqb (handleDistance pos h) m).
           ++ apply app_eq_nil in H. destruct H as [_ H]. discriminate.
           ++ specialize (Hinv H). discriminate.
        -- discriminate.
      * intros [_ H]. inversion H; subst. lra.
    + apply Rleb_false in E. split.
      * intros [H1 H2]. split; [exact H1 | constructor; assumption].
      * intros [H1 H2]. inversion H2; subst. split; assumption.
Qed.

(** The part of C2 that holds: the result is [null] exactly when no handle
    lies within the radius. *)
Lemma getClosestHandle_null_iff (pos : XYPosition) (r : R) (m : JSMap Handle) :
  getClosestHandle pos r m = None
  <-> Forall (fun h => r < handleDistance pos h) (map_values m).
Proof.
  unfold getClosestHandle.
  pose proof (getClosestHandle_loop_empty pos r (map_values m) ([], None)
                ltac:(unfold closestLoopInv; reflexivity)) as H.
  simpl in H.
  destruct (fst (fold_left (getClosestHandle_step pos r) (map_values m) ([], None)))
    as [|h [|h' rest]] eqn:E.
  - split; [intros _; apply H; reflexivity | reflexivity].
  - split; [discriminate | intros HF].
    destruct H as [_ H]. specialize (H (conj eq_refl HF)). discriminate.
  - split.
    + destruct (find _ _); discriminate.
    + intros HF. destruct H as [_ H]. specialize (H (conj eq_refl HF)). discriminate.
Qed.

Lemma getClosestHandle_loop_within (pos : XYPosition) (r : R)
    (all l : list Handle) (st : ClosestLoop) :
  (forall h, In h l -> In h all) ->
  Forall (fun h => In h all /\ handleDistance pos h <= r) (fst st) ->
  Forall (fun h => In h all /\ handleDistance pos h <= r)
    (fst (fold_left (getClosestHandle_step pos r) l st)).
Proof.
  revert st. induction l as [|h rest IH]; intros st Hsub Hst; simpl.
  - exact Hst.
  - apply IH; [intros h' Hh'; apply Hsub; right; exact Hh'|].
    unfold getClosestHandle_step. destruct st as [cs md]. simpl in Hst.
    destruct (Rleb (handleDistance pos h) r) eqn:E; [|exact Hst].
    apply Rleb_true in E.
    assert (Hh : In h all /\ handleDistance pos h <= r)
      by (split; [apply Hsub; left; reflexivity | exact E]).
    assert (Hone : Forall (fun h' => In h' all /\ handleDistance pos h' <= r) [h])
      by (constructor; [exact Hh | constructor]).
    destruct md as [m|]; simpl.
    + destruct (Rltb (handleDistance pos h) m); [exact Hone|].
      destruct (Reqb (handleDistance pos h) m); [|exact Hst].
      apply Forall_app. split; [exact Hst | exact Hone].
    + exact Hone.
Qed.

(** What the code does guarantee of a handle it returns: it is a handle of
    the lookup and lies within the radius. *)
Lemma getClosestHandle_within_radius (pos : XYPosition) (r : R)
    (m : JSMap Handle) (h : Handle) :
  getClosestHandle pos r m = Some h ->
  In h (map_values m) /\ handleDistance pos h <= r.
Proof.
  unfold getClosestHandle.
  pose proof (getClosestHandle_loop_within pos r (map_values m) (map_values m)
                ([], None) ltac:(auto) ltac:(constructor)) as HF.
  destruct (fst (fold_left (getClosestHandle_step pos r) (map_values m) ([], None)))
    as [|h0 [|h1 rest]] eqn:E.
  - discriminate.
  - intros H. injection H as <-. inversion HF; subst. assumption.
  - destruct (find (fun c => HandleType_eqb (h_type c) target_type) (h0 :: h1 :: rest))
      as [t|] eqn:Ef.
    + intros H. injection H as <-. apply find_some in Ef. destruct Ef as [Hin _].
      rewrite Forall_forall in HF. apply HF. exact Hin.
    + intros H. injection H as <-. inversion HF; subst. assumption.
Qed.

(** C2 fails on the code: [minDistance] is overwritten by every handle within
    the radius, also by one that is farther than the closest so far.  With
    handles 1, 5 and 3 away, in this order, and a radius of 10, the result is
    the handle 3 away, not the one 1 away.  With a target 1 away, a source 5
    away and a source 1 away, the result is the source, although a target ties
    with it at the least distance. *)
Theorem getClosestHandle_not_closest :
  getClosestHandle origin_xy 10 handles_1_5_3 = Some middle_handle
  /\ handleDistance origin_xy middle_handle = 3
  /\ handleDistance origin_xy near_handle = 1
  /\ getClosestHandle origin_xy 10 handles_1_5_1 = Some near_source_handle
  /\ handleDistance origin_xy near_source_handle = 1
  /\ h_type near_handle = target_type
  /\ h_type near_source_handle = source_type.
Proof.
  assert (H1 : handleDistance origin_xy near_handle = 1)
    by (apply handleDistance_handleAt; lra).
  assert (H5 : handleDistance origin_xy far_handle = 5)
    by (apply handleDistance_handleAt; lra).
  assert (H3 : handleDistance origin_xy middle_handle = 3)
    by (apply handleDistance_handleAt; lra).
  assert (H1' : handleDistance origin_xy near_source_handle = 1)
    by (apply handleDistance_handleAt; lra).
  repeat split; try assumption.
  - unfold getClosestHandle, handles_1_5_3, map_values.
    cbn [List.map snd fold_left]. unfold getClosestHandle_step.
    rewrite H1, H5, H3. decide_R. reflexivity.
  - unfold getClosestHandle, handles_1_5_1, map_values.
    cbn [List.map snd fold_left]. unfold getClosestHandle_step.
    rewrite H1, H5, H1'. decide_R. reflexivity.
Qed.

(** ** Dragging a selection: [updateNodes] *)

(** [calculateNodePosition] returns whenever the node is in the lookup. *)
Lemma calculateNodePosition_returns
    (key : string) (next : XYPosition) (lookup : NodeLookup) (o : NodeOrigin)
    (ne : option CoordinateExtent) (node : InternalNode) :
  map_get lookup key = Some node ->
  exists r errs, calculateNodePosition key next lookup o ne = Some (r, errs).
Proof.
  intros H. unfold calculateNodePosition. rewrite H.
  match goal with
  | |- context [let '(_, _) := ?e in _] => destruct e as [ce errs]
  end.
  eexists. eexists. reflexivity.
Qed.

(** A node without an extent of its own is clamped to the extent it is given,
    narrowed by its size. *)
Lemma calculateNodePosition_no_extent
    (key : string) (next : XYPosition) (lookup : NodeLookup) (o : NodeOrigin)
    (c : CoordinateExtent) (node : InternalNode) :
  map_get lookup key = Some node ->
  extent (base node) = None ->
  exists r,
    calculateNodePosition key next lookup o (Some c) = Some (r, [])
    /\ res_positionAbsolute r
       = clampPosition next
           (extentForSize c (nullish (m_width (measured node)) 0)
              (nullish (m_height (measured node)) 0)).
Proof.
  intros H He. unfold calculateNodePosition. rewrite H, He. simpl.
  destruct (if truthy_str (parentId (base node))
            then map_get lookup (nullish (parentId (base node)) EmptyString)
            else None);
    eexists; split; reflexivity.
Qed.

(** A node without a parent and with a coordinate extent of its own is
    clamped to that extent, narrowed by its size, whatever extent it is
    given. *)
Lemma calculateNodePosition_own_extent
    (key : string) (next : XYPosition) (lookup : NodeLookup) (o : NodeOrigin)
    (ne : option CoordinateExtent) (own : CoordinateExtent) (node : InternalNode) :
  map_get lookup key = Some node ->
  extent (base node) = Some (ExtentCoordinate own) ->
  parentId (base node) = None ->
  exists r,
    calculateNodePosition key next lookup o ne = Some (r, [])
    /\ res_positionAbsolute r
       = clampPosition next
           (extentForSize own (nullish (m_width (measured node)) 0)
              (nullish (m_height (measured node)) 0)).
Proof.
  intros H He Hp. unfold calculateNodePosition. rewrite H, He, Hp. simpl.
  destruct (expandParent (base node)); eexists; split; reflexivity.
Qed.

(** The body of the loop changes the position of a drag item only: what
    [getDragItems] recorded of the node stays. *)
Lemma updateNodes_item_keeps_snapshot (st : DragStoreItems) (p : XYPosition)
    (dragItems : JSMap NodeDragItem) (box : Box) (e : string * NodeDragItem)
    (item' : NodeDragItem) (changed : bool) (errs : list string) :
  updateNodes_item st p dragItems box e = Some (item', changed, errs) ->
  di_id item' = di_id (snd e)
  /\ di_distance item' = di_distance (snd e)
  /\ di_extent item' = di_extent (snd e)
  /\ di_width item' = di_width (snd e)
  /\ di_height item' = di_height (snd e).
Proof.
  unfold updateNodes_item. destruct e as [key item].
  destruct (calculateNodePosition key (dragNextPosition st p item)
              (ds_nodeLookup st) (ds_nodeOrigin st)
              (Some (adjustedNodeExtent (ds_nodeExtent st) dragItems box item)))
    as [[r errs0]|]; [|discriminate].
  intros H. injection H as <- _ _. repeat split.
Qed.

(** A node with an extent of its own is placed without regard to the extent
    it is given. *)
Lemma calculateNodePosition_ignores_given_extent
    (key : string) (next : XYPosition) (lookup : NodeLookup) (o : NodeOrigin)
    (ne ne' : option CoordinateExtent) (node : InternalNode) :
  map_get lookup key = Some node ->
  extent (base node) <> None ->
  calculateNodePosition key next lookup o ne
  = calculateNodePosition key next lookup o ne'.
Proof.
  intros H He. unfold calculateNodePosition. rewrite H.
  destruct (extent (base node)) as [e|]; [reflexivity | contradiction].
Qed.

(** The loop of [updateNodes] returns when its body does for every entry, and
    then leaves the entries in their order, each as its turn leaves it. *)
Lemma updateNodes_loop (st : DragStoreItems) (p : XYPosition)
    (dragItems : JSMap NodeDragItem) (box : Box)
    (items : JSMap NodeDragItem) (acc : DragLoop) :
  (forall e, In e items -> updateNodes_item st p dragItems box e <> None) ->
  exists l news,
    fold_left (updateNodes_step st p dragItems box) items (Some acc) = Some l
    /\ dl_items l = dl_items acc ++ news
    /\ Forall2
         (fun e e' =>
            exists changed errs,
              updateNodes_item st p dragItems box e = Some (snd e', changed, errs)
              /\ fst e' = fst e)
         items news.
Proof.
  revert acc. induction items as [|e rest IH]; intros acc Hall; simpl.
  - exists acc, []. rewrite app_nil_r. repeat split. constructor.
  - destruct (updateNodes_item st p dragItems box e) as [[[item' changed] errs]|] eqn:E.
    2: { exfalso. apply (Hall e); [left; reflexivity | exact E]. }
    destruct (IH {| dl_items := dl_items acc ++ [(fst e, item')];
                    dl_hasChange := dl_hasChange acc || changed;
                    dl_errors := dl_errors acc ++ errs |}
                ltac:(intros e' He'; apply Hall; right; exact He'))
      as [l [news [Hfold [Hitems HF]]]].
    exists l, ((fst e, item') :: news).
    split; [exact Hfold|].
    split.
    + rewrite Hitems. simpl. rewrite <- app_assoc. reflexivity.
    + constructor; [|exact HF]. exists changed, errs. simpl. split; [exact E | reflexivity].
Qed.

Lemma updateNodes_item_returns (st : DragStoreItems) (p : XYPosition)
    (dragItems : JSMap NodeDragItem) (box : Box) (e : string * NodeDragItem)
    (node : InternalNode) :
  map_get (ds_nodeLookup st) (fst e) = Some node ->
  updateNodes_item st p dragItems box e <> None.
Proof.
  intros H. unfold updateNodes_item. destruct e as [key item]. simpl in H.
  destruct (calculateNodePosition_returns key (dragNextPosition st p item)
              (ds_nodeLookup st) (ds_nodeOrigin st)
              (Some (adjustedNodeExtent (ds_nodeExtent st) dragItems box item))
              node H) as [r [errs Hr]].
  rewrite Hr. discriminate.
Qed.

(** [updateNodes] returns when every dragged node is in the lookup, and then
    leaves the drag items in their order, each as the body of the loop leaves
    it. *)
Lemma updateNodes_returns (st : DragStoreItems) (p : XYPosition)
    (dragItems : JSMap NodeDragItem) :
  (forall e, In e dragItems ->
     exists node, map_get (ds_nodeLookup st) (fst e) = Some node) ->
  exists r,
    updateNodes st p dragItems = Some r
    /\ Forall2
         (fun e e' =>
            exists changed errs,
              updateNodes_item st p dragItems (dragNodesBox dragItems) e
              = Some (snd e', changed, errs)
              /\ fst e' = fst e)
         dragItems (un_dragItems r).
Proof.
  intros Hall. unfold updateNodes.
  destruct (updateNodes_loop st p dragItems (dragNodesBox dragItems) dragItems
              {| dl_items := []; dl_hasChange := false; dl_errors := [] |})
    as [l [news [Hfold [Hitems HF]]]].
  { intros e He. destruct (Hall e He) as [node Hnode].
    apply (updateNodes_item_returns st p dragItems _ e node Hnode). }
  rewrite Hfold. eexists. split; [reflexivity|].
  simpl. rewrite Hitems. exact HF.
Qed.

(** The position a drag item without an extent of its own gets, when its node
    has none either and the measured size the drag item recorded. *)
Lemma updateNodes_item_no_extent (st : DragStoreItems) (p : XYPosition)
    (dragItems : JSMap NodeDragItem) (box : Box) (key : string)
    (item item' : NodeDragItem) (changed : bool) (errs : list string)
    (node : InternalNode) :
  updateNodes_item st p dragItems box (key, item) = Some (item', changed, errs) ->
  map_get (ds_nodeLookup st) key = Some node ->
  extent (base node) = None ->
  nullish (m_width (measured node)) 0 = di_width item ->
  nullish (m_height (measured node)) 0 = di_height item ->
  di_positionAbsolute item'
  = clampPosition (dragNextPosition st p item)
      (extentForSize (adjustedNodeExtent (ds_nodeExtent st) dragItems box item)
         (di_width item) (di_height item)).
Proof.
  intros Hitem Hnode He Hw Hh. unfold updateNodes_item in Hitem.
  destruct (calculateNodePosition_no_extent key (dragNextPosition st p item)
              (ds_nodeLookup st) (ds_nodeOrigin st)
              (adjustedNodeExtent (ds_nodeExtent st) dragItems box item)
              node Hnode He) as [r [Hr Hpa]].
  rewrite Hr in Hitem. injection Hitem as <- _ _.
  cbn [di_positionAbsolute]. rewrite Hpa, Hw, Hh. reflexivity.
Qed.

(** In a drag of several nodes, a position is within the extent adjusted for
    a drag item without an extent of its own exactly when the box of the
    dragged nodes, moved as far as that position moves the item, is within the
    global extent. *)
Lemma adjustedNodeExtent_keeps_box_inside
    (nodeExtent : CoordinateExtent) (dragItems : JSMap NodeDragItem)
    (box : Box) (item : NodeDragItem) (q : XYPosition) :
  (1 < map_size dragItems)%nat ->
  di_extent item = None ->
  insideExtent q
    (extentForSize (adjustedNodeExtent nodeExtent dragItems box item)
       (di_width item) (di_height item))
  <-> boxInsideExtent
        (translateBox box (x q - x (di_positionAbsolute item))
           (y q - y (di_positionAbsolute item)))
        nodeExtent.
Proof.
  intros Hsize He. unfold adjustedNodeExtent. rewrite He.
  apply Nat.ltb_lt in Hsize. rewrite Hsize.
  unfold insideExtent, boxInsideExtent, extentForSize, translateBox. simpl.
  split; intros [[H1 H2] [H3 H4]]; repeat split; lra.
Qed.

Lemma updateNodes_item_own_extent (st : DragStoreItems) (p : XYPosition)
    (dragItems : JSMap NodeDragItem) (box : Box) (key : string)
    (item item' : NodeDragItem) (changed : bool) (errs : list string)
    (node : InternalNode) (own : CoordinateExtent) :
  updateNodes_item st p dragItems box (key, item) = Some (item', changed, errs) ->
  map_get (ds_nodeLookup st) key = Some node ->
  extent (base node) = Some (ExtentCoordinate own) ->
  parentId (base node) = None ->
  di_positionAbsolute item'
  = clampPosition (dragNextPosition st p item)
      (extentForSize own (nullish (m_width (measured node)) 0)
         (nullish (m_height (measured node)) 0)).
Proof.
  intros Hitem Hnode He Hp. unfold updateNodes_item in Hitem.
  destruct (calculateNodePosition_own_extent key (dragNextPosition st p item)
              (ds_nodeLookup st) (ds_nodeOrigin st)
              (Some (adjustedNodeExtent (ds_nodeExtent st) dragItems box item))
              own node Hnode He Hp) as [r [Hr Hpa]].
  rewrite Hr in Hitem. injection Hitem as <- _ _.
  cbn [di_positionAbsolute]. exact Hpa.
Qed.

(** C3, as the code has it.  In a drag of several nodes whose nodes are all in
    the lookup, [updateNodes] returns and leaves the drag items in their
    order.  A member without an extent of its own is clamped to the global
    extent adjusted for it, which admits exactly the positions that keep the
    box of the dragged nodes, moved along with the member, within the global
    extent; the extents of the other members play no part.  So the member
    moves by the full delta whenever the box moved by that delta stays within
    the global extent.  A member whose node has an extent of its own is
    clamped by that extent alone: the global extent plays no part. *)
Theorem updateNodes_group_extent (st : DragStoreItems) (p : XYPosition)
    (dragItems : JSMap NodeDragItem) :
  (1 < map_size dragItems)%nat ->
  (forall e, In e dragItems ->
     exists node, map_get (ds_nodeLookup st) (fst e) = Some node) ->
  exists r,
    updateNodes st p dragItems = Some r
    /\ Forall2 (groupMemberRule st p dragItems) dragItems (un_dragItems r).
Proof.
  intros Hsize Hall.
  destruct (updateNodes_returns st p dragItems Hall) as [r [Hr HF]].
  exists r. split; [exact Hr|].
  assert (Hbox : dragNodesBox dragItems = rectToBox (getInternalNodesBounds dragItems)).
  { unfold dragNodesBox. apply Nat.ltb_lt in Hsize. rewrite Hsize. reflexivity. }
  rewrite Hbox in HF.
  revert HF. apply Forall2_impl.
  intros [key item] [key' item'] [changed [errs [Hitem Hkey]]].
  simpl in Hitem, Hkey. subst key'.
  split; [reflexivity|].
  cbn [fst snd].
  split.
  { intros node Hnode Hown ne.
    unfold updateNodes_item in Hitem.
    destruct (calculateNodePosition key (dragNextPosition st p item)
                (ds_nodeLookup st) (ds_nodeOrigin st)
                (Some (adjustedNodeExtent (ds_nodeExtent st) dragItems
                         (rectToBox (getInternalNodesBounds dragItems)) item)))
      as [[r0 errs0]|] eqn:Ecalc; [|discriminate].
    injection Hitem as <- _ _.
    exists r0, errs0. split; [|reflexivity].
    rewrite <- Ecalc.
    apply (calculateNodePosition_ignores_given_extent key _ _ _ _ _ node Hnode Hown). }
  intros node He Hnode Hne Hw Hh.
  set (box := rectToBox (getInternalNodesBounds dragItems)) in *.
  set (lim := extentForSize
                (adjustedNodeExtent (ds_nodeExtent st) dragItems box item)
                (di_width item) (di_height item)).
  assert (Hpos : di_positionAbsolute item'
                 = clampPosition (dragNextPosition st p item) lim)
    by (apply (updateNodes_item_no_extent st p dragItems box key item item'
                 changed errs node Hitem Hnode Hne Hw Hh)).
  assert (Hiff : forall q : XYPosition,
             insideExtent q lim
             <-> boxInsideExtent
                   (translateBox box (x q - x (di_positionAbsolute item))
                      (y q - y (di_positionAbsolute item)))
                   (ds_nodeExtent st))
    by (intros q; apply adjustedNodeExtent_keeps_box_inside; assumption).
  split; [exact Hiff|].
  split; [exact Hpos|].
  intros Hin. rewrite Hpos.
  apply Hiff in Hin. destruct Hin as [Hx Hy].
  apply clampPosition_inside; assumption.
Qed.

(** Decide the minima and maxima of a goal between numerals. *)
Ltac decide_minmax :=
  repeat
    match goal with
    | |- context [Rmin ?a ?b] =>
        first [ rewrite (Rmin_left a b) by lra | rewrite (Rmin_right a b) by lra ]
    | |- context [Rmax ?a ?b] =>
        first [ rewrite (Rmax_left a b) by lra | rewrite (Rmax_right a b) by lra ]
    end.

Lemma drag_items_in_lookup (e : string * NodeDragItem) :
  In e drag_items ->
  exists node, map_get (ds_nodeLookup drag_store) (fst e) = Some node.
Proof.
  intros [<-|[<-|[]]]; eexists; reflexivity.
Qed.

Lemma updateNodes_group_extent_witness :
  exists r,
    updateNodes drag_store {| x := 0; y := 50 |} drag_items = Some r
    /\ Forall2 (groupMemberRule drag_store {| x := 0; y := 50 |} drag_items)
         drag_items (un_dragItems r).
Proof.
  apply updateNodes_group_extent.
  - unfold map_size, drag_items. simpl. apply Nat.lt_succ_diag_r.
  - exact drag_items_in_lookup.
Defined.

Lemma drag_items_box :
  dragNodesBox drag_items
  = {| box_x := 0; box_y := 0; box_x2 := 1000; box_y2 := 100 |}.
Proof.
  unfold dragNodesBox, getInternalNodesBounds, rectToBox, boxToRect,
    getBoundsOfBoxes. simpl.
  decide_minmax. f_equal; lra.
Qed.

(** The positions [updateNodes] gives the two nodes for the pointer at [p]. *)
Lemma drag_items_moved (p : XYPosition) :
  exists r,
    updateNodes drag_store p drag_items = Some r
    /\ List.map (fun e => di_positionAbsolute (snd e)) (un_dragItems r)
       = [ {| x := 900; y := 0 |};
           {| x := clamp (x p) 0 0; y := clamp (y p) 0 900 |} ].
Proof.
  destruct (updateNodes_returns drag_store p drag_items drag_items_in_lookup)
    as [r [Hr HF]].
  exists r. split; [exact Hr|].
  unfold drag_items in HF.
  inversion HF as [|ea [ka' a'] ? ? [ca [ea_errs [Ha Hka]]] HF1]; subst.
  inversion HF1 as [|eb [kb' b'] ? ? [cb [eb_errs [Hb Hkb]]] HF2]; subst.
  inversion HF2; subst.
  cbn [snd] in Ha, Hb. cbn [List.map snd].
  fold drag_items in Ha, Hb.
  rewrite (updateNodes_item_own_extent drag_store p drag_items _ "a" drag_item_a
             a' ca ea_errs drag_node_a pinned_extent Ha eq_refl eq_refl eq_refl).
  rewrite (updateNodes_item_no_extent drag_store p drag_items _ "b" drag_item_b
             b' cb eb_errs drag_node_b Hb eq_refl eq_refl eq_refl eq_refl).
  rewrite drag_items_box.
  unfold clampPosition, extentForSize, adjustedNodeExtent, dragNextPosition.
  simpl.
  assert (Eax : clamp (x p - - 900) 900 (1000 - 100) = 900)
    by (rewrite clamp_crossed by lra; lra).
  assert (Eay : clamp (y p - 0) 0 (100 - 100) = 0)
    by (rewrite clamp_crossed by lra; lra).
  rewrite Eax, Eay.
  replace (0 - 0 + 0) with 0 by ring.
  replace (0 + 10 - 1000 + 1000 - 10) with 0 by ring.
  replace (0 + 10 - 100 + 1000 - 10) with 900 by ring.
  replace (x p - 0) with (x p) by ring.
  replace (y p - 0) with (y p) by ring.
  reflexivity.
Qed.

(** C3 as stated fails when the box of the dragged nodes would leave the
    global extent: with the pointer moved 50 to the right, [a] is held by its
    own extent and [b], which has none and whose next position (50, 0) is well
    within the global extent, does not move either. *)
Lemma updateNodes_member_held_by_group :
  di_extent drag_item_b = None
  /\ dragNextPosition drag_store {| x := 50; y := 0 |} drag_item_b
     = {| x := 50 - 0; y := 0 - 0 |}
  /\ exists r,
       updateNodes drag_store {| x := 50; y := 0 |} drag_items = Some r
       /\ List.map (fun e => di_positionAbsolute (snd e)) (un_dragItems r)
          = [ {| x := 900; y := 0 |}; {| x := 0; y := 0 |} ].
Proof.
  split; [reflexivity|].
  split; [reflexivity|].
  destruct (drag_items_moved {| x := 50; y := 0 |}) as [r [Hr Hpos]].
  exists r. split; [exact Hr|].
  rewrite Hpos. simpl.
  rewrite (clamp_above 50 0 0) by lra.
  rewrite (clamp_inside 0 0 900) by lra.
  reflexivity.
Qed.

(** With the pointer moved 50 down the box stays within the global extent:
    [b] moves by the full delta while [a] is held by its own extent. *)
Lemma updateNodes_member_moves_freely :
  exists r,
    updateNodes drag_store {| x := 0; y := 50 |} drag_items = Some r
    /\ List.map (fun e => di_positionAbsolute (snd e)) (un_dragItems r)
       = [ {| x := 900; y := 0 |}; {| x := 0; y := 50 |} ].
Proof.
  destruct (drag_items_moved {| x := 0; y := 50 |}) as [r [Hr Hpos]].
  exists r. split; [exact Hr|].
  rewrite Hpos. simpl.
  rewrite (clamp_inside 0 0 0) by lra.
  rewrite (clamp_inside 50 0 900) by lra.
  reflexivity.
Qed.

(* ================================================================= *)
(** * Properties of the further functions *)

(** ** Rounding *)

Lemma Math_floor_bounds (v : R) : Math_floor v <= v < Math_floor v + 1.
Proof.
  unfold Math_floor. destruct (base_Int_part v) as [H1 H2]. lra.
Qed.

Lemma Math_ceil_bounds (v : R) : v <= Math_ceil v < v + 1.
Proof.
  unfold Math_ceil. rewrite opp_IZR.
  destruct (base_Int_part (- v)) as [H1 H2]. lra.
Qed.

Lemma Math_round_bounds (v : R) : v - / 2 < Math_round v <= v + / 2.
Proof.
  unfold Math_round. destruct (base_Int_part (v + / 2)) as [H1 H2]. lra.
Qed.

Lemma Math_round_IZR (k : Z) : Math_round (IZR k) = IZR k.
Proof.
  unfold Math_round. f_equal. symmetry. apply Int_part_spec. lra.
Qed.

Lemma Math_ceil_0 : Math_ceil 0 = 0.
Proof.
  unfold Math_ceil. rewrite Ropp_0.
  replace (Int_part 0) with 0%Z; [reflexivity|].
  apply Int_part_spec. lra.
Qed.

(** ** Rectangles and boxes *)

Lemma boxToRect_rectToBox (r : Rect) : boxToRect (rectToBox r) = r.
Proof.
  destruct r as [rx ry rw rh]. unfold boxToRect, rectToBox. simpl.
  f_equal; ring.
Qed.

Lemma rectToBox_boxToRect (b : Box) : rectToBox (boxToRect b) = b.
Proof.
  destruct b as [bx b_y bx2 by2]. unfold boxToRect, rectToBox. simpl.
  f_equal; ring.
Qed.

(** X1.  [rectToBox] and [boxToRect] are inverse to each other. *)
Theorem rect_box_round_trip (r : Rect) (b : Box) :
  boxToRect (rectToBox r) = r /\ rectToBox (boxToRect b) = b.
Proof.
  destruct r as [rx ry rw rh], b as [bx b_y bx2 by2].
  unfold boxToRect, rectToBox. simpl.
  split; f_equal; ring.
Qed.

Lemma getBoundsOfBoxes_contains (a b : Box) :
  boxContains (getBoundsOfBoxes a b) a /\ boxContains (getBoundsOfBoxes a b) b.
Proof.
  unfold boxContains, getBoundsOfBoxes. simpl.
  repeat split;
    try apply Rmin_l; try apply Rmin_r; try apply Rmax_l; try apply Rmax_r.
Qed.

Lemma getBoundsOfBoxes_within (a b c : Box) :
  boxContains c a -> boxContains c b -> boxContains c (getBoundsOfBoxes a b).
Proof.
  unfold boxContains, getBoundsOfBoxes. simpl. intros Ha Hb.
  repeat split.
  - apply Rmin_glb; tauto.
  - apply Rmin_glb; tauto.
  - apply Rmax_lub; tauto.
  - apply Rmax_lub; tauto.
Qed.

(** X2.  [getBoundsOfBoxes] is the least box that contains both boxes: it
    contains them, and every box that contains them contains it. *)
Theorem getBoundsOfBoxes_least (a b : Box) :
  boxContains (getBoundsOfBoxes a b) a
  /\ boxContains (getBoundsOfBoxes a b) b
  /\ forall c : Box,
       boxContains c a -> boxContains c b -> boxContains c (getBoundsOfBoxes a b).
Proof.
  unfold boxContains, getBoundsOfBoxes. simpl.
  repeat split;
    try apply Rmin_l; try apply Rmin_r; try apply Rmax_l; try apply Rmax_r.
  - apply Rmin_glb; tauto.
  - apply Rmin_glb; tauto.
  - apply Rmax_lub; tauto.
  - apply Rmax_lub; tauto.
Qed.

Lemma boxContains_refl (a : Box) : boxContains a a.
Proof. unfold boxContains. lra. Qed.

Lemma boxContains_trans (a b c : Box) :
  boxContains a b -> boxContains b c -> boxContains a c.
Proof. unfold boxContains. lra. Qed.

(** The loop of [getInternalNodesBounds]. *)
Lemma bounds_fold_least {N : Type} `{Boxed N} (l : list N) (b0 : Box) :
  let b := fold_left (fun b node => getBoundsOfBoxes b (nodeToBox node)) l b0 in
  boxContains b b0
  /\ (forall node, In node l -> boxContains b (nodeToBox node))
  /\ forall c : Box,
       boxContains c b0 ->
       (forall node, In node l -> boxContains c (nodeToBox node)) ->
       boxContains c b.
Proof.
  revert b0. induction l as [|n rest IH]; intros b0; simpl.
  - split; [apply boxContains_refl|]. split; [intros node []|]. intros c Hc _. exact Hc.
  - destruct (IH (getBoundsOfBoxes b0 (nodeToBox n))) as [H0 [Hin Hleast]].
    destruct (getBoundsOfBoxes_contains b0 (nodeToBox n)) as [G0 Gn].
    pose proof (getBoundsOfBoxes_within b0 (nodeToBox n)) as Gleast.
    split; [eapply boxContains_trans; eassumption|].
    split.
    + intros node [<-|Hnode]; [eapply boxContains_trans; eassumption | apply Hin; exact Hnode].
    + intros c Hc Hall. apply Hleast.
      * apply Gleast; [exact Hc | apply Hall; left; reflexivity].
      * intros node Hnode. apply Hall. right. exact Hnode.
Qed.

(** X3.  For a map that is not empty, the bounds [getInternalNodesBounds]
    returns are those of the least box that contains the box of every node. *)
Theorem getInternalNodesBounds_least {N : Type} `{Boxed N} (m : JSMap N) :
  m <> [] ->
  (forall node, In node (map_values m) ->
     boxContains (rectToBox (getInternalNodesBounds m)) (nodeToBox node))
  /\ forall c : Box,
       (forall node, In node (map_values m) -> boxContains c (nodeToBox node)) ->
       boxContains c (rectToBox (getInternalNodesBounds m)).
Proof.
  intros Hm. unfold getInternalNodesBounds.
  destruct m as [|[k first] rest]; [contradiction|]. simpl.
  rewrite rectToBox_boxToRect.
  destruct (bounds_fold_least (map_values rest) (nodeToBox first)) as [H0 [Hin Hleast]].
  split.
  - intros node [<-|Hnode]; [exact H0 | apply Hin; exact Hnode].
  - intros c Hall. apply Hleast.
    + apply Hall. left. reflexivity.
    + intros node Hnode. apply Hall. right. exact Hnode.
Qed.

Lemma getInternalNodesBounds_least_witness :
  boxContains (rectToBox (getInternalNodesBounds drag_items))
    (nodeToBox drag_item_b).
Proof.
  apply (proj1 (getInternalNodesBounds_least drag_items ltac:(discriminate))).
  right. left. reflexivity.
Defined.

(** X4.  The overlapping area of two rectangles does not depend on their
    order and is never negative; it is 0 when the rectangles lie apart, and
    otherwise (sizes not negative) the area they share, rounded up. *)
Theorem getOverlappingArea_shared (a b : Rect) :
  getOverlappingArea a b = getOverlappingArea b a
  /\ 0 <= getOverlappingArea a b
  /\ (rectsApart a b -> getOverlappingArea a b = 0)
  /\ (rectProper a -> rectProper b -> ~ rectsApart a b ->
      getOverlappingArea a b = Math_ceil (sharedArea a b)
      /\ sharedArea a b <= getOverlappingArea a b < sharedArea a b + 1).
Proof.
  unfold getOverlappingArea, sharedArea, rectsApart, rectProper.
  set (dx := Rmin (rect_x a + rect_width a) (rect_x b + rect_width b)
             - Rmax (rect_x a) (rect_x b)).
  set (dy := Rmin (rect_y a + rect_height a) (rect_y b + rect_height b)
             - Rmax (rect_y a) (rect_y b)).
  split.
  { subst dx dy.
    rewrite (Rmin_comm (rect_x b + rect_width b)), (Rmax_comm (rect_x b)),
      (Rmin_comm (rect_y b + rect_height b)), (Rmax_comm (rect_y b)).
    reflexivity. }
  assert (Hx0 : 0 <= Rmax 0 dx) by apply Rmax_l.
  assert (Hy0 : 0 <= Rmax 0 dy) by apply Rmax_l.
  split.
  { apply Rle_trans with (Rmax 0 dx * Rmax 0 dy).
    - apply Rmult_le_pos; assumption.
    - apply Math_ceil_bounds. }
  split.
  { intros Hapart.
    assert (Hzero : Rmax 0 dx = 0 \/ Rmax 0 dy = 0).
    { subst dx dy.
      destruct Hapart as [H|[H|[H|H]]]; [left|left|right|right];
        apply Rmax_left;
        match goal with
        | |- Rmin ?p ?q - Rmax ?r ?s <= 0 =>
            pose proof (Rmin_l p q); pose proof (Rmin_r p q);
            pose proof (Rmax_l r s); pose proof (Rmax_r r s); lra
        end. }
    destruct Hzero as [-> | ->].
    - rewrite Rmult_0_l. apply Math_ceil_0.
    - rewrite Rmult_0_r. apply Math_ceil_0. }
  intros [Haw Hah] [Hbw Hbh] Hnot.
  assert (Hdx : 0 <= dx).
  { subst dx.
    enough (Rmax (rect_x a) (rect_x b)
            <= Rmin (rect_x a + rect_width a) (rect_x b + rect_width b)) by lra.
    apply Rmax_lub; apply Rmin_glb; lra. }
  assert (Hdy : 0 <= dy).
  { subst dy.
    enough (Rmax (rect_y a) (rect_y b)
            <= Rmin (rect_y a + rect_height a) (rect_y b + rect_height b)) by lra.
    apply Rmax_lub; apply Rmin_glb; lra. }
  rewrite (Rmax_right 0 dx), (Rmax_right 0 dy) by assumption.
  split; [reflexivity | apply Math_ceil_bounds].
Qed.

Lemma getOverlappingArea_shared_witness :
  getOverlappingArea square_at_origin square_at_5_5
  = Math_ceil (sharedArea square_at_origin square_at_5_5)
  /\ sharedArea square_at_origin square_at_5_5
     <= getOverlappingArea square_at_origin square_at_5_5
     < sharedArea square_at_origin square_at_5_5 + 1.
Proof.
  destruct (getOverlappingArea_shared square_at_origin square_at_5_5)
    as [_ [_ [_ H]]].
  apply H; unfold rectProper, rectsApart; simpl; lra.
Defined.

(** X5.  [getBoundsOfRects] gives the rectangle of the least box that
    contains both rectangles; the order of the rectangles does not matter,
    and a rectangle united with itself is that rectangle. *)
Theorem getBoundsOfRects_least (r1 r2 : Rect) :
  rectToBox (getBoundsOfRects r1 r2)
  = getBoundsOfBoxes (rectToBox r1) (rectToBox r2)
  /\ boxContains (rectToBox (getBoundsOfRects r1 r2)) (rectToBox r1)
  /\ boxContains (rectToBox (getBoundsOfRects r1 r2)) (rectToBox r2)
  /\ getBoundsOfRects r1 r2 = getBoundsOfRects r2 r1
  /\ getBoundsOfRects r1 r1 = r1.
Proof.
  unfold getBoundsOfRects.
  rewrite rectToBox_boxToRect.
  destruct (getBoundsOfBoxes_contains (rectToBox r1) (rectToBox r2)) as [H1 H2].
  split; [reflexivity|].
  split; [exact H1|].
  split; [exact H2|].
  split.
  - unfold getBoundsOfBoxes.
    rewrite (Rmin_comm (box_x (rectToBox r1))), (Rmin_comm (box_y (rectToBox r1))),
      (Rmax_comm (box_x2 (rectToBox r1))), (Rmax_comm (box_y2 (rectToBox r1))).
    reflexivity.
  - unfold getBoundsOfBoxes.
    rewrite !Rmin_left, !Rmax_left by lra.
    destruct r1 as [rx ry rw rh]. unfold boxToRect, rectToBox. simpl.
    f_equal; ring.
Qed.

(** ** Clamping and snapping *)

(** X6.  Clamping a position twice is clamping it once; a position within
    the extent is left alone; and when the extent's minimum is not beyond its
    maximum the clamped position lies within the extent. *)
Theorem clampPosition_idempotent (p : XYPosition) (e : CoordinateExtent) :
  clampPosition (clampPosition p e) e = clampPosition p e
  /\ (insideExtent p e -> clampPosition p e = p)
  /\ (extentOrdered e -> insideExtent (clampPosition p e) e).
Proof.
  split.
  { unfold clampPosition. simpl. f_equal.
    - destruct (Rle_dec (fst (fst e)) (fst (snd e))) as [H|H].
      + apply clamp_inside. split; [apply clamp_ge_min; exact H | apply clamp_le_max].
      + rewrite !clamp_crossed by lra. reflexivity.
    - destruct (Rle_dec (snd (fst e)) (snd (snd e))) as [H|H].
      + apply clamp_inside. split; [apply clamp_ge_min; exact H | apply clamp_le_max].
      + rewrite !clamp_crossed by lra. reflexivity. }
  split.
  { intros [Hx Hy]. apply clampPosition_inside; assumption. }
  intros [Hx Hy]. unfold insideExtent, clampPosition. simpl.
  repeat split; first [ apply clamp_ge_min; assumption | apply clamp_le_max ].
Qed.

Lemma clampPosition_idempotent_witness :
  insideExtent (clampPosition {| x := 5000; y := - 3 |} ((0, 0), (1000, 1000)))
    ((0, 0), (1000, 1000)).
Proof.
  apply (proj2 (proj2 (clampPosition_idempotent {| x := 5000; y := - 3 |}
                         ((0, 0), (1000, 1000))))).
  unfold extentOrdered. simpl. lra.
Defined.

(** X7.  On a grid of positive steps, [snapPosition] gives a point of the
    grid (each coordinate an integer multiple of the step) that is at most
    half a step away from the position on each axis; a snapped position snaps
    to itself. *)
Theorem snapPosition_on_grid (p : XYPosition) (snapGrid : R * R) :
  0 < fst snapGrid ->
  0 < snd snapGrid ->
  (exists kx ky : Z,
      x (snapPosition p snapGrid) = fst snapGrid * IZR kx
      /\ y (snapPosition p snapGrid) = snd snapGrid * IZR ky)
  /\ Rabs (x (snapPosition p snapGrid) - x p) <= fst snapGrid / 2
  /\ Rabs (y (snapPosition p snapGrid) - y p) <= snd snapGrid / 2
  /\ snapPosition (snapPosition p snapGrid) snapGrid = snapPosition p snapGrid.
Proof.
  intros Hgx Hgy. destruct snapGrid as [gx gy]. simpl in Hgx, Hgy.
  unfold snapPosition. simpl.
  assert (Hnear : forall g v : R, 0 < g ->
             Rabs (g * Math_round (v / g) - v) <= g / 2).
  { intros g v Hg. pose proof (Math_round_bounds (v / g)) as [H1 H2].
    replace (g * Math_round (v / g) - v) with (g * (Math_round (v / g) - v / g))
      by (field; lra).
    rewrite Rabs_mult, (Rabs_pos_eq g) by lra.
    unfold Rdiv at 3. apply Rmult_le_compat_l; [lra|].
    apply Rabs_le. lra. }
  assert (Hagain : forall g v : R, 0 < g ->
             g * Math_round (g * Math_round (v / g) / g) = g * Math_round (v / g)).
  { intros g v Hg. unfold Math_round at 2.
    replace (g * IZR (Int_part (v / g + / 2)) / g) with (IZR (Int_part (v / g + / 2)))
      by (field; lra).
    rewrite Math_round_IZR. reflexivity. }
  split.
  { exists (Int_part (x p / gx + / 2)), (Int_part (y p / gy + / 2)).
    split; reflexivity. }
  split; [apply Hnear; exact Hgx|].
  split; [apply Hnear; exact Hgy|].
  rewrite !Hagain by assumption. reflexivity.
Qed.

Lemma snapPosition_on_grid_witness :
  Rabs (x (snapPosition {| x := 37; y := 52 |} (15, 15)) - 37) <= 15 / 2
  /\ snapPosition (snapPosition {| x := 37; y := 52 |} (15, 15)) (15, 15)
     = snapPosition {| x := 37; y := 52 |} (15, 15).
Proof.
  destruct (snapPosition_on_grid {| x := 37; y := 52 |} (15, 15)
              ltac:(simpl; lra) ltac:(simpl; lra)) as [_ [H1 [_ H2]]].
  split; [exact H1 | exact H2].
Defined.

(** ** Queries on nodes and edges *)

Lemma id_in_true (i : string) (ids : list string) :
  id_in i ids = true <-> In i ids.
Proof.
  unfold id_in. rewrite existsb_exists. split.
  - intros [j [Hin Heq]]. apply String.eqb_eq in Heq. subst j. exact Hin.
  - intros Hin. exists i. split; [exact Hin | apply String.eqb_refl].
Qed.

Lemma getOutgoers_In (node n : NodeBase) (nodes : list NodeBase) (edges : list Edge) :
  In n (getOutgoers node nodes edges)
  <-> id node <> EmptyString /\ In n nodes
      /\ exists e, In e edges /\ source e = id node /\ target e = id n.
Proof.
  unfold getOutgoers.
  destruct (String.eqb (id node) EmptyString) eqn:E.
  - apply String.eqb_eq in E. split; [intros [] | intros [H _]; contradiction].
  - apply String.eqb_neq in E. rewrite filter_In, id_in_true, in_map_iff.
    split.
    + intros [Hn [e [Ht He]]]. apply filter_In in He. destruct He as [He Hs].
      apply String.eqb_eq in Hs. split; [exact E|]. split; [exact Hn|].
      exists e. auto.
    + intros [_ [Hn [e [He [Hs Ht]]]]]. split; [exact Hn|].
      exists e. split; [exact Ht|]. apply filter_In. split; [exact He|].
      apply String.eqb_eq. exact Hs.
Qed.

Lemma getIncomers_In (node n : NodeBase) (nodes : list NodeBase) (edges : list Edge) :
  In n (getIncomers node nodes edges)
  <-> id node <> EmptyString /\ In n nodes
      /\ exists e, In e edges /\ target e = id node /\ source e = id n.
Proof.
  unfold getIncomers.
  destruct (String.eqb (id node) EmptyString) eqn:E.
  - apply String.eqb_eq in E. split; [intros [] | intros [H _]; contradiction].
  - apply String.eqb_neq in E. rewrite filter_In, id_in_true, in_map_iff.
    split.
    + intros [Hn [e [Ht He]]]. apply filter_In in He. destruct He as [He Hs].
      apply String.eqb_eq in Hs. split; [exact E|]. split; [exact Hn|].
      exists e. auto.
    + intros [_ [Hn [e [He [Hs Ht]]]]]. split; [exact Hn|].
      exists e. split; [exact Ht|]. apply filter_In. split; [exact He|].
      apply String.eqb_eq. exact Hs.
Qed.

(** X8.  A node is an outgoer of [a] exactly when it is one of the nodes and
    some edge leads from [a] to it, and an incomer of [b] exactly when it is
    one of the nodes and some edge leads from it to [b]; a node without an id
    has neither.  So among the given nodes (with ids), [b] is an outgoer of
    [a] exactly when [a] is an incomer of [b]. *)
Theorem getOutgoers_getIncomers_dual
    (a b : NodeBase) (nodes : list NodeBase) (edges : list Edge) :
  (In b (getOutgoers a nodes edges)
   <-> id a <> EmptyString /\ In b nodes
       /\ exists e, In e edges /\ source e = id a /\ target e = id b)
  /\ (In a (getIncomers b nodes edges)
      <-> id b <> EmptyString /\ In a nodes
          /\ exists e, In e edges /\ target e = id b /\ source e = id a)
  /\ (id a <> EmptyString -> id b <> EmptyString -> In a nodes -> In b nodes ->
      (In b (getOutgoers a nodes edges) <-> In a (getIncomers b nodes edges))).
Proof.
  split; [apply getOutgoers_In|].
  split; [apply getIncomers_In|].
  intros Ha Hb Hina Hinb. rewrite getOutgoers_In, getIncomers_In.
  split.
  - intros [_ [_ [e [He [Hs Ht]]]]]. split; [exact Hb|]. split; [exact Hina|].
    exists e. auto.
  - intros [_ [_ [e [He [Ht Hs]]]]]. split; [exact Ha|]. split; [exact Hinb|].
    exists e. auto.
Qed.

Lemma getOutgoers_getIncomers_dual_witness :
  In node_b (getOutgoers node_a [node_a; node_b] [edge_e1])
  <-> In node_a (getIncomers node_b [node_a; node_b] [edge_e1]).
Proof.
  apply (proj2 (proj2 (getOutgoers_getIncomers_dual node_a node_b
                         [node_a; node_b] [edge_e1])));
    try discriminate; simpl; tauto.
Defined.

(** X9.  [getConnectedEdges] keeps exactly the edges whose source or target
    is one of the nodes, in their order: the connected edges of a concatenation
    are those of its parts, one after the other.  Without nodes there are
    none, and the connected edges of the connected edges are all of them. *)
Theorem getConnectedEdges_In (nodes : list NodeBase) (edges more : list Edge) :
  (forall e, In e (getConnectedEdges nodes edges)
             <-> In e edges
                 /\ exists n, In n nodes /\ (id n = source e \/ id n = target e))
  /\ getConnectedEdges nodes (edges ++ more)
     = getConnectedEdges nodes edges ++ getConnectedEdges nodes more
  /\ getConnectedEdges [] edges = []
  /\ getConnectedEdges nodes (getConnectedEdges nodes edges)
     = getConnectedEdges nodes edges.
Proof.
  assert (Hin : forall e, id_in (source e) (List.map id nodes)
                          || id_in (target e) (List.map id nodes) = true
                          <-> exists n, In n nodes
                                        /\ (id n = source e \/ id n = target e)).
  { intros e. rewrite orb_true_iff, !id_in_true, !in_map_iff. split.
    - intros [[n [H1 H2]]|[n [H1 H2]]]; exists n; auto.
    - intros [n [Hn [H|H]]]; [left|right]; exists n; auto. }
  split.
  { intros e. unfold getConnectedEdges. rewrite filter_In, Hin. reflexivity. }
  split.
  { unfold getConnectedEdges. apply filter_app. }
  split.
  { unfold getConnectedEdges. simpl. induction edges as [|e rest IH]; simpl; auto. }
  unfold getConnectedEdges.
  induction edges as [|e rest IH]; simpl; [reflexivity|].
  destruct (id_in (source e) (List.map id nodes)
            || id_in (target e) (List.map id nodes)) eqn:E; simpl.
  - rewrite E. f_equal. exact IH.
  - exact IH.
Qed.

(** ** [reconnectEdge] *)

Lemma find_edge_id_None (i : option string) (edges : list Edge) :
  find (edge_id_is i) edges = None <-> countEdgeId i edges = 0%nat.
Proof.
  unfold countEdgeId. induction edges as [|e rest IH]; simpl.
  - tauto.
  - destruct (edge_id_is i e); simpl; [split; discriminate | exact IH].
Qed.

Lemma HandleRef_strict_eq_refl (h : HandleRef) : HandleRef_strict_eq h h = true.
Proof. destruct h as [| |s]; simpl; try reflexivity. apply String.eqb_refl. Qed.

Lemma length_filter_negb {A : Type} (f : A -> bool) (l : list A) :
  (List.length (filter (fun a => negb (f a)) l) + List.length (filter f l))%nat
  = List.length l.
Proof.
  induction l as [|a rest IH]; simpl; [reflexivity|].
  destruct (f a); simpl; lia.
Qed.

(** X10.  [reconnectEdge] returns the edges as they are when the new
    connection lacks a source or a target or no edge has the id of the old
    edge.  Otherwise it removes every edge with that id, keeps all others in
    their order and appends one edge, which has the new connection and either
    the id made from it or the old id. *)
Theorem reconnectEdge_replaces
    (oldEdge newConnection : Edge) (edges : list Edge) (shouldReplaceId : bool) :
  (source newConnection = EmptyString \/ target newConnection = EmptyString
   \/ countEdgeId (edge_id oldEdge) edges = 0%nat ->
   reconnectEdge oldEdge newConnection edges shouldReplaceId = edges)
  /\ (source newConnection <> EmptyString ->
      target newConnection <> EmptyString ->
      countEdgeId (edge_id oldEdge) edges <> 0%nat ->
      exists kept edge,
        reconnectEdge oldEdge newConnection edges shouldReplaceId = kept ++ [edge]
        /\ kept = filter (fun e => negb (edge_id_is (edge_id oldEdge) e)) edges
        /\ (forall e, In e kept <-> In e edges /\ edge_id e <> edge_id oldEdge)
        /\ List.length (kept ++ [edge])
           = (List.length edges - countEdgeId (edge_id oldEdge) edges + 1)%nat
        /\ sameConnection newConnection edge = true
        /\ sourceHandle edge = sourceHandle newConnection
        /\ targetHandle edge = targetHandle newConnection
        /\ edge_id edge
           = if shouldReplaceId then Some (getEdgeId newConnection)
             else edge_id oldEdge).
Proof.
  split.
  - intros H. unfold reconnectEdge.
    destruct (String.eqb (source newConnection) EmptyString) eqn:Es; [reflexivity|].
    destruct (String.eqb (target newConnection) EmptyString) eqn:Et; [reflexivity|].
    apply String.eqb_neq in Es. apply String.eqb_neq in Et.
    destruct H as [H|[H|H]]; try contradiction.
    apply find_edge_id_None in H. simpl. rewrite H. reflexivity.
  - intros Hs Ht Hc. unfold reconnectEdge.
    apply String.eqb_neq in Hs. apply String.eqb_neq in Ht. rewrite Hs, Ht. simpl.
    destruct (find (edge_id_is (edge_id oldEdge)) edges) as [found|] eqn:Ef.
    2: { apply find_edge_id_None in Ef. contradiction. }
    eexists. eexists. split; [reflexivity|].
    split; [reflexivity|].
    split.
    { intros e. rewrite filter_In. unfold edge_id_is.
      rewrite negb_true_iff. split; intros [H1 H2]; split; try exact H1.
      - intros E. apply opt_string_eqb_true in E. rewrite E in H2. discriminate.
      - destruct (opt_string_eqb (edge_id e) (edge_id oldEdge)) eqn:E; [|reflexivity].
        apply opt_string_eqb_true in E. contradiction. }
    split.
    { rewrite length_app. simpl. unfold countEdgeId.
      pose proof (length_filter_negb (edge_id_is (edge_id oldEdge)) edges). lia. }
    split.
    { unfold sameConnection. simpl.
      rewrite !String.eqb_refl, !HandleRef_strict_eq_refl. reflexivity. }
    repeat split.
Qed.

Lemma reconnectEdge_replaces_witness :
  exists kept edge,
    reconnectEdge edge_e1 edge_a_b [edge_e1; edge_e2] true = kept ++ [edge]
    /\ sameConnection edge_a_b edge = true
    /\ (forall e, In e kept <-> In e [edge_e1; edge_e2] /\ edge_id e <> edge_id edge_e1).
Proof.
  destruct (proj2 (reconnectEdge_replaces edge_e1 edge_a_b [edge_e1; edge_e2] true)
              ltac:(discriminate) ltac:(discriminate) ltac:(discriminate))
    as [kept [edge [H1 [_ [H3 [_ [H5 _]]]]]]].
  exists kept, edge. split; [exact H1|]. split; [exact H5 | exact H3].
Defined.

(** ** Edge centres and z index *)

(** X11.  [getEdgeCenter] gives the midpoint of source and target, whichever
    of the two comes first on an axis, and half their distance on each axis. *)
Theorem getEdgeCenter_midpoint (sourceX sourceY targetX targetY : R) :
  getEdgeCenter sourceX sourceY targetX targetY
  = ((sourceX + targetX) / 2, (sourceY + targetY) / 2,
     Rabs (targetX - sourceX) / 2, Rabs (targetY - sourceY) / 2).
Proof.
  unfold getEdgeCenter.
  assert (H : forall s t : R,
             (if Rltb t s then t + Rabs (t - s) / 2 else t - Rabs (t - s) / 2)
             = (s + t) / 2).
  { intros s t. destruct (Rltb t s) eqn:E.
    - apply Rltb_true in E. rewrite Rabs_left by lra. lra.
    - apply Rltb_false in E. rewrite Rabs_pos_eq by lra. lra. }
  rewrite !H. reflexivity.
Qed.

(** X12.  The centre [getBezierEdgeCenter] returns is the point of the cubic
    Bezier curve through the four points at the parameter one half, and the
    offsets are its distances from the source on each axis. *)
Theorem getBezierEdgeCenter_half
    (sourceX sourceY targetX targetY
     sourceControlX sourceControlY targetControlX targetControlY : R) :
  getBezierEdgeCenter sourceX sourceY targetX targetY
    sourceControlX sourceControlY targetControlX targetControlY
  = (cubicBezier (1 / 2) sourceX sourceControlX targetControlX targetX,
     cubicBezier (1 / 2) sourceY sourceControlY targetControlY targetY,
     Rabs (cubicBezier (1 / 2) sourceX sourceControlX targetControlX targetX
           - sourceX),
     Rabs (cubicBezier (1 / 2) sourceY sourceControlY targetControlY targetY
           - sourceY)).
Proof.
  unfold getBezierEdgeCenter.
  assert (H : forall p0 p1 p2 p3 : R,
             p0 * (125 / 1000) + p1 * (375 / 1000) + p2 * (375 / 1000)
             + p3 * (125 / 1000)
             = cubicBezier (1 / 2) p0 p1 p2 p3)
    by (intros; unfold cubicBezier; field).
  rewrite !H. reflexivity.
Qed.

Lemma or_zero_nullish (v : option R) : or_zero v = nullish v 0.
Proof.
  destruct v as [r|]; simpl; [|reflexivity].
  destruct (Reqb r 0) eqn:E; [|reflexivity].
  apply Reqb_true in E. symmetry. exact E.
Qed.

(** X13.  Without [elevateOnSelect], or when neither the edge nor one of its
    nodes is selected, the edge keeps its z index.  Otherwise the index is
    raised by the largest of 1000 and the z of the two nodes: by at least
    1000, and by at least the z of either node. *)
Theorem getElevatedEdgeZIndex_raise
    (sourceNode targetNode : InternalNode) (edgeSelected : bool)
    (edgeZIndex : R) (elevateOnSelect : bool) :
  let r :=
    getElevatedEdgeZIndex sourceNode targetNode edgeSelected edgeZIndex
      elevateOnSelect in
  let anySelected :=
    edgeSelected || selected (base targetNode) || selected (base sourceNode) in
  (elevateOnSelect = false \/ anySelected = false -> r = edgeZIndex)
  /\ (elevateOnSelect = true -> anySelected = true ->
      edgeZIndex + 1000 <= r
      /\ edgeZIndex + nullish (z (internals sourceNode)) 0 <= r
      /\ edgeZIndex + nullish (z (internals targetNode)) 0 <= r
      /\ (r = edgeZIndex + 1000
          \/ r = edgeZIndex + nullish (z (internals sourceNode)) 0
          \/ r = edgeZIndex + nullish (z (internals targetNode)) 0)).
Proof.
  intros r anySelected. subst r anySelected.
  unfold getElevatedEdgeZIndex. rewrite !or_zero_nullish.
  set (zs := nullish (z (internals sourceNode)) 0).
  set (zt := nullish (z (internals targetNode)) 0).
  split.
  - intros [->| ->]; simpl; [reflexivity|].
    destruct elevateOnSelect; simpl; lra.
  - intros -> ->. simpl.
    pose proof (Rmax_l (Rmax zs zt) 1000). pose proof (Rmax_r (Rmax zs zt) 1000).
    pose proof (Rmax_l zs zt). pose proof (Rmax_r zs zt).
    repeat split; try lra.
    unfold Rmax. destruct (Rle_dec (if Rle_dec zs zt then zt else zs) 1000);
      destruct (Rle_dec zs zt); auto.
Qed.

Lemma getElevatedEdgeZIndex_raise_witness :
  0 + 1000 <= getElevatedEdgeZIndex parent_100 child_fitting true 0 true.
Proof.
  destruct (getElevatedEdgeZIndex_raise parent_100 child_fitting true 0 true)
    as [_ H].
  destruct (H eq_refl eq_refl) as [H1 _]. exact H1.
Defined.

(** ** [getElementsToRemove] *)

Lemma has_id_true (ids : list (option string)) (i : option string) :
  has_id ids i = true <-> In i ids.
Proof.
  unfold has_id. rewrite existsb_exists. split.
  - intros [j [Hin Heq]]. apply opt_string_eqb_true in Heq. subst j. exact Hin.
  - intros Hin. exists i. split; [exact Hin | apply opt_string_eqb_true; reflexivity].
Qed.

Lemma matchingNodes_step_spec (nodeIds : list (option string))
    (acc : list DeletableNode) (node : DeletableNode) :
  matchingNodes_step nodeIds acc node = acc
  \/ (matchingNodes_step nodeIds acc node = acc ++ [node]
      /\ dn_deletable node <> Some false
      /\ (In (Some (id (dn_node node))) nodeIds
          \/ exists p, In p acc
                       /\ parentId (dn_node node) = Some (id (dn_node p))
                       /\ id (dn_node p) <> EmptyString)).
Proof.
  unfold matchingNodes_step.
  destruct (dn_deletable node) as [[|]|] eqn:Ed; simpl; try (left; reflexivity).
  - destruct (has_id nodeIds (Some (id (dn_node node)))) eqn:Ei; simpl.
    + right. split; [reflexivity|]. split; [discriminate|].
      left. apply has_id_true. exact Ei.
    + destruct (truthy_str (parentId (dn_node node))) eqn:Et; simpl; [|left; reflexivity].
      destruct (find _ acc) as [p|] eqn:Ef; [|left; reflexivity].
      right. split; [reflexivity|]. split; [discriminate|]. right.
      apply find_some in Ef. destruct Ef as [Hin Heq0].
      assert (Heq : Some (id (dn_node p)) = parentId (dn_node node))
        by (apply opt_string_eqb_true; exact Heq0).
      exists p. split; [exact Hin|].
      split; [symmetry; exact Heq|].
      rewrite <- Heq in Et. simpl in Et. apply negb_true_iff, String.eqb_neq in Et.
      exact Et.
  - destruct (has_id nodeIds (Some (id (dn_node node)))) eqn:Ei; simpl.
    + right. split; [reflexivity|]. split; [discriminate|].
      left. apply has_id_true. exact Ei.
    + destruct (truthy_str (parentId (dn_node node))) eqn:Et; simpl; [|left; reflexivity].
      destruct (find _ acc) as [p|] eqn:Ef; [|left; reflexivity].
      right. split; [reflexivity|]. split; [discriminate|]. right.
      apply find_some in Ef. destruct Ef as [Hin Heq0].
      assert (Heq : Some (id (dn_node p)) = parentId (dn_node node))
        by (apply opt_string_eqb_true; exact Heq0).
      exists p. split; [exact Hin|].
      split; [symmetry; exact Heq|].
      rewrite <- Heq in Et. simpl in Et. apply negb_true_iff, String.eqb_neq in Et.
      exact Et.
Qed.

(** The loop over the nodes only appends. *)
Lemma matchingNodes_loop_prefix (nodeIds : list (option string))
    (nodes acc : list DeletableNode) :
  exists more, fold_left (matchingNodes_step nodeIds) nodes acc = acc ++ more.
Proof.
  revert acc. induction nodes as [|n rest IH]; intros acc; simpl.
  - exists []. rewrite app_nil_r. reflexivity.
  - destruct (matchingNodes_step_spec nodeIds acc n) as [->|[-> _]].
    + apply IH.
    + destruct (IH (acc ++ [n])) as [more Hmore]. exists (n :: more).
      rewrite Hmore, <- app_assoc. reflexivity.
Qed.

Lemma matchingNodes_loop_sound (nodeIds : list (option string))
    (nodes acc : list DeletableNode) (n : DeletableNode) :
  In n (fold_left (matchingNodes_step nodeIds) nodes acc) ->
  In n acc
  \/ (In n nodes
      /\ dn_deletable n <> Some false
      /\ (In (Some (id (dn_node n))) nodeIds
          \/ exists p, In p (fold_left (matchingNodes_step nodeIds) nodes acc)
                       /\ parentId (dn_node n) = Some (id (dn_node p))
                       /\ id (dn_node p) <> EmptyString)).
Proof.
  revert acc. induction nodes as [|m rest IH]; intros acc; simpl.
  - tauto.
  - intros Hin. destruct (IH _ Hin) as [Hacc|[Hrest H]].
    + destruct (matchingNodes_step_spec nodeIds acc m) as [E|[E [Hd Hwhy]]];
        rewrite E in Hacc.
      * left. exact Hacc.
      * apply in_app_or in Hacc. destruct Hacc as [Hacc|[<-|[]]]; [left; exact Hacc|].
        right. split; [left; reflexivity|]. split; [exact Hd|].
        destruct Hwhy as [Hreq|[p [Hp Hpar]]]; [left; exact Hreq|].
        right. exists p. split; [|exact Hpar].
        destruct (matchingNodes_loop_prefix nodeIds rest (acc ++ [m])) as [more Hmore].
        rewrite <- E in Hmore at 1. rewrite Hmore.
        apply in_or_app. left. apply in_or_app. left. exact Hp.
    + right. split; [right; exact Hrest | exact H].
Qed.

Lemma matchingNodes_loop_requested (nodeIds : list (option string))
    (nodes acc : list DeletableNode) (n : DeletableNode) :
  In n nodes ->
  dn_deletable n <> Some false ->
  In (Some (id (dn_node n))) nodeIds ->
  In n (fold_left (matchingNodes_step nodeIds) nodes acc).
Proof.
  revert acc. induction nodes as [|m rest IH]; intros acc Hin Hd Hreq; simpl.
  - contradiction.
  - destruct Hin as [->|Hin]; [|apply IH; assumption].
    assert (E : matchingNodes_step nodeIds acc n = acc ++ [n]).
    { unfold matchingNodes_step.
      assert (Hf : is_false (dn_deletable n) = false)
        by (destruct (dn_deletable n) as [[|]|]; try reflexivity; contradiction).
      rewrite Hf. apply has_id_true in Hreq. rewrite Hreq. reflexivity. }
    rewrite E.
    destruct (matchingNodes_loop_prefix nodeIds rest (acc ++ [n])) as [more ->].
    apply in_or_app. left. apply in_or_app. right. left. reflexivity.
Qed.

Lemma matchingNodes_loop_child (nodeIds : list (option string))
    (acc : list DeletableNode) (post : list DeletableNode)
    (p c : DeletableNode) :
  In p acc ->
  dn_deletable c <> Some false ->
  parentId (dn_node c) = Some (id (dn_node p)) ->
  id (dn_node p) <> EmptyString ->
  In c (fold_left (matchingNodes_step nodeIds) (c :: post) acc).
Proof.
  intros Hp Hd Hpar Hne. simpl.
  assert (E : matchingNodes_step nodeIds acc c = acc ++ [c]).
  { unfold matchingNodes_step.
    assert (Hf : is_false (dn_deletable c) = false)
      by (destruct (dn_deletable c) as [[|]|]; try reflexivity; contradiction).
    rewrite Hf.
    destruct (has_id nodeIds (Some (id (dn_node c)))); [reflexivity|].
    rewrite Hpar. unfold truthy_str. apply String.eqb_neq in Hne. rewrite Hne.
    cbn [negb andb orb].
    match goal with
    | |- context [find ?f acc] => destruct (find f acc) eqn:Ef
    end; [reflexivity|].
    exfalso. apply (find_none _ _ Ef) in Hp.
    simpl in Hp. rewrite String.eqb_refl in Hp. discriminate. }
  rewrite E.
  destruct (matchingNodes_loop_prefix nodeIds post (acc ++ [c])) as [more ->].
  apply in_or_app. left. apply in_or_app. right. left. reflexivity.
Qed.

(** X14.  Without [onBeforeDelete], the nodes [getElementsToRemove] returns
    are nodes of the given ones that are not marked as not deletable, each of
    them asked for or a child of a returned node; every deletable node that
    is asked for is returned; and so is every deletable child that stands
    behind a parent that is returned for the nodes in front of the child. *)
Theorem getElementsToRemove_nodes
    (nodesToRemove edgesToRemove : list (option string))
    (nodes : list DeletableNode) (edges : list DeletableEdge) :
  let result :=
    er_nodes (getElementsToRemove nodesToRemove edgesToRemove nodes edges None) in
  (forall n, In n result ->
     In n nodes
     /\ dn_deletable n <> Some false
     /\ (In (Some (id (dn_node n))) nodesToRemove
         \/ exists p, In p result
                      /\ parentId (dn_node n) = Some (id (dn_node p))
                      /\ id (dn_node p) <> EmptyString))
  /\ (forall n, In n nodes -> dn_deletable n <> Some false ->
        In (Some (id (dn_node n))) nodesToRemove -> In n result)
  /\ (forall pre post p c,
        nodes = pre ++ c :: post ->
        In p (er_nodes (getElementsToRemove nodesToRemove edgesToRemove pre
                          edges None)) ->
        dn_deletable c <> Some false ->
        parentId (dn_node c) = Some (id (dn_node p)) ->
        id (dn_node p) <> EmptyString ->
        In c result).
Proof.
  intros result. subst result. unfold getElementsToRemove.
  cbn [er_nodes]. unfold matchingNodesOf.
  split.
  { intros n Hin.
    destruct (matchingNodes_loop_sound nodesToRemove nodes [] n Hin) as [[]|H].
    exact H. }
  split.
  { intros n Hin Hd Hreq. apply matchingNodes_loop_requested; assumption. }
  intros pre post p c -> Hp Hd Hpar Hne.
  rewrite fold_left_app.
  apply (matchingNodes_loop_child nodesToRemove _ post p c); assumption.
Qed.

Lemma getElementsToRemove_nodes_witness :
  In removable_child
    (er_nodes (getElementsToRemove [Some "p"%string] []
                 [removable_parent; removable_child] [removable_edge] None)).
Proof.
  destruct (getElementsToRemove_nodes [Some "p"%string] []
              [removable_parent; removable_child] [removable_edge])
    as [_ [Hreq Hchild]].
  apply (Hchild [removable_parent] [] removable_parent removable_child eq_refl).
  - destruct (getElementsToRemove_nodes [Some "p"%string] []
                [removable_parent] [removable_edge]) as [_ [Hreq' _]].
    apply Hreq'; [left; reflexivity | discriminate | left; reflexivity].
  - discriminate.
  - reflexivity.
  - discriminate.
Defined.

Lemma matchingEdges_step_spec (edgeIds : list (option string))
    (acc : list DeletableEdge) (edge : DeletableEdge) :
  (matchingEdges_step edgeIds acc edge = acc
   \/ (matchingEdges_step edgeIds acc edge = acc ++ [edge]
       /\ In (edge_id (de_edge edge)) edgeIds))
  /\ (In (edge_id (de_edge edge)) edgeIds ->
      exists e, In e (matchingEdges_step edgeIds acc edge)
                /\ edge_id (de_edge e) = edge_id (de_edge edge)).
Proof.
  unfold matchingEdges_step.
  destruct (has_id edgeIds (edge_id (de_edge edge))) eqn:Ei; cbn [andb].
  - apply has_id_true in Ei.
    destruct (find _ acc) as [e|] eqn:Ef.
    + split; [left; reflexivity|]. intros _.
      apply find_some in Ef. destruct Ef as [Hin Heq].
      apply opt_string_eqb_true in Heq. exists e. split; assumption.
    + split; [right; split; [reflexivity | exact Ei]|]. intros _.
      exists edge. split; [|reflexivity].
      apply in_or_app. right. left. reflexivity.
  - split; [left; reflexivity|]. intros Hin.
    apply has_id_true in Hin. rewrite Hin in Ei. discriminate.
Qed.

(** The loop over the edges only appends. *)
Lemma matchingEdges_loop_prefix (edgeIds : list (option string))
    (edges acc : list DeletableEdge) :
  exists more, fold_left (matchingEdges_step edgeIds) edges acc = acc ++ more.
Proof.
  revert acc. induction edges as [|e rest IH]; intros acc; simpl.
  - exists []. rewrite app_nil_r. reflexivity.
  - destruct (matchingEdges_step_spec edgeIds acc e) as [[->|[-> _]] _].
    + apply IH.
    + destruct (IH (acc ++ [e])) as [more Hmore]. exists (e :: more).
      rewrite Hmore, <- app_assoc. reflexivity.
Qed.

Lemma matchingEdges_loop_sound (edgeIds : list (option string))
    (edges acc : list DeletableEdge) (e : DeletableEdge) :
  In e (fold_left (matchingEdges_step edgeIds) edges acc) ->
  In e acc \/ (In e edges /\ In (edge_id (de_edge e)) edgeIds).
Proof.
  revert acc. induction edges as [|m rest IH]; intros acc; simpl.
  - tauto.
  - intros Hin. destruct (IH _ Hin) as [Hacc|[Hrest H]].
    + destruct (matchingEdges_step_spec edgeIds acc m) as [[E|[E Hreq]] _];
        rewrite E in Hacc.
      * left. exact Hacc.
      * apply in_app_or in Hacc. destruct Hacc as [Hacc|[<-|[]]]; [left; exact Hacc|].
        right. split; [left; reflexivity | exact Hreq].
    + right. split; [right; exact Hrest | exact H].
Qed.

Lemma matchingEdges_loop_requested (edgeIds : list (option string))
    (edges acc : list DeletableEdge) (e : DeletableEdge) :
  In e edges ->
  In (edge_id (de_edge e)) edgeIds ->
  exists e', In e' (fold_left (matchingEdges_step edgeIds) edges acc)
             /\ edge_id (de_edge e') = edge_id (de_edge e).
Proof.
  revert acc. induction edges as [|m rest IH]; intros acc Hin Hreq; simpl.
  - contradiction.
  - destruct Hin as [->|Hin]; [|apply IH; assumption].
    destruct (matchingEdges_step_spec edgeIds acc e) as [_ Hex].
    destruct (Hex Hreq) as [e' [Hin' Heq]].
    exists e'. split; [|exact Heq].
    destruct (matchingEdges_loop_prefix edgeIds rest (matchingEdges_step edgeIds acc e))
      as [more ->].
    apply in_or_app. left. exact Hin'.
Qed.

(** X15.  Without [onBeforeDelete], the edges [getElementsToRemove] returns
    are edges of the given ones that are not marked as not deletable, each of
    them connected to a returned node or asked for; every deletable edge that
    is connected to a returned node is returned; and for every deletable edge
    that is asked for, an edge with its id is returned. *)
Theorem getElementsToRemove_edges
    (nodesToRemove edgesToRemove : list (option string))
    (nodes : list DeletableNode) (edges : list DeletableEdge) :
  let result := getElementsToRemove nodesToRemove edgesToRemove nodes edges None in
  let removedIds := List.map (fun n => id (dn_node n)) (er_nodes result) in
  let connected (e : DeletableEdge) :=
    id_in (source (de_edge e)) removedIds || id_in (target (de_edge e)) removedIds in
  (forall e, In e (er_edges result) ->
     In e edges
     /\ de_deletable e <> Some false
     /\ (connected e = true \/ In (edge_id (de_edge e)) edgesToRemove))
  /\ (forall e, In e edges -> de_deletable e <> Some false ->
        connected e = true -> In e (er_edges result))
  /\ (forall e, In e edges -> de_deletable e <> Some false ->
        In (edge_id (de_edge e)) edgesToRemove ->
        exists e', In e' (er_edges result)
                   /\ edge_id (de_edge e') = edge_id (de_edge e)).
Proof.
  intros result removedIds connected. subst connected removedIds result.
  unfold getElementsToRemove. cbn [er_nodes er_edges].
  assert (Hdel : forall e,
            In e (filter (fun edge => negb (is_false (de_deletable edge))) edges)
            <-> In e edges /\ de_deletable e <> Some false).
  { intros e. rewrite filter_In. split; intros [Hin Hd]; split; try exact Hin.
    - intros E. rewrite E in Hd. discriminate.
    - destruct (de_deletable e) as [[|]|]; try reflexivity. contradiction. }
  split.
  { intros e Hin. apply matchingEdges_loop_sound in Hin.
    destruct Hin as [Hin|[Hin Hreq]].
    - unfold connectedDeletableEdges in Hin. apply filter_In in Hin.
      destruct Hin as [Hin Hc]. apply Hdel in Hin. destruct Hin as [Hin Hd].
      split; [exact Hin|]. split; [exact Hd|]. left. exact Hc.
    - apply Hdel in Hin. destruct Hin as [Hin Hd].
      split; [exact Hin|]. split; [exact Hd|]. right. exact Hreq. }
  split.
  { intros e Hin Hd Hc.
    match goal with
    | |- In e (fold_left ?f ?l ?acc) =>
        destruct (matchingEdges_loop_prefix edgesToRemove l acc) as [more ->]
    end.
    apply in_or_app. left. unfold connectedDeletableEdges. apply filter_In.
    split; [apply Hdel; split; assumption | exact Hc]. }
  intros e Hin Hd Hreq.
  apply matchingEdges_loop_requested; [apply Hdel; split; assumption | exact Hreq].
Qed.

Lemma getElementsToRemove_edges_witness :
  In removable_edge
    (er_edges (getElementsToRemove [Some "p"%string] []
                 [removable_parent; removable_child] [removable_edge] None)).
Proof.
  destruct (getElementsToRemove_edges [Some "p"%string] []
              [removable_parent; removable_child] [removable_edge])
    as [_ [Hconn _]].
  apply Hconn; [left; reflexivity | discriminate | reflexivity].
Defined.

(** ** Connection maps *)

Lemma map_has_true {V : Type} (m : JSMap V) (k : string) :
  map_has m k = true <-> In k (map_keys m).
Proof.
  unfold map_has, map_keys. rewrite existsb_exists, in_map_iff. split.
  - intros [kv [Hin Heq]]. apply String.eqb_eq in Heq. exists kv. split; assumption.
  - intros [kv [Heq Hin]]. exists kv. split; [exact Hin | apply String.eqb_eq; exact Heq].
Qed.

Lemma map_size_keys {V : Type} (m : JSMap V) :
  map_size m = List.length (map_keys m).
Proof. unfold map_size, map_keys. symmetry. apply length_map. Qed.

(** X16.  On maps, whose keys are distinct, [areConnectionMapsEqual] holds
    exactly when the two maps have the same keys, whatever their values; an
    absent map equals an absent map and no other. *)
Theorem areConnectionMapsEqual_same_keys {V : Type} (a b : JSMap V) :
  NoDup (map_keys a) -> NoDup (map_keys b) ->
  (areConnectionMapsEqual (Some a) (Some b) = true <-> sameKeys a b)
  /\ areConnectionMapsEqual (Some a) None = false
  /\ areConnectionMapsEqual None (Some b) = false
  /\ areConnectionMapsEqual (@None (JSMap V)) None = true.
Proof.
  intros Ha Hb. split; [|repeat split; reflexivity].
  unfold areConnectionMapsEqual, sameKeys.
  destruct (Nat.eqb (map_size a) (map_size b)) eqn:Esz; cbn [negb].
  - apply Nat.eqb_eq in Esz.
    destruct (Nat.eqb (map_size a) 0 && Nat.eqb (map_size b) 0) eqn:Ez.
    + apply andb_true_iff in Ez. destruct Ez as [Ea Eb].
      apply Nat.eqb_eq in Ea, Eb.
      destruct a; [|discriminate]. destruct b; [|discriminate].
      split; [intros _ k; reflexivity | reflexivity].
    + rewrite forallb_forall. split.
      * intros Hall k. split.
        -- intros Hin. apply map_has_true, Hall, Hin.
        -- revert k. apply NoDup_length_incl; [exact Ha | |].
           ++ rewrite <- !map_size_keys, Esz. apply Nat.le_refl.
           ++ intros k Hin. apply map_has_true, Hall, Hin.
      * intros Hsame k Hin. apply map_has_true, Hsame, Hin.
  - apply Nat.eqb_neq in Esz. split; [discriminate|]. intros Hsame. exfalso.
    apply Esz. rewrite !map_size_keys. apply Nat.le_antisymm.
    + apply NoDup_incl_length; [exact Ha|]. intros k Hin. apply Hsame, Hin.
    + apply NoDup_incl_length; [exact Hb|]. intros k Hin. apply Hsame, Hin.
Qed.

Lemma areConnectionMapsEqual_same_keys_witness :
  areConnectionMapsEqual (Some connections_k_1) (Some connections_k_2) = true.
Proof.
  assert (Hk : NoDup ["k"%string]) by (constructor; [intros [] | constructor]).
  destruct (areConnectionMapsEqual_same_keys connections_k_1 connections_k_2 Hk Hk)
    as [[_ Hsame] _].
  apply Hsame. intros k. reflexivity.
Defined.

Lemma connectionDiff_filter_from {V : Type} (a : JSMap V) (b : option (JSMap V))
    (acc : list V) :
  fold_left
    (fun diff kv =>
       if negb (match b with Some b => map_has b (fst kv) | None => false end)
       then diff ++ [snd kv] else diff)
    a acc
  = acc ++ List.map snd
             (filter
                (fun kv =>
                   negb (match b with Some b => map_has b (fst kv) | None => false end))
                a).
Proof.
  revert acc. induction a as [|kv rest IH]; intros acc; simpl.
  - rewrite app_nil_r. reflexivity.
  - rewrite IH. destruct (negb _); simpl; [rewrite <- app_assoc|]; reflexivity.
Qed.

Lemma connectionDiff_filter {V : Type} (a : JSMap V) (b : option (JSMap V)) :
  connectionDiff a b
  = List.map snd
      (filter
         (fun kv =>
            negb (match b with Some b => map_has b (fst kv) | None => false end))
         a).
Proof. unfold connectionDiff. apply (connectionDiff_filter_from a b []). Qed.

Lemma connectionDiff_nil {V : Type} (a b : JSMap V) :
  (forall k, In k (map_keys a) -> In k (map_keys b)) ->
  connectionDiff a (Some b) = [].
Proof.
  intros Hincl. rewrite connectionDiff_filter.
  induction a as [|kv rest IH]; [reflexivity|].
  cbn [filter].
  assert (Hk : map_has b (fst kv) = true)
    by (apply map_has_true, Hincl; left; reflexivity).
  rewrite Hk. cbn [negb]. apply IH. intros k Hin. apply Hincl. right. exact Hin.
Qed.

(** X17.  When [areConnectionMapsEqual] holds of two maps,
    [handleConnectionChange] calls the callback in neither direction; and
    against an absent map the callback gets all connections of a map that is
    not empty, in their order. *)
Theorem handleConnectionChange_equal_maps {V S : Type} (a b : JSMap V)
    (cb : option (list V -> S -> S)) (s : S) :
  NoDup (map_keys a) -> NoDup (map_keys b) ->
  areConnectionMapsEqual (Some a) (Some b) = true ->
  handleConnectionChange a (Some b) cb s = s
  /\ handleConnectionChange b (Some a) cb s = s
  /\ (forall f, a <> [] ->
        handleConnectionChange a None (Some f) s = f (map_values a) s).
Proof.
  intros Ha Hb Heq.
  assert (Hsame : sameKeys a b).
  { unfold sameKeys. unfold areConnectionMapsEqual in Heq.
    destruct (Nat.eqb (map_size a) (map_size b)) eqn:Esz; [|discriminate].
    cbn [negb] in Heq. apply Nat.eqb_eq in Esz.
    destruct (Nat.eqb (map_size a) 0 && Nat.eqb (map_size b) 0) eqn:Ez.
    - apply andb_true_iff in Ez. destruct Ez as [Ea Eb].
      apply Nat.eqb_eq in Ea, Eb.
      destruct a; [|discriminate]. destruct b; [|discriminate].
      intros k. reflexivity.
    - rewrite forallb_forall in Heq. intros k. split.
      + intros Hin. apply map_has_true, Heq, Hin.
      + revert k. apply NoDup_length_incl; [exact Ha | |].
        * rewrite <- !map_size_keys, Esz. apply Nat.le_refl.
        * intros k Hin. apply map_has_true, Heq, Hin. }
  split; [|split].
  - unfold handleConnectionChange. destruct cb as [f|]; [|reflexivity].
    rewrite connectionDiff_nil; [reflexivity|]. intros k. apply Hsame.
  - unfold handleConnectionChange. destruct cb as [f|]; [|reflexivity].
    rewrite connectionDiff_nil; [reflexivity|]. intros k. apply Hsame.
  - intros f Hne. unfold handleConnectionChange.
    rewrite connectionDiff_filter. cbn [negb].
    assert (Hall : filter (fun _ : string * V => true) a = a).
    { clear. induction a as [|kv rest IH]; [reflexivity|].
      cbn [filter]. rewrite IH. reflexivity. }
    rewrite Hall. fold (map_values a).
    destruct a as [|kv rest]; [contradiction|]. reflexivity.
Qed.

Lemma handleConnectionChange_equal_maps_witness :
  handleConnectionChange connections_k_1 (Some connections_k_2)
    (Some recordCall) [] = [].
Proof.
  assert (Hk : NoDup ["k"%string]) by (constructor; [intros [] | constructor]).
  apply (handleConnectionChange_equal_maps connections_k_1 connections_k_2
           (Some recordCall) [] Hk Hk eq_refl).
Defined.

(** ** Resizer *)

(** X18.  Every control resizes along at least one axis, moves the left edge
    only if it resizes horizontally and the top edge only if it resizes
    vertically; it resizes along both axes exactly if it is one of the corner
    handles, and the line controls are the others. *)
Theorem getControlDirection_axes (p : ControlPosition) :
  let d := getControlDirection p in
  isHorizontal d || isVertical d = true
  /\ (affectsX d = true -> isHorizontal d = true)
  /\ (affectsY d = true -> isVertical d = true)
  /\ (isHorizontal d && isVertical d = true <-> In p XY_RESIZER_HANDLE_POSITIONS)
  /\ (isHorizontal d && isVertical d = false <-> In p XY_RESIZER_LINE_POSITIONS).
Proof.
  destruct p; cbv; intuition (try discriminate; try congruence).
Qed.

Lemma Math_floor_IZR (k : Z) : Math_floor (IZR k) = IZR k.
Proof.
  unfold Math_floor. f_equal. symmetry. apply Int_part_spec. lra.
Qed.

Lemma Math_floor_0 : Math_floor 0 = 0.
Proof. apply (Math_floor_IZR 0). Qed.

Ltac resize_unfold :=
  cbv beta iota zeta
    delta [getDimensionsAfterResize new_width new_height new_x new_y
           andb negb orb xor].

Ltac case_Rltb :=
  match goal with
  | |- context [Rltb ?a ?b] =>
      let H := fresh "Hlt" in
      destruct (Rltb a b) eqn:H;
      [apply Rltb_true in H | apply Rltb_false in H]
  end.

Lemma Rmax_cases (a b : R) :
  (b <= a /\ Rmax a b = a) \/ (a <= b /\ Rmax a b = b).
Proof.
  destruct (Rle_dec a b) as [H|H].
  - right. split; [exact H | apply Rmax_right; exact H].
  - left. split; [lra | apply Rmax_left; lra].
Qed.

(** Split on an innermost maximum of the goal. *)
Ltac case_Rmax :=
  match goal with
  | |- context [Rmax ?a ?b] =>
      lazymatch a with context [Rmax _ _] => fail | _ => idtac end;
      lazymatch b with context [Rmax _ _] => fail | _ => idtac end;
      let H := fresh "Hmax" in
      let E := fresh "Emax" in
      destruct (Rmax_cases a b) as [[H E]|[H E]]; rewrite E in *; clear E
  end.

(** X19.  Without [keepAspectRatio], a resize leaves the edge opposite to the
    control in place, whatever the origin of the node and whatever restricts
    the resize: the left edge for a control that does not affect x, the right
    edge for one that does, and so for top and bottom. *)
Theorem getDimensionsAfterResize_anchor (s : ResizeStartValues)
    (d : ControlDirection) (pointer : R * R) (b : ResizeBoundaries)
    (o : NodeOrigin) (extent childExtent : option CoordinateExtent) :
  let r := getDimensionsAfterResize s d pointer b false o extent childExtent in
  (if affectsX d
   then rightEdge o (new_x r) (new_width r) = rightEdge o (start_x s) (start_width s)
   else leftEdge o (new_x r) (new_width r) = leftEdge o (start_x s) (start_width s))
  /\ (if affectsY d
      then bottomEdge o (new_y r) (new_height r)
           = bottomEdge o (start_y s) (start_height s)
      else topEdge o (new_y r) (new_height r) = topEdge o (start_y s) (start_height s)).
Proof.
  intros r. subst r.
  destruct extent as [e|]; destruct childExtent as [c|]; resize_unfold;
    (split;
     [destruct (affectsX d) | destruct (affectsY d)];
     unfold leftEdge, rightEdge, topEdge, bottomEdge; ring).
Qed.

(** X20.  Without [keepAspectRatio] and without extents, a resize that
    starts from a size within the boundaries ends in the size the pointer
    asks for, clamped to the boundaries, and so in a size within the
    boundaries. *)
Theorem getDimensionsAfterResize_within_boundaries (s : ResizeStartValues)
    (d : ControlDirection) (pointer : R * R) (b : ResizeBoundaries)
    (o : NodeOrigin) :
  startWithinBoundaries s b ->
  let r := getDimensionsAfterResize s d pointer b false o None None in
  let distX :=
    Math_floor (if isHorizontal d then fst pointer - pointerX s else 0) in
  let distY :=
    Math_floor (if isVertical d then snd pointer - pointerY s else 0) in
  minWidth b <= new_width r <= maxWidth b
  /\ minHeight b <= new_height r <= maxHeight b
  /\ new_width r
     = clamp (start_width s + (if affectsX d then - distX else distX))
         (minWidth b) (maxWidth b)
  /\ new_height r
     = clamp (start_height s + (if affectsY d then - distY else distY))
         (minHeight b) (maxHeight b).
Proof.
  intros [[Hw1 Hw2] [Hh1 Hh2]] r distX distY. subst r.
  resize_unfold. unfold getSizeClamp, clamp.
  fold distX. fold distY. clearbody distX distY.
  split; [|split; [|split]].
  - destruct (affectsX d); case_Rltb; repeat case_Rmax; lra.
  - destruct (affectsY d); case_Rltb; repeat case_Rmax; lra.
  - destruct (affectsX d); case_Rltb; repeat case_Rmax;
      match goal with
      | |- context [Rmin ?u ?v] =>
          first [rewrite (Rmin_left u v) by lra | rewrite (Rmin_right u v) by lra]
      end; lra.
  - destruct (affectsY d); case_Rltb; repeat case_Rmax;
      match goal with
      | |- context [Rmin ?u ?v] =>
          first [rewrite (Rmin_left u v) by lra | rewrite (Rmin_right u v) by lra]
      end; lra.
Qed.

Lemma getDimensionsAfterResize_within_boundaries_witness :
  10 <= new_width
          (getDimensionsAfterResize resize_start (getControlDirection ctl_right)
             (5000, 70) resize_boundaries false (0, 0) None None)
     <= 1000.
Proof.
  apply (getDimensionsAfterResize_within_boundaries resize_start
           (getControlDirection ctl_right) (5000, 70) resize_boundaries (0, 0)).
  unfold startWithinBoundaries. cbn. lra.
Defined.

(** X21.  With [keepAspectRatio], a resize that starts from a size of the
    aspect ratio ends in a size of the aspect ratio, for every control,
    pointer, boundary and extent. *)
Theorem getDimensionsAfterResize_keeps_ratio (s : ResizeStartValues)
    (d : ControlDirection) (pointer : R * R) (b : ResizeBoundaries)
    (o : NodeOrigin) (extent childExtent : option CoordinateExtent) :
  aspectRatio s <> 0 ->
  start_width s = aspectRatio s * start_height s ->
  let r := getDimensionsAfterResize s d pointer b true o extent childExtent in
  new_width r = aspectRatio s * new_height r.
Proof.
  intros Hr Hs r. subst r.
  destruct extent as [e|]; destruct childExtent as [c|]; resize_unfold;
    destruct (isHorizontal d); destruct (isVertical d);
    destruct (affectsX d); destruct (affectsY d);
    try case_Rltb; cbv beta iota; rewrite Hs; field; exact Hr.
Qed.

Lemma getDimensionsAfterResize_keeps_ratio_witness :
  new_width
    (getDimensionsAfterResize resize_start (getControlDirection ctl_bottom_right)
       (150, 70) resize_boundaries true (0, 0) None None)
  = 2 * new_height
          (getDimensionsAfterResize resize_start
             (getControlDirection ctl_bottom_right)
             (150, 70) resize_boundaries true (0, 0) None None).
Proof.
  apply (getDimensionsAfterResize_keeps_ratio resize_start
           (getControlDirection ctl_bottom_right) (150, 70) resize_boundaries (0, 0)
           None None).
  - cbn. lra.
  - cbn. lra.
Defined.

(** X22.  Without [keepAspectRatio] and without a child extent, a resize of
    a node that lies within the extent, its size within the boundaries, ends
    in a node that lies within the extent, for every origin. *)
Theorem getDimensionsAfterResize_within_extent (s : ResizeStartValues)
    (d : ControlDirection) (pointer : R * R) (b : ResizeBoundaries)
    (o : NodeOrigin) (extent : CoordinateExtent) :
  startWithinBoundaries s b ->
  nodeWithinExtent o (start_x s) (start_y s) (start_width s) (start_height s)
    extent ->
  let r := getDimensionsAfterResize s d pointer b false o (Some extent) None in
  nodeWithinExtent o (new_x r) (new_y r) (new_width r) (new_height r) extent.
Proof.
  intros [[Hw1 Hw2] [Hh1 Hh2]] [Hx1 [Hx2 [Hy1 Hy2]]] r. subst r.
  unfold nodeWithinExtent, leftEdge, rightEdge, topEdge, bottomEdge in *.
  resize_unfold. unfold getSizeClamp, getLowerExtentClamp, getUpperExtentClamp.
  set (distX := Math_floor (if isHorizontal d then _ else _)).
  set (distY := Math_floor (if isVertical d then _ else _)).
  clearbody distX distY.
  split; [|split; [|split]].
  - clear distY Hy1 Hy2 Hh1 Hh2.
    destruct (affectsX d); cbv beta iota;
      repeat case_Rltb; repeat case_Rmax; lra.
  - clear distY Hy1 Hy2 Hh1 Hh2.
    destruct (affectsX d); cbv beta iota;
      repeat case_Rltb; repeat case_Rmax; lra.
  - clear distX Hx1 Hx2 Hw1 Hw2.
    destruct (affectsY d); cbv beta iota;
      repeat case_Rltb; repeat case_Rmax; lra.
  - clear distX Hx1 Hx2 Hw1 Hw2.
    destruct (affectsY d); cbv beta iota;
      repeat case_Rltb; repeat case_Rmax; lra.
Qed.

Lemma getDimensionsAfterResize_within_extent_witness :
  nodeWithinExtent (0, 0)
    (new_x (getDimensionsAfterResize resize_start (getControlDirection ctl_right)
              (5000, 70) resize_boundaries false (0, 0) (Some resize_extent) None))
    (new_y (getDimensionsAfterResize resize_start (getControlDirection ctl_right)
              (5000, 70) resize_boundaries false (0, 0) (Some resize_extent) None))
    (new_width
       (getDimensionsAfterResize resize_start (getControlDirection ctl_right)
          (5000, 70) resize_boundaries false (0, 0) (Some resize_extent) None))
    (new_height
       (getDimensionsAfterResize resize_start (getControlDirection ctl_right)
          (5000, 70) resize_boundaries false (0, 0) (Some resize_extent) None))
    resize_extent.
Proof.
  apply (getDimensionsAfterResize_within_extent resize_start
           (getControlDirection ctl_right) (5000, 70) resize_boundaries (0, 0)
           resize_extent).
  - unfold startWithinBoundaries. cbn. lra.
  - unfold nodeWithinExtent, leftEdge, rightEdge, topEdge, bottomEdge. cbn. lra.
Defined.

Lemma Math_floor_unit (v : R) : 0 <= v < 1 -> Math_floor v = 0.
Proof.
  intros Hv. unfold Math_floor. replace 0 with (IZR 0) by reflexivity.
  f_equal. symmetry. apply Int_part_spec. cbn. lra.
Qed.

Lemma getSizeClamp_within (v lo hi : R) : lo <= v <= hi -> getSizeClamp v lo hi = 0.
Proof.
  intros [H1 H2]. unfold getSizeClamp.
  rewrite (Rmax_left 0 (lo - v)) by lra. apply Rmax_left. lra.
Qed.

(** X23.  Without [keepAspectRatio], a pointer that is where the resize
    started, or less than one unit to the right of and below it, leaves
    position and size as they were, if the size was within the boundaries. *)
Theorem getDimensionsAfterResize_still (s : ResizeStartValues)
    (d : ControlDirection) (pointer : R * R) (b : ResizeBoundaries)
    (o : NodeOrigin) (extent childExtent : option CoordinateExtent) :
  startWithinBoundaries s b ->
  pointerX s <= fst pointer < pointerX s + 1 ->
  pointerY s <= snd pointer < pointerY s + 1 ->
  getDimensionsAfterResize s d pointer b false o extent childExtent
  = {| new_width := start_width s; new_height := start_height s;
       new_x := start_x s; new_y := start_y s |}.
Proof.
  intros [[Hw1 Hw2] [Hh1 Hh2]] Hpx Hpy.
  assert (HdX : Math_floor (if isHorizontal d then fst pointer - pointerX s else 0)
                = 0)
    by (destruct (isHorizontal d); [apply Math_floor_unit; lra | apply Math_floor_0]).
  assert (HdY : Math_floor (if isVertical d then snd pointer - pointerY s else 0)
                = 0)
    by (destruct (isVertical d); [apply Math_floor_unit; lra | apply Math_floor_0]).
  assert (HcX : forall v, v = start_width s ->
                 getSizeClamp v (minWidth b) (maxWidth b) = 0)
    by (intros v ->; apply getSizeClamp_within; lra).
  assert (HcY : forall v, v = start_height s ->
                 getSizeClamp v (minHeight b) (maxHeight b) = 0)
    by (intros v ->; apply getSizeClamp_within; lra).
  destruct extent as [e|]; destruct childExtent as [c|]; resize_unfold;
    rewrite HdX, HdY; rewrite (proj2 (Rltb_false 0 0)) by lra;
    destruct (affectsX d); destruct (affectsY d); cbv beta iota;
    rewrite HcX by ring; rewrite HcY by ring;
    rewrite ?(Rmax_left 0 0) by lra; f_equal; ring.
Qed.

Lemma getDimensionsAfterResize_still_witness :
  getDimensionsAfterResize resize_start (getControlDirection ctl_top_left)
    (110, 70) resize_boundaries false (0, 0) (Some resize_extent) None
  = {| new_width := 100; new_height := 50; new_x := 10; new_y := 20 |}.
Proof.
  apply (getDimensionsAfterResize_still resize_start
           (getControlDirection ctl_top_left) (110, 70) resize_boundaries (0, 0)
           (Some resize_extent) None).
  - unfold startWithinBoundaries. cbn. lra.
  - cbn. lra.
  - cbn. lra.
Defined.

(** X24.  Without [keepAspectRatio] and without an extent, a resize of a
    node with the origin at its top left corner that covers the child extent,
    its size within the boundaries, ends in a node that covers the child
    extent. *)
Theorem getDimensionsAfterResize_covers_children (s : ResizeStartValues)
    (d : ControlDirection) (pointer : R * R) (b : ResizeBoundaries)
    (childExtent : CoordinateExtent) :
  startWithinBoundaries s b ->
  nodeCoversExtent (start_x s) (start_y s) (start_width s) (start_height s)
    childExtent ->
  let r :=
    getDimensionsAfterResize s d pointer b false (0, 0) None (Some childExtent) in
  nodeCoversExtent (new_x r) (new_y r) (new_width r) (new_height r) childExtent.
Proof.
  intros [[Hw1 Hw2] [Hh1 Hh2]] [Hx1 [Hx2 [Hy1 Hy2]]] r. subst r.
  unfold nodeCoversExtent in *.
  resize_unfold. unfold getSizeClamp, getLowerExtentClamp, getUpperExtentClamp.
  cbn [fst snd].
  set (distX := Math_floor (if isHorizontal d then _ else _)).
  set (distY := Math_floor (if isVertical d then _ else _)).
  clearbody distX distY.
  split; [|split; [|split]].
  - clear distY Hy1 Hy2 Hh1 Hh2.
    destruct (affectsX d); cbv beta iota;
      repeat case_Rltb; repeat case_Rmax; lra.
  - clear distY Hy1 Hy2 Hh1 Hh2.
    destruct (affectsX d); cbv beta iota;
      repeat case_Rltb; repeat case_Rmax; lra.
  - clear distX Hx1 Hx2 Hw1 Hw2.
    destruct (affectsY d); cbv beta iota;
      repeat case_Rltb; repeat case_Rmax; lra.
  - clear distX Hx1 Hx2 Hw1 Hw2.
    destruct (affectsY d); cbv beta iota;
      repeat case_Rltb; repeat case_Rmax; lra.
Qed.

Lemma getDimensionsAfterResize_covers_children_witness :
  nodeCoversExtent
    (new_x (getDimensionsAfterResize resize_start (getControlDirection ctl_right)
              (-5000, 70) resize_boundaries false (0, 0) None
              (Some resize_child_extent)))
    (new_y (getDimensionsAfterResize resize_start (getControlDirection ctl_right)
              (-5000, 70) resize_boundaries false (0, 0) None
              (Some resize_child_extent)))
    (new_width
       (getDimensionsAfterResize resize_start (getControlDirection ctl_right)
          (-5000, 70) resize_boundaries false (0, 0) None
          (Some resize_child_extent)))
    (new_height
       (getDimensionsAfterResize resize_start (getControlDirection ctl_right)
          (-5000, 70) resize_boundaries false (0, 0) None
          (Some resize_child_extent)))
    resize_child_extent.
Proof.
  apply (getDimensionsAfterResize_covers_children resize_start
           (getControlDirection ctl_right) (-5000, 70) resize_boundaries
           resize_child_extent).
  - unfold startWithinBoundaries. cbn. lra.
  - unfold nodeCoversExtent. cbn. lra.
Defined.

(** X25.  [rotatePoint] keeps the distance of the point to the centre, and
    rotating by the opposite angle brings the point back. *)
Theorem rotatePoint_inverse (px py cx cy angle : R) :
  let r := rotatePoint px py cx cy angle in
  (x r - cx) * (x r - cx) + (y r - cy) * (y r - cy)
  = (px - cx) * (px - cx) + (py - cy) * (py - cy)
  /\ rotatePoint (x r) (y r) cx cy (- angle) = {| x := px; y := py |}.
Proof.
  intros r. subst r. unfold rotatePoint. cbn [x y].
  replace (- angle * PI / 180) with (- (angle * PI / 180)) by lra.
  rewrite cos_neg, sin_neg.
  set (c := cos (angle * PI / 180)). set (sn := sin (angle * PI / 180)).
  assert (H : sn * sn + c * c = 1).
  { pose proof (sin2_cos2 (angle * PI / 180)) as H. unfold Rsqr in H. exact H. }
  split.
  - transitivity (((px - cx) * (px - cx) + (py - cy) * (py - cy))
                  * (sn * sn + c * c)); [ring | rewrite H; ring].
  - f_equal.
    + transitivity ((px - cx) * (sn * sn + c * c) + cx); [ring | rewrite H; ring].
    + transitivity ((py - cy) * (sn * sn + c * c) + cy); [ring | rewrite H; ring].
Qed.

(** ** Absolute positions in the lookup *)

(** The position [updateChildPosition] leaves in the lookup for the node. *)
Lemma updateChildPosition_position (node parent : InternalNode) (s : Store)
    (options : option StoreOptions) (pid : string) :
  parentId (base node) = Some pid ->
  map_get (nodeLookup s) pid = Some parent ->
  exists node',
    map_get (nodeLookup (updateChildPosition node s options)) (id (base node))
    = Some node'
    /\ base node' = base node
    /\ positionAbsolute (internals node')
       = addPosition (positionAbsolute (internals parent))
           (getInternalNodePositionWithOrigin node (nodeOrigin_of options)).
Proof.
  intros Hp Hpar. unfold updateChildPosition. rewrite Hp, Hpar.
  cbn [nodeLookup].
  assert (Hx : xyz_x (calculateChildXYZ node parent (nodeOrigin_of options)
                        (selectedNodeZ_of options))
               = x (positionAbsolute (internals parent))
                 + x (getInternalNodePositionWithOrigin node (nodeOrigin_of options)))
    by reflexivity.
  assert (Hy : xyz_y (calculateChildXYZ node parent (nodeOrigin_of options)
                        (selectedNodeZ_of options))
               = y (positionAbsolute (internals parent))
                 + y (getInternalNodePositionWithOrigin node (nodeOrigin_of options)))
    by reflexivity.
  set (xyz := calculateChildXYZ node parent (nodeOrigin_of options)
                (selectedNodeZ_of options)) in *.
  match goal with
  | |- context [map_set (nodeLookup s) _ ?n] => exists n
  end.
  split; [apply map_get_set_same|].
  unfold addPosition. rewrite <- Hx, <- Hy.
  destruct (Reqb (xyz_x xyz) (x (positionAbsolute (internals node)))) eqn:Ex;
    destruct (Reqb (xyz_y xyz) (y (positionAbsolute (internals node)))) eqn:Ey;
    cbn [negb orb]; try (split; reflexivity).
  apply Reqb_true in Ex, Ey.
  destruct (num_neq (Some (xyz_z xyz)) (z (internals node)));
    cbn [base internals positionAbsolute]; (split; [reflexivity|]);
    rewrite Ex, Ey; destruct (positionAbsolute (internals node)); reflexivity.
Qed.

Section AdoptUserNodesPosition.
Variable tmpLookup : NodeLookup.
Variable options : option StoreOptions.

Local Abbreviation step := (adoptUserNode tmpLookup options).
Local Abbreviation fresh u := (freshInternalNode (fst u) (snd u) options).
Local Abbreviation own u := (getNodePositionWithOrigin (snd u) (nodeOrigin_of options)).

(** The position of the entry the turn for [u] leaves under the id of [u]. *)
Lemma adoptUserNode_self_position (s : Store) (u : nat * NodeBase) :
  takenOver tmpLookup options u = false ->
  exists inode,
    map_get (nodeLookup (step s u)) (id (snd u)) = Some inode
    /\ base inode = snd u
    /\ (truthy_str (parentId (snd u)) = false ->
        positionAbsolute (internals inode) = own u)
    /\ (forall pid, parentId (snd u) = Some pid -> pid <> EmptyString ->
          pid <> id (snd u) ->
          match map_get (nodeLookup s) pid with
          | Some parent =>
              positionAbsolute (internals inode)
              = addPosition (positionAbsolute (internals parent)) (own u)
          | None => positionAbsolute (internals inode) = own u
          end)
    /\ (parentId (snd u) = Some (id (snd u)) -> id (snd u) <> EmptyString ->
        positionAbsolute (internals inode) = addPosition (own u) (own u)).
Proof.
  intros Ht. rewrite adoptUserNode_built by exact Ht. cbv zeta.
  set (s1 := {| nodeLookup := map_set (nodeLookup s) (id (snd u)) (fresh u);
                parentLookup := parentLookup s; warnings := warnings s |}).
  assert (Hself : map_get (nodeLookup s1) (id (snd u)) = Some (fresh u))
    by (subst s1; cbn [nodeLookup]; apply map_get_set_same).
  assert (Hpf : positionAbsolute (internals (fresh u)) = own u) by reflexivity.
  assert (Hbf : base (fresh u) = snd u) by reflexivity.
  assert (Hof : getInternalNodePositionWithOrigin (fresh u) (nodeOrigin_of options)
                = own u) by reflexivity.
  destruct (truthy_str (parentId (snd u))) eqn:Ep.
  - destruct (parentId (snd u)) as [pid|] eqn:Epid; [|discriminate].
    assert (Epid' : parentId (base (fresh u)) = Some pid) by exact Epid.
    destruct (map_get (nodeLookup s1) pid) as [parent|] eqn:Epar.
    + destruct (updateChildPosition_position (fresh u) parent s1 options pid
                  Epid' Epar) as [node' [Hget [Hbase Hpos]]].
      rewrite Hbf in Hget. rewrite Hof in Hpos.
      exists node'.
      split; [exact Hget|].
      split; [congruence|].
      split; [discriminate|].
      split.
      * intros pid' Hpid' _ Hne. injection Hpid' as <-.
        subst s1. cbn [nodeLookup] in Epar.
        rewrite map_get_set_other in Epar by congruence.
        rewrite Epar. exact Hpos.
      * intros Hpid' _. injection Hpid' as ->.
        rewrite Hself in Epar. injection Epar as <-.
        rewrite Hpos, Hpf. reflexivity.
    + rewrite (updateChildPosition_not_found (fresh u) s1 options pid Epid' Epar).
      exists (fresh u).
      split; [exact Hself|].
      split; [exact Hbf|].
      split; [discriminate|].
      split.
      * intros pid' Hpid' _ Hne. injection Hpid' as <-.
        subst s1. cbn [nodeLookup] in Epar.
        rewrite map_get_set_other in Epar by congruence.
        rewrite Epar. exact Hpf.
      * intros Hpid' _. injection Hpid' as ->.
        rewrite Hself in Epar. discriminate.
  - exists (fresh u).
    split; [exact Hself|].
    split; [exact Hbf|].
    split; [intros _; exact Hpf|].
    split.
    + intros pid Hpid Hne _. rewrite Hpid in Ep. simpl in Ep.
      apply String.eqb_neq in Hne. rewrite Hne in Ep. discriminate.
    + intros Hpid Hne. rewrite Hpid in Ep. simpl in Ep.
      apply String.eqb_neq in Hne. rewrite Hne in Ep. discriminate.
Qed.
End AdoptUserNodesPosition.

(** X26.  In the lookup [adoptUserNodes] builds (ids distinct, no node taken
    over from the previous lookup), the absolute position of a node is its
    position, moved by its origin, when it has no parent or its parent does
    not stand in front of it in the array; it is that added to the absolute
    position of its parent when the parent stands in front of it; and a node
    that names itself as its parent gets twice its own position. *)
Theorem adoptUserNodes_absolute_position
    (nodes pre post : list (nat * NodeBase)) (ref : nat) (n : NodeBase)
    (s0 : Store) (options : option StoreOptions) :
  NoDup (node_ids nodes) ->
  Forall (fun u => takenOver (nodeLookup s0) options u = false) nodes ->
  nodes = pre ++ (ref, n) :: post ->
  let lookup := nodeLookup (adoptUserNodes nodes s0 options) in
  let own := getNodePositionWithOrigin n (nodeOrigin_of options) in
  exists inode,
    map_get lookup (id n) = Some inode
    /\ base inode = n
    /\ (truthy_str (parentId n) = false -> positionAbsolute (internals inode) = own)
    /\ (forall pid, parentId n = Some pid -> pid <> EmptyString ->
          In pid (node_ids pre) ->
          exists parent,
            map_get lookup pid = Some parent
            /\ positionAbsolute (internals inode)
               = addPosition (positionAbsolute (internals parent)) own)
    /\ (forall pid, parentId n = Some pid -> pid <> id n ->
          ~ In pid (node_ids pre) ->
          positionAbsolute (internals inode) = own)
    /\ (parentId n = Some (id n) -> id n <> EmptyString ->
        positionAbsolute (internals inode) = addPosition own own).
Proof.
  intros Hnd Hf -> lookup own. subst lookup own.
  unfold adoptUserNodes. rewrite fold_left_app. cbn [fold_left].
  set (init := {| nodeLookup := []; parentLookup := []; warnings := warnings s0 |}).
  set (s_pre := fold_left (adoptUserNode (nodeLookup s0) options) pre init).
  apply Forall_app in Hf. destruct Hf as [Hpre Hf].
  inversion Hf as [|? ? Hu Hpost]; subst.
  rewrite node_ids_app in Hnd. simpl in Hnd.
  pose proof (NoDup_remove_2 _ _ _ Hnd) as Hn_notin.
  assert (Hn_post : ~ In (id n) (node_ids post))
    by (intros H; apply Hn_notin; apply in_or_app; right; exact H).
  destruct (adoptUserNode_self_position (nodeLookup s0) options s_pre (ref, n) Hu)
    as [inode [Hget [Hbase [Hroot [Hpar Hself]]]]].
  simpl in Hget, Hbase, Hroot, Hpar, Hself.
  exists inode.
  split; [rewrite adoptUserNodes_loop_other by assumption; exact Hget|].
  split; [exact Hbase|].
  split; [exact Hroot|].
  split; [|split].
  - intros pid Hpid Hne Hin.
    assert (Hpid_n : pid <> id n).
    { intros ->. apply Hn_notin. apply in_or_app. left. exact Hin. }
    assert (Hpid_post : ~ In pid (node_ids post)).
    { intros H. apply (NoDup_app_In_l _ _ pid Hnd Hin). right. exact H. }
    destruct (adoptUserNodes_loop_has (nodeLookup s0) options pre init pid Hpre Hin)
      as [parent Hparent].
    fold s_pre in Hparent.
    specialize (Hpar pid Hpid Hne Hpid_n). rewrite Hparent in Hpar.
    exists parent. split; [|exact Hpar].
    rewrite adoptUserNodes_loop_other by assumption.
    rewrite adoptUserNode_other by (simpl; assumption).
    exact Hparent.
  - intros pid Hpid Hpid_n Hnot.
    destruct (string_dec pid EmptyString) as [->|Hne].
    { apply Hroot. rewrite Hpid. reflexivity. }
    specialize (Hpar pid Hpid Hne Hpid_n).
    assert (Hnone : map_get (nodeLookup s_pre) pid = None).
    { apply map_get_None. intros H.
      apply adoptUserNodes_loop_keys in H; [|exact Hpre].
      destruct H as [H|H]; [contradiction | exact H]. }
    rewrite Hnone in Hpar. exact Hpar.
  - exact Hself.
Qed.

Lemma adoptUserNodes_absolute_position_witness :
  exists inode,
    map_get (nodeLookup (adoptUserNodes positioned_nodes emptyStore None)) "c"
    = Some inode
    /\ exists parent,
         map_get (nodeLookup (adoptUserNodes positioned_nodes emptyStore None)) "p"
         = Some parent
         /\ positionAbsolute (internals inode)
            = addPosition (positionAbsolute (internals parent))
                (getNodePositionWithOrigin positioned_child (nodeOrigin_of None)).
Proof.
  assert (Hnd : NoDup (node_ids positioned_nodes)).
  { unfold positioned_nodes, node_ids. cbn.
    constructor; [intros [H|[]]; discriminate|].
    constructor; [intros []|constructor]. }
  assert (Hf : Forall (fun u => takenOver (nodeLookup emptyStore) None u = false)
                 positioned_nodes)
    by (repeat constructor).
  destruct (adoptUserNodes_absolute_position positioned_nodes
              [(0%nat, positioned_parent)] [] 1%nat positioned_child emptyStore None
              Hnd Hf eq_refl) as [inode [Hget [_ [_ [Hpar _]]]]].
  exists inode. split; [exact Hget|].
  apply (Hpar "p"%string eq_refl); [discriminate | left; reflexivity].
Defined.

(** X27.  For a measured node without an extent whose absolute position is
    the one of its parent plus its own position, moved by its origin,
    [calculateNodePosition], asked for the absolute position the node has,
    gives back the position of the node and reports no error. *)
Theorem calculateNodePosition_round_trip (nodeLookup : NodeLookup)
    (node : InternalNode) (nodeOrigin : NodeOrigin) (w h : R) :
  map_get nodeLookup (id (base node)) = Some node ->
  extent (base node) = None ->
  m_width (measured node) = Some w ->
  m_height (measured node) = Some h ->
  positionAbsolute (internals node)
  = addPosition (parentPositionAbsolute nodeLookup node)
      (getInternalNodePositionWithOrigin node nodeOrigin) ->
  calculateNodePosition (id (base node)) (positionAbsolute (internals node))
    nodeLookup nodeOrigin None
  = Some ({| res_position :=
               {| nx := Some (x (position (base node)));
                  ny := Some (y (position (base node))) |};
             res_positionAbsolute := positionAbsolute (internals node) |},
          []).
Proof.
  intros Hget Hext Hw Hh Hpos.
  unfold calculateNodePosition. rewrite Hget. cbv zeta.
  unfold parentPositionAbsolute in Hpos.
  set (parentNode :=
         if truthy_str (parentId (base node))
         then map_get nodeLookup (nullish (parentId (base node)) EmptyString)
         else None) in *.
  set (parentXY := match parentNode with
                   | Some p => positionAbsolute (internals p)
                   | None => {| x := 0; y := 0 |}
                   end) in *.
  rewrite Hext, Hw, Hh. cbn [nullish_opt option_map clampNodeExtent].
  assert (Hx : x (positionAbsolute (internals node)) - x parentXY
               + w * fst (nullish (origin (base node)) nodeOrigin)
               = x (position (base node))).
  { rewrite Hpos. unfold addPosition, getInternalNodePositionWithOrigin,
      internal_width. rewrite Hw. cbn [x nullish nullish_opt]. ring. }
  assert (Hy : y (positionAbsolute (internals node)) - y parentXY
               + h * snd (nullish (origin (base node)) nodeOrigin)
               = y (position (base node))).
  { rewrite Hpos. unfold addPosition, getInternalNodePositionWithOrigin,
      internal_height. rewrite Hh. cbn [y nullish nullish_opt]. ring. }
  destruct parentNode as [p|]; cbv beta iota; unfold plus_scaled;
    rewrite Hx, Hy; reflexivity.
Qed.

Lemma calculateNodePosition_round_trip_witness :
  calculateNodePosition "c" {| x := 10; y := 10 |} (lookup_of child_free) (0, 0) None
  = Some ({| res_position := {| nx := Some 10; ny := Some 10 |};
             res_positionAbsolute := {| x := 10; y := 10 |} |},
          []).
Proof.
  apply (calculateNodePosition_round_trip (lookup_of child_free) child_free (0, 0)
           20 30); try reflexivity.
  unfold addPosition, parentPositionAbsolute, getInternalNodePositionWithOrigin,
    internal_width, internal_height. cbn. f_equal; lra.
Defined.

(** ** [getFitViewNodes] *)

Lemma getFitViewNodes_loop_sound (options : option FitViewNodesOptions)
    (l : NodeLookup) (acc : NodeLookup) (P : string -> InternalNode -> Prop) :
  (forall k n, map_get acc k = Some n -> P k n) ->
  (forall n, In n (map_values l) -> fitViewCandidate options n = true ->
     P (id (base n)) n) ->
  forall k n,
    map_get
      (fold_left
         (fun fitViewNodes kv =>
            let n := snd kv in
            if fitViewCandidate options n
            then map_set fitViewNodes (id (base n)) n
            else fitViewNodes)
         l acc) k = Some n ->
    P k n.
Proof.
  revert acc. induction l as [|[k0 n0] rest IH]; intros acc Hacc Hl; cbn [fold_left].
  - exact Hacc.
  - apply IH.
    + cbn [snd]. destruct (fitViewCandidate options n0) eqn:Ec; [|exact Hacc].
      intros k n Hget. destruct (string_dec (id (base n0)) k) as [<-|Hne].
      * rewrite map_get_set_same in Hget. injection Hget as <-.
        apply Hl; [left; reflexivity | exact Ec].
      * rewrite map_get_set_other in Hget by exact Hne. apply Hacc. exact Hget.
    + intros n Hin. apply Hl. right. exact Hin.
Qed.

Lemma getFitViewNodes_loop_complete (options : option FitViewNodesOptions)
    (l : NodeLookup) (acc : NodeLookup) (i : string) :
  (exists n', map_get acc i = Some n' /\ id (base n') = i
              /\ fitViewCandidate options n' = true)
  \/ (exists n, In n (map_values l) /\ id (base n) = i
                /\ fitViewCandidate options n = true) ->
  exists n',
    map_get
      (fold_left
         (fun fitViewNodes kv =>
            let n := snd kv in
            if fitViewCandidate options n
            then map_set fitViewNodes (id (base n)) n
            else fitViewNodes)
         l acc) i = Some n'
    /\ id (base n') = i /\ fitViewCandidate options n' = true.
Proof.
  revert acc. induction l as [|[k0 n0] rest IH]; intros acc H; cbn [fold_left].
  - destruct H as [H|[n [[] _]]]. exact H.
  - apply IH. cbn [snd].
    destruct H as [[n' [Hget [Hid Hc]]]|[n [[<-|Hin] [Hid Hc]]]].
    + left. destruct (fitViewCandidate options n0) eqn:Ec.
      * destruct (string_dec (id (base n0)) i) as [E|Hne].
        -- exists n0. rewrite <- E at 1. rewrite map_get_set_same. repeat split; assumption.
        -- exists n'. rewrite map_get_set_other by exact Hne. repeat split; assumption.
      * exists n'. repeat split; assumption.
    + left. cbn [snd] in Hc |- *. cbn [snd] in Hid. rewrite Hc.
      exists n0. rewrite <- Hid at 1. rewrite map_get_set_same. repeat split; assumption.
    + right. exists n. repeat split; assumption.
Qed.

(** X28.  Every entry of the map [getFitViewNodes] returns is a node of the
    lookup under its id that is measured, shown (or hidden nodes are
    included) and one of the nodes asked for; every such node of the lookup
    has an entry under its id; and [fitView] on that map resolves to [false]
    exactly when the lookup has no such node. *)
Theorem getFitViewNodes_candidates (nodeLookup : NodeLookup)
    (options : option FitViewNodesOptions)
    (width height minZoom maxZoom : R) (fitOptions : option FitViewOptions) :
  let fitViewNodes := getFitViewNodes nodeLookup options in
  (forall k n, map_get fitViewNodes k = Some n ->
     k = id (base n) /\ In n (map_values nodeLookup)
     /\ fitViewCandidate options n = true)
  /\ (forall n, In n (map_values nodeLookup) ->
        fitViewCandidate options n = true ->
        exists n', map_get fitViewNodes (id (base n)) = Some n'
                   /\ id (base n') = id (base n)
                   /\ fitViewCandidate options n' = true)
  /\ (fst (fitView {| fv_nodes := fitViewNodes; fv_width := width;
                      fv_height := height; fv_minZoom := minZoom;
                      fv_maxZoom := maxZoom |} fitOptions) = false
      <-> forall n, In n (map_values nodeLookup) ->
            fitViewCandidate options n = false).
Proof.
  intros fitViewNodes. subst fitViewNodes.
  assert (Hsound : forall k n,
            map_get (getFitViewNodes nodeLookup options) k = Some n ->
            k = id (base n) /\ In n (map_values nodeLookup)
            /\ fitViewCandidate options n = true).
  { unfold getFitViewNodes.
    apply (getFitViewNodes_loop_sound options nodeLookup []
             (fun k n => k = id (base n) /\ In n (map_values nodeLookup)
                         /\ fitViewCandidate options n = true)).
    - intros k n H. discriminate.
    - intros n Hin Hc. repeat split; assumption. }
  assert (Hcomplete : forall n, In n (map_values nodeLookup) ->
            fitViewCandidate options n = true ->
            exists n', map_get (getFitViewNodes nodeLookup options) (id (base n))
                       = Some n'
                       /\ id (base n') = id (base n)
                       /\ fitViewCandidate options n' = true).
  { intros n Hin Hc. unfold getFitViewNodes.
    apply getFitViewNodes_loop_complete. right. exists n. repeat split; assumption. }
  split; [exact Hsound|]. split; [exact Hcomplete|].
  unfold fitView. cbn [fv_nodes].
  destruct (getFitViewNodes nodeLookup options) as [|[k0 n0] rest] eqn:E;
    cbn [map_size List.length Nat.eqb fst].
  - split; [|reflexivity]. intros _ n Hin.
    destruct (fitViewCandidate options n) eqn:Ec; [|reflexivity].
    destruct (Hcomplete n Hin Ec) as [n' [Hget _]]. discriminate.
  - split; [discriminate|]. intros Hnone. exfalso.
    destruct (Hsound k0 n0) as [_ [Hin Hc]].
    + cbn [map_get]. rewrite String.eqb_refl. reflexivity.
    + rewrite (Hnone n0 Hin) in Hc. discriminate.
Qed.

(** ** Handle positions *)

(** X29.  The point [getHandlePosition] gives for a handle on one side and
    the point it gives for the handle on the opposite side have the centre of
    the handle, which [center] asks for, half way between them; the side of
    the handle goes before the fallback side, which counts for a handle
    without a side and for the node itself, taken when the handle is
    absent. *)
Theorem getHandlePosition_opposite (node : InternalNode) (hd : HandleBounds)
    (p fallbackPosition : Position) :
  midpoint (getHandlePosition node (Some (handleOnSide hd p)) fallbackPosition false)
    (getHandlePosition node (Some (handleOnSide hd (oppositePosition p)))
       fallbackPosition false)
  = getHandlePosition node (Some hd) fallbackPosition true
  /\ midpoint (getHandlePosition node None p false)
       (getHandlePosition node None (oppositePosition p) false)
     = getHandlePosition node None fallbackPosition true
  /\ (hb_position hd = None ->
      getHandlePosition node (Some hd) p false
      = getHandlePosition node (Some (handleOnSide hd p)) fallbackPosition false).
Proof.
  unfold getHandlePosition, midpoint, handleOnSide.
  cbn [option_map nullish hb_x hb_y hb_width hb_height hb_position].
  split; [|split].
  - destruct p; cbn [oppositePosition x y]; f_equal; field.
  - destruct p; cbn [oppositePosition x y]; f_equal; field.
  - intros ->. reflexivity.
Qed.

Lemma getHandlePosition_opposite_witness :
  getHandlePosition parent_100
    (Some {| hb_x := 0; hb_y := 0; hb_width := 10; hb_height := 10;
             hb_position := None |})
    PositionRight false
  = getHandlePosition parent_100
      (Some (handleOnSide
               {| hb_x := 0; hb_y := 0; hb_width := 10; hb_height := 10;
                  hb_position := None |}
               PositionRight))
      PositionLeft false.
Proof.
  apply (getHandlePosition_opposite parent_100
           {| hb_x := 0; hb_y := 0; hb_width := 10; hb_height := 10;
              hb_position := None |}
           PositionRight PositionLeft).
  reflexivity.
Defined.

(** ** [getNodesInside] *)

Lemma getOverlappingArea_apart (a b : Rect) :
  rectsApart a b -> getOverlappingArea a b = 0.
Proof.
  unfold getOverlappingArea, rectsApart. intros Hapart.
  set (dx := Rmin (rect_x a + rect_width a) (rect_x b + rect_width b)
             - Rmax (rect_x a) (rect_x b)).
  set (dy := Rmin (rect_y a + rect_height a) (rect_y b + rect_height b)
             - Rmax (rect_y a) (rect_y b)).
  assert (Hzero : Rmax 0 dx = 0 \/ Rmax 0 dy = 0).
  { subst dx dy.
    destruct Hapart as [H|[H|[H|H]]]; [left|left|right|right];
      apply Rmax_left;
      match goal with
      | |- Rmin ?p ?q - Rmax ?r ?s <= 0 =>
          pose proof (Rmin_l p q); pose proof (Rmin_r p q);
          pose proof (Rmax_l r s); pose proof (Rmax_r r s); lra
      end. }
  destruct Hzero as [-> | ->].
  - rewrite Rmult_0_l. apply Math_ceil_0.
  - rewrite Rmult_0_r. apply Math_ceil_0.
Qed.

Lemma getOverlappingArea_contained (a b : Rect) :
  rectProper b ->
  boxContains (rectToBox a) (rectToBox b) ->
  rect_width b * rect_height b <= getOverlappingArea a b.
Proof.
  unfold rectProper, boxContains, rectToBox, getOverlappingArea.
  cbn [box_x box_y box_x2 box_y2]. intros [Hw Hh] [Hx [Hy [Hx2 Hy2]]].
  rewrite (Rmin_right (rect_x a + rect_width a)) by lra.
  rewrite (Rmax_right (rect_x a)) by lra.
  rewrite (Rmin_right (rect_y a + rect_height a)) by lra.
  rewrite (Rmax_right (rect_y a)) by lra.
  rewrite (Rmax_right 0 (rect_x b + rect_width b - rect_x b)) by lra.
  rewrite (Rmax_right 0 (rect_y b + rect_height b - rect_y b)) by lra.
  replace (rect_width b * rect_height b)
    with ((rect_x b + rect_width b - rect_x b)
          * (rect_y b + rect_height b - rect_y b)) by ring.
  apply Math_ceil_bounds.
Qed.

Lemma getNodesInside_loop (test : PaneNode -> bool) (l : JSMap PaneNode)
    (acc : list PaneNode) (n : PaneNode) :
  In n (fold_left
          (fun visibleNodes kv =>
             if test (snd kv) then visibleNodes ++ [snd kv] else visibleNodes)
          l acc)
  <-> In n acc \/ (In n (map_values l) /\ test n = true).
Proof.
  revert acc. induction l as [|[k0 n0] rest IH]; intros acc; cbn [fold_left].
  - cbn. tauto.
  - rewrite IH. cbn [snd map_values List.map In].
    destruct (test n0) eqn:Et.
    + rewrite in_app_iff. cbn [In]. split.
      * intros [[H|[<-|[]]]|[H1 H2]]; [left; exact H | | ].
        -- right. split; [left; reflexivity | exact Et].
        -- right. split; [right; exact H1 | exact H2].
      * intros [H|[[<-|H1] H2]].
        -- left. left. exact H.
        -- left. right. left. reflexivity.
        -- right. split; assumption.
    + split.
      * intros [H|[H1 H2]]; [left; exact H|].
        right. split; [right; exact H1 | exact H2].
      * intros [H|[[<-|H1] H2]]; [left; exact H | congruence |].
        right. split; assumption.
Qed.

(** X30.  The nodes [getNodesInside] returns are nodes of the map that are
    not hidden, and selectable if the others are to be left out; a node of
    the map that passes this and lies within the pane rectangle, its size not
    negative, is returned; and a node of a positive area that lies apart from
    the pane rectangle is returned only if it is being dragged. *)
Theorem getNodesInside_contained (nodes : JSMap PaneNode) (rect : Rect)
    (t : Transform) (partially excludeNonSelectableNodes : bool) :
  let paneRect := paneRectOf rect t in
  let result := getNodesInside nodes rect t partially excludeNonSelectableNodes in
  (forall n, In n result ->
     In n (map_values nodes)
     /\ hidden (base (pn_node n)) = false
     /\ (excludeNonSelectableNodes = true -> pn_selectable n <> Some false))
  /\ (forall n, In n (map_values nodes) ->
        hidden (base (pn_node n)) = false ->
        (excludeNonSelectableNodes = true -> pn_selectable n <> Some false) ->
        rectProper (nodeToRect (pn_node n)) ->
        boxContains (rectToBox paneRect) (rectToBox (nodeToRect (pn_node n))) ->
        In n result)
  /\ (forall n, In n result ->
        rectsApart paneRect (nodeToRect (pn_node n)) ->
        0 < internal_width (pn_node n) * internal_height (pn_node n) ->
        pn_dragging n = true).
Proof.
  intros paneRect result. subst result. unfold getNodesInside. fold paneRect.
  split; [|split].
  - intros n Hin. apply getNodesInside_loop in Hin.
    destruct Hin as [[]|[Hin Ht]]. split; [exact Hin|].
    unfold nodeInside in Ht.
    destruct (hidden (base (pn_node n))); [rewrite orb_true_r in Ht; discriminate|].
    split; [reflexivity|]. intros ->.
    destruct (pn_selectable n) as [[|]|]; try discriminate.
  - intros n Hin Hh Hs Hproper Hc. apply getNodesInside_loop. right.
    split; [exact Hin|]. unfold nodeInside. rewrite Hh.
    assert (Hsel : excludeNonSelectableNodes
                   && negb (nullish (pn_selectable n) true) = false).
    { destruct excludeNonSelectableNodes; [|reflexivity].
      destruct (pn_selectable n) as [[|]|]; try reflexivity.
      exfalso. apply (Hs eq_refl). reflexivity. }
    rewrite Hsel. cbn [orb].
    pose proof (getOverlappingArea_contained paneRect (nodeToRect (pn_node n))
                  Hproper Hc) as Harea.
    cbn [nodeToRect rect_width rect_height] in Harea.
    unfold internal_width, internal_height in Harea.
    rewrite (proj2 (Rleb_true _ _) Harea).
    rewrite orb_true_r. reflexivity.
  - intros n Hin Hapart Harea. apply getNodesInside_loop in Hin.
    destruct Hin as [[]|[_ Ht]]. unfold nodeInside in Ht.
    destruct ((excludeNonSelectableNodes && negb (nullish (pn_selectable n) true))
              || hidden (base (pn_node n))); [discriminate|].
    rewrite (getOverlappingArea_apart _ _ Hapart) in Ht.
    rewrite (proj2 (Rltb_false 0 0)) in Ht by lra.
    rewrite andb_false_r in Ht.
    unfold internal_width, internal_height in Harea.
    rewrite (proj2 (Rleb_false _ _) Harea) in Ht.
    destruct (nullish_opt (nullish_opt (m_width (measured (pn_node n)))
                             (width (base (pn_node n))))
                (initialWidth (base (pn_node n)))) as [w|];
      [|cbn [nullish] in Harea; lra].
    destruct (nullish_opt (nullish_opt (m_height (measured (pn_node n)))
                             (height (base (pn_node n))))
                (initialHeight (base (pn_node n)))) as [h|];
      [|cbn [nullish] in Harea; lra].
    cbn [orb] in Ht. exact Ht.
Qed.

Lemma getNodesInside_contained_witness :
  In pane_child (getNodesInside [("c"%string, pane_child)] pane_100 (0, 0, 1)
                   false false).
Proof.
  destruct (getNodesInside_contained [("c"%string, pane_child)] pane_100 (0, 0, 1)
              false false) as [_ [Hin _]].
  apply Hin.
  - left. reflexivity.
  - reflexivity.
  - discriminate.
  - unfold rectProper. cbn. lra.
  - unfold boxContains. cbn. lra.
Defined.
